(** * Text normalizers of the product scraper

    A shallow embedding of the parsing heuristics of
    [Scraping/dist/scrapers/ts/product_scraper.js] ([parsePrice],
    [getCurrencyCode], [parseRating], [parseStockStatus],
    [parseStockLevel]) and of the description truncation of both scrapers,
    followed by the properties established about them.  A second part
    embeds the extraction helpers of the product scraper, the export
    writers, and the scrape methods and [run] of both scrapers; the further
    properties established about these close the file.

    Conventions of the embedding:
    - a JavaScript string is the list of its UTF-16 code units ([jsstring]);
      [length], [slice], [substring], [includes] and the regular expressions
      (none of which carries the [u] flag) all work on code units;
    - a JavaScript number is the rational it stands for, or [NaN]
      ([number]): a parsed literal is the double nearest to its rational
      (an infinity from 2^1024 on) and is written as that rational; where
      a result depends on the rounding of the operations, as the discount
      percentage does, the arithmetic is that of the doubles ([Double]);
    - [undefined] is [None];
    - an exception thrown inside a [try] block is [None] in the [option]
      monad, and the [catch] handler is the default of that computation. *)

From Stdlib Require Import List Bool Arith NArith ZArith QArith Qround Qminmax Lia.
From Stdlib Require Import Qpower Lqa.
From Stdlib Require Import Strings.String Strings.Ascii.
From Stdlib Require Import Sorted Permutation.
Import ListNotations.

Local Open Scope N_scope.

(** ** Strings *)

Module JS.

Definition jsstring := list N.

(** Decoding of a UTF-8 literal of this file into UTF-16 code units, so that
    the constants of the source can be written as they appear there. *)
Definition emit (cp : N) : jsstring :=
  if cp <? 65536 then [cp]
  else [55296 + (cp - 65536) / 1024; 56320 + (cp - 65536) mod 1024].

Fixpoint utf8 (acc : N) (need : nat) (s : string) : jsstring :=
  match s with
  | EmptyString => []
  | String a t =>
      let b := N_of_ascii a in
      match need with
      | O =>
          if b <? 128 then b :: utf8 0 0 t
          else if b <? 224 then utf8 (b - 192) 1 t
          else if b <? 240 then utf8 (b - 224) 2 t
          else utf8 (b - 240) 3 t
      | S O => emit (acc * 64 + (b - 128)) ++ utf8 0 0 t
      | S n => utf8 (acc * 64 + (b - 128)) n t
      end
  end.

Definition u (s : string) : jsstring := utf8 0 0 s.

(** The single code unit of a one-character literal. *)
Definition ch (s : string) : N := hd 0 (u s).

Definition eqs (a b : jsstring) : bool :=
  if list_eq_dec N.eq_dec a b then true else false.

(** [String.prototype.startsWith] at position 0 and
    [String.prototype.includes]. *)
Fixpoint startsWith (s p : jsstring) {struct p} : bool :=
  match p, s with
  | [], _ => true
  | a :: p', b :: s' => (a =? b) && startsWith s' p'
  | _ :: _, [] => false
  end.

Fixpoint includes (s sub : jsstring) : bool :=
  startsWith s sub ||
  match s with
  | [] => false
  | _ :: t => includes t sub
  end.

(** Number of non-overlapping matches of a one-unit pattern with the [g]
    flag: [(s.match(/c/g) || []).length]. *)
Definition countMatches (c : N) (s : jsstring) : nat :=
  List.length (filter (N.eqb c) s).

(** ECMAScript LineTerminator and WhiteSpace code units; [\s] and [trim]
    use their union, [.] excludes the line terminators. *)
Definition isLineTerminator (c : N) : bool :=
  (c =? 10) || (c =? 13) || (c =? 8232) || (c =? 8233).

Definition isWhiteSpace (c : N) : bool :=
  (c =? 9) || (c =? 11) || (c =? 12) || (c =? 32) || (c =? 160) ||
  (c =? 5760) || ((8192 <=? c) && (c <=? 8202)) || (c =? 8239) ||
  (c =? 8287) || (c =? 12288) || (c =? 65279).

Definition isSpace (c : N) : bool := isWhiteSpace c || isLineTerminator c.

Fixpoint trimStart (s : jsstring) : jsstring :=
  match s with
  | c :: t => if isSpace c then trimStart t else s
  | [] => []
  end.

Definition trimEnd (s : jsstring) : jsstring := rev (trimStart (rev s)).

Definition trim (s : jsstring) : jsstring := trimEnd (trimStart s).

(** [s.substring(0, n)] and [s.slice(0, n)] for [0 <= n]. *)
Definition substring0 (n : nat) (s : jsstring) : jsstring := firstn n s.

(** [a || b] on a possibly undefined string: the empty string and
    [undefined] are falsy. *)
Definition orElse (a : option jsstring) (b : jsstring) : jsstring :=
  match a with
  | Some (c :: t) => c :: t
  | _ => b
  end.

(** A capture spliced into a template literal or converted by [ToString]. *)
Definition tpl (a : option jsstring) : jsstring :=
  match a with
  | Some s => s
  | None => u "undefined"
  end.

End JS.
Import JS.

(** ** Regular expressions

    The patterns of the source quantify single character classes only, so
    the abstract syntax has a class star instead of a general one.  [run]
    lists the ways the pattern matches a prefix of the input, in the order
    in which a backtracking matcher tries them (greedy quantifiers, left
    alternative first); [exec] is [RegExp.prototype.exec] without the [g]
    flag: the first alternative at the leftmost start position. *)

Module Re.

Inductive regex : Type :=
| Eps
| Chr (p : N -> bool)
| Cat (a b : regex)
| Alt (a b : regex)
| Opt (a : regex)
| Star (p : N -> bool)
| Grp (i : nat) (a : regex).

Definition Plus (p : N -> bool) : regex := Cat (Chr p) (Star p).

Definition caps := list (nat * jsstring).

(** One way of matching: the matched prefix, its captures, the rest. *)
Definition alt : Type := jsstring * caps * jsstring.

Fixpoint star (p : N -> bool) (s : jsstring) : list alt :=
  match s with
  | c :: t =>
      if p c
      then map (fun '(w, k, r) => (c :: w, k, r)) (star p t) ++ [([], [], s)]
      else [([], [], s)]
  | [] => [([], [], [])]
  end.

Fixpoint run (r : regex) (s : jsstring) : list alt :=
  match r with
  | Eps => [([], [], s)]
  | Chr p =>
      match s with
      | c :: t => if p c then [([c], [], t)] else []
      | [] => []
      end
  | Cat a b =>
      flat_map (fun '(w1, k1, r1) =>
                  map (fun '(w2, k2, r2) => (w1 ++ w2, k1 ++ k2, r2))
                      (run b r1))
               (run a s)
  | Alt a b => run a s ++ run b s
  | Opt a => run a s ++ [([], [], s)]
  | Star p => star p s
  | Grp i a => map (fun '(w, k, r) => (w, (i, w) :: k, r)) (run a s)
  end.

(** The match array: index 0 is the whole match, index [i] capture [i]. *)
Definition result : Type := jsstring * caps.

Fixpoint exec (r : regex) (s : jsstring) : option result :=
  match run r s with
  | (w, k, _) :: _ => Some (w, k)
  | [] =>
      match s with
      | [] => None
      | _ :: t => exec r t
      end
  end.

Fixpoint lookup (i : nat) (k : caps) : option jsstring :=
  match k with
  | [] => None
  | (j, w) :: k' => if Nat.eqb i j then Some w else lookup i k'
  end.

Definition group (i : nat) (m : result) : option jsstring :=
  match i with
  | O => Some (fst m)
  | _ => lookup i (snd m)
  end.

(** Classes and literals. *)
Definition oneOf (cs : jsstring) (c : N) : bool := existsb (N.eqb c) cs.
Definition range (lo hi : N) (c : N) : bool := (lo <=? c) && (c <=? hi).
Definition isDigit : N -> bool := range 48 57.
Definition dot (c : N) : bool := negb (isLineTerminator c).

Definition isUpper : N -> bool := range 65 90.
Definition isLower : N -> bool := range 97 122.

(** A literal code unit under the [i] flag (no [u] flag): both sides are
    canonicalized with the simple upper-case mapping, which never sends a
    code unit above 127 to one below 128, so a Basic Latin letter matches
    its two cases and any other Basic Latin literal matches itself. *)
Definition ci (x : N) (c : N) : bool :=
  (c =? x) ||
  (isLower x && (c =? x - 32)) ||
  (isUpper x && (c =? x + 32)).

Definition lit (f : N -> N -> bool) (s : jsstring) : regex :=
  fold_right (fun x r => Cat (Chr (f x)) r) Eps s.

End Re.
Import Re.

(** ** Numbers *)

Module Num.

Inductive number : Type :=
| Num (q : Q)
| NaN.

(** The operations of the rating normalizer, written on the rationals
    the doubles stand for; the rounding of each operation is modelled
    where a result is read to the unit ([Double], below). *)

Definition nmul (a b : number) : number :=
  match a, b with
  | Num x, Num y => Num (x * y)
  | _, _ => NaN
  end.

(** Division; a zero divisor (an infinity or NaN in JavaScript) is outside
    the embedding and does not occur: the source divides by a constant or
    behind a [> 0] test. *)
Definition ndiv (a b : number) : number :=
  match a, b with
  | Num x, Num y => if Qeq_bool y 0 then NaN else Num (x / y)
  | _, _ => NaN
  end.

(** [a > b]: false as soon as one side is NaN. *)
Definition gt (a b : number) : bool :=
  match a, b with
  | Num x, Num y => negb (Qle_bool x y)
  | _, _ => false
  end.

(** [Math.round]: the nearest integer, ties towards plus infinity. *)
Definition round (a : number) : number :=
  match a with
  | Num x => Num (inject_Z (Qfloor (x + (1 # 2))))
  | NaN => NaN
  end.

(** Equality of numbers as values. *)
Definition same (a b : number) : Prop :=
  match a, b with
  | Num x, Num y => x == y
  | NaN, NaN => True
  | _, _ => False
  end.

Definition ofZ (z : Z) : number := Num (inject_Z z).

Fixpoint span (p : N -> bool) (s : jsstring) : jsstring * jsstring :=
  match s with
  | c :: t =>
      if p c then let '(a, b) := span p t in (c :: a, b) else ([], s)
  | [] => ([], [])
  end.

Definition decimal (ds : jsstring) : N :=
  fold_left (fun a d => 10 * a + (d - 48)) ds 0.

(** [parseFloat] on its decimal-literal prefix: digits, then optionally a
    point and digits.  Leading white space, a sign, an exponent and
    [Infinity] never occur in the strings the source passes (captures made
    of digits and a point).  The result is the rational written, for the
    double nearest to it. *)
Definition parseFloat (s : jsstring) : number :=
  let '(i, r) := span isDigit s in
  let f := match r with
           | c :: r' => if c =? 46 then fst (span isDigit r') else []
           | [] => []
           end in
  match i ++ f with
  | [] => NaN
  | ds => Num (Z.of_N (decimal ds) # Z.to_pos (10 ^ Z.of_nat (List.length f)))
  end.

(** [parseInt] on its leading decimal digits (the source passes captures
    made of digits only).  The result is the integer written, for the
    double nearest to it: up to 15 digits that double is the integer
    itself, from 309 digits on it is an infinity. *)
Definition parseInt (s : jsstring) : number :=
  match fst (span isDigit s) with
  | [] => NaN
  | ds => Num (Z.of_N (decimal ds) # 1)
  end.

End Num.
Import Num.

(** ** Doubles

    The arithmetic of IEEE 754 binary64, for the one place where the
    source rounds a computed quotient to a whole number (the discount
    percentage): there the rounding of each operation decides the result.
    A finite double is the rational it is; the sign of a zero is not
    kept. *)

Module Double.

Local Open Scope Q_scope.

Inductive double : Type :=
| Fin (q : Q)
| Inf (negative : bool)
| Nan.

Definition two (e : Z) : Q := Qpower 2 e.

(** The integer [l] with [2^l <= q < 2^(l+1)], for [q > 0]. *)
Definition ilog2 (q : Q) : Z :=
  let k := (Z.log2 (Qnum q) - Z.log2 (Zpos (Qden q)))%Z in
  if Qle_bool (two k) q then k else (k - 1)%Z.

(** The exponent of the last place of the doubles around [q > 0]:
    53 significant bits, from the subnormals (2^-1074) on. *)
Definition exponentOf (q : Q) : Z := Z.max (ilog2 q - 52) (-1074).

(** The nearest integer, ties to the even one. *)
Definition rne (x : Q) : Z :=
  let f := Qfloor x in
  match Qcompare (x - inject_Z f) (1 # 2) with
  | Lt => f
  | Gt => (f + 1)%Z
  | Eq => if Z.even f then f else (f + 1)%Z
  end.

(** The nearest double of [q > 0], were the exponent unbounded above. *)
Definition nearest (q : Q) : Q :=
  let e := exponentOf q in Qred (inject_Z (rne (q / two e)) * two e).

(** Rounding to double: to nearest, ties to even, an infinity from 2^1024
    on. *)
Definition fl (q : Q) : double :=
  match Qcompare q 0 with
  | Eq => Fin 0
  | Gt => let v := nearest q in
          if Qle_bool (two 1024) v then Inf false else Fin v
  | Lt => let v := nearest (- q) in
          if Qle_bool (two 1024) v then Inf true else Fin (- v)
  end.

Definition isNegative (q : Q) : bool := negb (Qle_bool 0 q).

Definition sub (a b : double) : double :=
  match a, b with
  | Fin x, Fin y => fl (x - y)
  | Inf s, Fin _ => Inf s
  | Fin _, Inf s => Inf (negb s)
  | Inf s, Inf t => if Bool.eqb s t then Nan else Inf s
  | _, _ => Nan
  end.

Definition div (a b : double) : double :=
  match a, b with
  | Fin x, Fin y =>
      if Qeq_bool y 0
      then if Qeq_bool x 0 then Nan else Inf (isNegative x)
      else fl (x / y)
  | Fin _, Inf _ => Fin 0
  | Inf s, Fin y => Inf (xorb s (isNegative y))
  | _, _ => Nan
  end.

Definition mul (a b : double) : double :=
  match a, b with
  | Fin x, Fin y => fl (x * y)
  | Fin x, Inf s | Inf s, Fin x =>
      if Qeq_bool x 0 then Nan else Inf (xorb s (isNegative x))
  | Inf s, Inf t => Inf (xorb s t)
  | _, _ => Nan
  end.

(** [Math.round]: the nearest integer, ties towards plus infinity; it is a
    double whenever its argument is. *)
Definition round (a : double) : double :=
  match a with
  | Fin x => Fin (inject_Z (Qfloor (x + (1 # 2))))
  | _ => a
  end.

(** The double a [number] stands for, and back; an infinity is written as
    the rational 2^1024 it starts at. *)
Definition ofNumber (a : number) : double :=
  match a with
  | Num q => fl q
  | NaN => Nan
  end.

Definition toNumber (d : double) : number :=
  match d with
  | Fin q => Num q
  | Inf s => Num (if s then - two 1024 else two 1024)
  | Nan => NaN
  end.

(** [Math.round(((original - amount) / original) * 100)], each operation
    rounding to a double. *)
Definition percentage (original amount : number) : number :=
  let o := ofNumber original in
  let a := ofNumber amount in
  toNumber (round (mul (div (sub o a) o) (Fin 100))).

(** A non-negative double: a significand below 2^53 at an exponent not
    below that of the subnormals. *)
Definition representable (d : Q) : Prop :=
  exists m e, d == inject_Z m * two e /\ (0 <= m < 2 ^ 53)%Z /\ (-1074 <= e)%Z.

(** A finite non-negative double. *)
Definition finite (d : Q) : Prop := 0 <= d /\ d < two 1024 /\ representable d.

End Double.

(** ** The price normalizer *)

Record Price : Type := mkPrice {
  amount : number;
  currency : jsstring;
  formatted : jsstring;
  discounted : bool;
  originalAmount : option number;
  originalFormatted : option jsstring;
  discountPercentage : option number
}.

Definition currencyMap : list (jsstring * jsstring) :=
  [ (u "$", u "USD"); (u "€", u "EUR"); (u "£", u "GBP"); (u "¥", u "JPY");
    (u "₹", u "INR"); (u "₽", u "RUB"); (u "₩", u "KRW"); (u "₫", u "VND");
    (u "฿", u "THB"); (u "₴", u "UAH"); (u "₺", u "TRY") ].

Fixpoint property (key : jsstring) (o : list (jsstring * jsstring))
  : option jsstring :=
  match o with
  | [] => None
  | (k, v) :: o' => if eqs key k then Some v else property key o'
  end.

Definition getCurrencyCode (symbol : jsstring) : jsstring :=
  orElse (property symbol currencyMap) (u "USD").

(** [[₹$€£¥]] and [[0-9,]]. *)
Definition isSymbol : N -> bool := oneOf (u "₹$€£¥").
Definition isAmountUnit (c : N) : bool := isDigit c || (c =? ch ",").

(** [([0-9,]+(\.[0-9]{2})?)] with its two capture indices. *)
Definition amountRe (i j : nat) : regex :=
  Grp i (Cat (Plus isAmountUnit)
             (Opt (Grp j (Cat (Chr (N.eqb (ch ".")))
                              (Cat (Chr isDigit) (Chr isDigit)))))).

(** [/([₹$€£¥])\s*([0-9,]+(\.[0-9]{2})?)/] *)
Definition priceRe : regex :=
  Cat (Grp 1 (Chr isSymbol)) (Cat (Star isSpace) (amountRe 2 3)).

(** [/([0-9,]+(\.[0-9]{2})?)/] *)
Definition numericRe : regex := amountRe 1 2.

(** [/([₹$€£¥])\s*([0-9,]+(\.[0-9]{2})?).*([₹$€£¥])\s*([0-9,]+(\.[0-9]{2})?)/] *)
Definition originalRe : regex :=
  Cat (Grp 1 (Chr isSymbol))
      (Cat (Star isSpace)
           (Cat (amountRe 2 3)
                (Cat (Star dot)
                     (Cat (Grp 4 (Chr isSymbol))
                          (Cat (Star isSpace) (amountRe 5 6)))))).

(** [x.replace(/,/g, '')]; throws when [x] is undefined. *)
Definition stripCommas (x : option jsstring) : option jsstring :=
  option_map (filter (fun c => negb (c =? ch ","))) x.

Notation "x <- e ;; k" :=
  (match e with Some x => k | None => None end)
  (at level 61, e at next level, right associativity, only parsing).

Definition hasDiscountOf (cleanText : jsstring) : bool :=
  includes cleanText (u "$") && (1 <? countMatches (ch "$") cleanText)%nat.

(** The body of the [try] block of [parsePrice]; [None] is a thrown
    exception. *)
Definition parsePriceTry (priceText : jsstring)
  (currencySymbol : option jsstring) : option Price :=
  let cleanText := trim priceText in
  let hasDiscount := hasDiscountOf cleanText in
  let amount0 := Num 0 in
  let currency0 := orElse currencySymbol (u "USD") in
  let formatted0 := cleanText in
  st <- match exec priceRe cleanText with
        | Some priceMatch =>
            a <- stripCommas (group 2 priceMatch) ;;
            Some (parseFloat a,
                  getCurrencyCode (tpl (group 1 priceMatch)),
                  tpl (group 1 priceMatch) ++ tpl (group 2 priceMatch))
        | None =>
            match exec numericRe cleanText with
            | Some numericMatch =>
                a <- stripCommas (group 1 numericMatch) ;;
                Some (parseFloat a, currency0,
                      orElse currencySymbol (u "$")
                        ++ tpl (group 1 numericMatch))
            | None => Some (amount0, currency0, formatted0)
            end
        end ;;
  let '(amount1, currency1, formatted1) := st in
  match (if hasDiscount then exec originalRe cleanText else None) with
  | Some originalMatch =>
      p1 <- stripCommas (group 2 originalMatch) ;;
      p2 <- stripCommas (group 5 originalMatch) ;;
      let price1 := parseFloat p1 in
      let price2 := parseFloat p2 in
      let first := tpl (group 1 originalMatch) ++ tpl (group 2 originalMatch) in
      let second := tpl (group 4 originalMatch) ++ tpl (group 5 originalMatch) in
      let '(originalAmount2, originalFormatted2, amount2, formatted2) :=
        if gt price1 price2
        then (price1, first, price2, second)
        else (price2, second, price1, first) in
      let discountPercentage2 :=
        if gt originalAmount2 (Num 0)
        then Some (Double.percentage originalAmount2 amount2)
        else None in
      Some (mkPrice amount2 currency1 formatted2 hasDiscount
                    (Some originalAmount2) (Some originalFormatted2)
                    discountPercentage2)
  | None =>
      Some (mkPrice amount1 currency1 formatted1 hasDiscount None None None)
  end.

Definition parsePrice (priceText : jsstring)
  (currencySymbol : option jsstring) : Price :=
  match priceText with
  | [] =>
      mkPrice (Num 0) (orElse currencySymbol (u "USD")) (u "$0.00") false
              None None None
  | _ :: _ =>
      match parsePriceTry priceText currencySymbol with
      | Some p => p
      | None =>
          mkPrice (Num 0) (orElse currencySymbol (u "USD")) priceText false
                  None None None
      end
  end.

(** ** The rating normalizer *)

(** [/([0-9]\.[0-9]|[0-5])/] *)
Definition ratingRe : regex :=
  Grp 1 (Alt (Cat (Chr isDigit) (Cat (Chr (N.eqb (ch "."))) (Chr isDigit)))
             (Chr (range (ch "0") (ch "5")))).

(** [/([0-9]+)%/] *)
Definition percentRe : regex :=
  Cat (Grp 1 (Plus isDigit)) (Chr (N.eqb (ch "%"))).

Definition ofNat (n : nat) : number := ofZ (Z.of_nat n).

(** The marker counts of [parseRating]: [★] or [*], and [☆] or [-]. *)
Definition fullStars (ratingText : jsstring) : nat :=
  countMatches (ch "★") ratingText + countMatches (ch "*") ratingText.

Definition emptyStars (ratingText : jsstring) : nat :=
  countMatches (ch "☆") ratingText + countMatches (ch "-") ratingText.

(** Rules (b) to (d) of [parseRating], reached when no numeric literal is
    found. *)
Definition ratingFallback (ratingText : jsstring) : number :=
  let fullStars := fullStars ratingText in
  let emptyStars := emptyStars ratingText in
  if ((0 <? fullStars) || (0 <? emptyStars))%nat
  then nmul (ndiv (ofNat fullStars) (ofNat (fullStars + emptyStars))) (Num 5)
  else
    match exec percentRe ratingText with
    | Some percentMatch =>
        ndiv (round (nmul (ndiv (parseInt (tpl (group 1 percentMatch)))
                                (Num 20))
                          (Num 100)))
             (Num 100)
    | None => Num 0
    end.

(** [parseRating]; on a string nothing in its [try] block throws, so the
    [catch] handler is not reached. *)
Definition parseRating (ratingText : jsstring) : number :=
  match exec ratingRe ratingText with
  | Some numericMatch => parseFloat (tpl (group 1 numericMatch))
  | None => ratingFallback ratingText
  end.

(** The rating rules as the specification words them: rule (a) looks for
    [/[0-5](\.[0-9])?/] and returns the matched literal; rules (b) to (d)
    are those of [ratingFallback]. *)
Definition specRatingRe : regex :=
  Cat (Chr (range (ch "0") (ch "5")))
      (Opt (Grp 1 (Cat (Chr (N.eqb (ch "."))) (Chr isDigit)))).

Definition specParseRating (ratingText : jsstring) : number :=
  match exec specRatingRe ratingText with
  | Some literal => parseFloat (tpl (group 0 literal))
  | None => ratingFallback ratingText
  end.

(** ** The stock normalizers

    [String.prototype.toLowerCase] follows the Unicode case tables, which
    are not reproduced here: the normalizers are defined over any
    [toLowerCase] that lowers Basic Latin text unit by unit. *)

Definition lowerUnit (c : N) : N := if isUpper c then c + 32 else c.
Definition isBasicLatin (s : jsstring) : bool := forallb (fun c => c <? 128) s.

Inductive StockLevel : Type :=
| Level (n : number)
| LOW.

Definition outOfStockIndicators : list jsstring :=
  [ u "out of stock"; u "sold out"; u "unavailable"; u "no longer available";
    u "not available"; u "out-of-stock"; u "not in stock"; u "backordered" ].

Definition inStockIndicators : list jsstring :=
  [ u "in stock"; u "available"; u "in-stock"; u "ships"; u "shipping";
    u "add to cart"; u "buy now"; u "ship" ].

(** [/(\d+)\s*(left|available|in stock|item)/i] *)
Definition stockLevelRe : regex :=
  Cat (Grp 1 (Plus isDigit))
      (Cat (Star isSpace)
           (Grp 2 (Alt (lit ci (u "left"))
                       (Alt (lit ci (u "available"))
                            (Alt (lit ci (u "in stock"))
                                 (lit ci (u "item"))))))).

Section Stock.

Variable toLowerCase : jsstring -> jsstring.

(** A [for ... of] loop that returns [r] at the first indicator included
    in the text, and otherwise falls through to [k]. *)
Fixpoint firstIncluded (lowercaseText : jsstring) (indicators : list jsstring)
  (r k : bool) : bool :=
  match indicators with
  | [] => k
  | indicator :: rest =>
      if includes lowercaseText indicator then r
      else firstIncluded lowercaseText rest r k
  end.

Definition parseStockStatus (text : jsstring) : bool :=
  match text with
  | [] => true
  | _ :: _ =>
      let lowercaseText := toLowerCase text in
      firstIncluded lowercaseText outOfStockIndicators false
        (firstIncluded lowercaseText inStockIndicators true true)
  end.

Definition parseStockLevel (text : jsstring) : option StockLevel :=
  match text with
  | [] => None
  | _ :: _ =>
      let lowercaseText := toLowerCase text in
      match exec stockLevelRe text with
      | Some numericMatch => Some (Level (parseInt (tpl (group 1 numericMatch))))
      | None =>
          if includes lowercaseText (u "low stock")
             || includes lowercaseText (u "selling fast")
          then Some LOW
          else if includes lowercaseText (u "out of stock")
                  || includes lowercaseText (u "sold out")
          then Some (Level (Num 0))
          else None
      end
  end.

End Stock.

(** ** Description truncation *)

(** [example_scraper.ts], [scrapeWithPuppeteer]: the description of the
    main item. *)
Definition mainItemDescription (content : jsstring) : jsstring :=
  match content with
  | [] => u "No Content Found"
  | _ :: _ =>
      if (200 <? List.length content)%nat
      then substring0 200 content ++ u "..."
      else content
  end.

(** [example_scraper.ts], [scrapeWithCheerio]: the text read is replaced
    by a default when it is empty, then truncated. *)
Definition mainItemDescriptionCheerio (text : jsstring) : jsstring :=
  let content := orElse (Some text) (u "No Content Found") in
  if (200 <? List.length content)%nat
  then substring0 200 content ++ u "..."
  else content.

(** [product_scraper.js], both scrape methods: the short description. *)
Definition shortDescription (description : jsstring) : jsstring :=
  if (200 <? List.length description)%nat
  then trim (substring0 200 description) ++ u "..."
  else description.

(** * Vocabulary of the properties *)

Module Terms.

(** The words of a pattern. *)
Fixpoint lang (r : regex) (w : jsstring) : Prop :=
  match r with
  | Eps => w = []
  | Chr p => exists c, w = [c] /\ p c = true
  | Cat a b => exists w1 w2, w = w1 ++ w2 /\ lang a w1 /\ lang b w2
  | Alt a b => lang a w \/ lang b w
  | Opt a => lang a w \/ w = []
  | Star p => forallb p w = true
  | Grp _ a => lang a w
  end.

(** [groupOf r i a]: the group [(a)] with index [i] occurs in [r]. *)
Inductive groupOf : regex -> nat -> regex -> Prop :=
| groupHere i a : groupOf (Grp i a) i a
| groupIn i a j b : groupOf a j b -> groupOf (Grp i a) j b
| groupCatL a b j c : groupOf a j c -> groupOf (Cat a b) j c
| groupCatR a b j c : groupOf b j c -> groupOf (Cat a b) j c
| groupAltL a b j c : groupOf a j c -> groupOf (Alt a b) j c
| groupAltR a b j c : groupOf b j c -> groupOf (Alt a b) j c
| groupOpt a j c : groupOf a j c -> groupOf (Opt a) j c.

(** Every alternative of [r] binds group [i]. *)
Fixpoint binds (r : regex) (i : nat) : bool :=
  match r with
  | Grp j a => Nat.eqb i j || binds a i
  | Cat a b => binds a i || binds b i
  | Alt a b => binds a i && binds b i
  | _ => false
  end.

(** The words of [[0-9,]+(\.[0-9]{2})?]: a non-empty run of digits and
    commas, then possibly a point and two digits. *)
Definition amountShape (w : jsstring) : Prop :=
  exists a f,
    w = a ++ f /\ a <> [] /\ forallb isAmountUnit a = true /\
    (f = [] \/
     exists d1 d2, f = [ch "."; d1; d2] /\
                   isDigit d1 = true /\ isDigit d2 = true).

(** The numeric value of a captured amount: commas dropped, then
    [parseFloat]. *)
Definition tokenValue (w : jsstring) : number :=
  parseFloat (filter (fun c => negb (c =? ch ",")) w).

(** The price computed by the [try] block, written without the exception
    monad. *)
Definition priceOf (cleanText : jsstring) (currencySymbol : option jsstring)
  : Price :=
  let hasDiscount := hasDiscountOf cleanText in
  let st :=
    match exec priceRe cleanText with
    | Some priceMatch =>
        (tokenValue (tpl (group 2 priceMatch)),
         getCurrencyCode (tpl (group 1 priceMatch)),
         tpl (group 1 priceMatch) ++ tpl (group 2 priceMatch))
    | None =>
        match exec numericRe cleanText with
        | Some numericMatch =>
            (tokenValue (tpl (group 1 numericMatch)),
             orElse currencySymbol (u "USD"),
             orElse currencySymbol (u "$") ++ tpl (group 1 numericMatch))
        | None => (Num 0, orElse currencySymbol (u "USD"), cleanText)
        end
    end in
  match (if hasDiscount then exec originalRe cleanText else None) with
  | Some originalMatch =>
      let price1 := tokenValue (tpl (group 2 originalMatch)) in
      let price2 := tokenValue (tpl (group 5 originalMatch)) in
      let first := tpl (group 1 originalMatch) ++ tpl (group 2 originalMatch) in
      let second := tpl (group 4 originalMatch) ++ tpl (group 5 originalMatch) in
      let sel :=
        if gt price1 price2
        then (price1, first, price2, second)
        else (price2, second, price1, first) in
      let originalAmount2 := fst (fst (fst sel)) in
      let amount2 := snd (fst sel) in
      mkPrice amount2 (snd (fst st)) (snd sel) hasDiscount
              (Some originalAmount2) (Some (snd (fst (fst sel))))
              (if gt originalAmount2 (Num 0)
               then Some (Double.percentage originalAmount2 amount2)
               else None)
  | None =>
      mkPrice (fst (fst st)) (snd (fst st)) (snd st) hasDiscount
              None None None
  end.

(** [x] is the first element of [l]: the alternative a backtracking
    matcher settles on when nothing after it fails. *)
Definition heads {A : Type} (l : list A) (x : A) : Prop :=
  exists tl, l = x :: tl.

(** [p] does not hold of the first unit of [s], if any. *)
Definition stops (p : N -> bool) (s : jsstring) : Prop :=
  match s with
  | [] => True
  | d :: _ => p d = false
  end.

(** A symbol, white space and an amount: the pattern of [priceRe], and
    with other capture indices the second half of [originalRe]. *)
Definition tokenRe (i j k : nat) : regex :=
  Cat (Grp i (Chr isSymbol)) (Cat (Star isSpace) (amountRe j k)).

(** An amount that stops before [rest] cannot be extended into it: [rest]
    does not begin with a digit, a comma or a point. *)
Definition endsAmount (rest : jsstring) : Prop :=
  stops (fun c => isAmountUnit c || (ch "." =? c)) rest.

(** The value of a run of digits, and the dollar sign. *)
Definition digitsValue (d : jsstring) : Q := Z.of_N (decimal d) # 1.

Definition dollar : N := ch "$".

(** No digit and no comma. *)
Definition noAmountUnit (s : jsstring) : bool :=
  forallb (fun c => negb (isAmountUnit c)) s.

(** [[0-5]]. *)
Definition lit05 : N -> bool := range (ch "0") (ch "5").

(** The numeric literal found by [parseRating], if any, begins with one
    of the digits 0 to 5. *)
Definition literalInRange (ratingText : jsstring) : bool :=
  match exec ratingRe ratingText with
  | Some numericMatch =>
      match tpl (group 1 numericMatch) with
      | d :: _ => lit05 d
      | [] => false
      end
  | None => true
  end.

(** A point followed by a digit. *)
Definition pointDigit (t : jsstring) : bool :=
  match t with
  | p :: e :: _ => (ch "." =? p) && isDigit e
  | _ => false
  end.

(** Capture [i] of a match, as text. *)
Definition literalOf (m : option result) (i : nat) : option jsstring :=
  option_map (fun r => tpl (group i r)) m.

End Terms.
Import Terms.


(** * The other extraction helpers of the product scraper

    The helpers below run inside the page.  What they read from the
    document (the text of an element, an attribute, the number of elements
    a selector finds) is taken as given: each helper is embedded as the
    function of these readings that its body computes. *)

(** ** Numbers read from attributes and free text *)

Module Float.

(** A JavaScript number with its infinities. *)
Inductive jsnum : Type :=
| Finite (q : Q)
| Infinity (positive : bool)
| NotNumber.

Definition isNaN (a : jsnum) : bool :=
  match a with
  | NotNumber => true
  | _ => false
  end.

(** [a === 0]. *)
Definition isZero (a : jsnum) : bool :=
  match a with
  | Finite q => Qeq_bool q 0
  | _ => false
  end.

(** [Math.min] and [Math.max] of two numbers. *)
Definition fmin (a b : jsnum) : jsnum :=
  match a, b with
  | NotNumber, _ | _, NotNumber => NotNumber
  | Infinity false, _ | _, Infinity false => Infinity false
  | Infinity true, x | x, Infinity true => x
  | Finite x, Finite y => Finite (if Qle_bool x y then x else y)
  end.

Definition fmax (a b : jsnum) : jsnum :=
  match a, b with
  | NotNumber, _ | _, NotNumber => NotNumber
  | Infinity true, _ | _, Infinity true => Infinity true
  | Infinity false, x | x, Infinity false => x
  | Finite x, Finite y => Finite (if Qle_bool x y then y else x)
  end.

(** [a + b]; the sum of opposite infinities is NaN. *)
Definition fadd (a b : jsnum) : jsnum :=
  match a, b with
  | NotNumber, _ | _, NotNumber => NotNumber
  | Infinity s, Infinity s' => if Bool.eqb s s' then Infinity s else NotNumber
  | Infinity s, _ | _, Infinity s => Infinity s
  | Finite x, Finite y => Finite (x + y)%Q
  end.

(** [a / n] for a count [n > 0]. *)
Definition fdivNat (a : jsnum) (n : nat) : jsnum :=
  match a with
  | Finite x => Finite (x / inject_Z (Z.of_nat n))%Q
  | other => other
  end.

(** An optional sign. *)
Definition signOf (s : jsstring) : bool * jsstring :=
  match s with
  | c :: t =>
      if c =? ch "-" then (true, t)
      else if c =? ch "+" then (false, t)
      else (false, s)
  | [] => (false, [])
  end.

(** The value of an exponent part at the head of [s]; 0 when there is
    none or when it has no digit. *)
Definition exponent (s : jsstring) : Z :=
  match s with
  | c :: t =>
      if (c =? ch "e") || (c =? ch "E")
      then
        let '(negative, t') := signOf t in
        match fst (span isDigit t') with
        | [] => 0%Z
        | ds => if negative then (- Z.of_N (decimal ds))%Z
                else Z.of_N (decimal ds)
        end
      else 0%Z
  | [] => 0%Z
  end.

(** Ten to the power [z]. *)
Definition tenTo (z : Z) : Q :=
  if (z <? 0)%Z then 1 # Z.to_pos (10 ^ (- z)) else inject_Z (10 ^ z).

(** [parseFloat] in full: leading white space is skipped, then the longest
    prefix that is a decimal literal (sign, [Infinity], digits, point,
    exponent) is read; NaN when there is none. *)
Definition parseFloatFull (s : jsstring) : jsnum :=
  let '(negative, t) := signOf (trimStart s) in
  if startsWith t (u "Infinity") then Infinity (negb negative)
  else
    let '(i, r) := span isDigit t in
    let '(f, r') :=
      match r with
      | c :: r1 => if c =? ch "." then span isDigit r1 else ([], r)
      | [] => ([], [])
      end in
    match i ++ f with
    | [] => NotNumber
    | ds =>
        let v := ((Z.of_N (decimal ds) # Z.to_pos (10 ^ Z.of_nat (List.length f)))
                  * tenTo (exponent r'))%Q in
        Finite (if negative then (- v)%Q else v)
    end.

(** [s.split(sep)[0]] for a one-unit separator. *)
Fixpoint beforeFirst (sep : N) (s : jsstring) : jsstring :=
  match s with
  | c :: t => if c =? sep then [] else c :: beforeFirst sep t
  | [] => []
  end.

(** [s.replace(/[^\d]/g, '')]. *)
Definition digitsOnly (s : jsstring) : jsstring := filter isDigit s.

End Float.

(** ** Review and page ratings *)

Module Reviews.

Import Float.

(** [/[0-5](\.[0-9])?\/5/] and [/[0-9](\.[0-9])?/], used as tests. *)
Definition outOfFiveRe : regex :=
  Cat (Chr (range (ch "0") (ch "5")))
      (Cat (Opt (Grp 1 (Cat (Chr (N.eqb (ch "."))) (Chr isDigit))))
           (Cat (Chr (N.eqb (ch "/"))) (Chr (N.eqb (ch "5"))))).

Definition simpleNumberRe : regex :=
  Cat (Chr isDigit) (Opt (Grp 1 (Cat (Chr (N.eqb (ch "."))) (Chr isDigit)))).

(** [/\d+/] *)
Definition countRe : regex := Plus isDigit.

(** [/([1-5])\s+star/i] *)
Definition starLabelRe : regex :=
  Cat (Grp 1 (Chr (range (ch "1") (ch "5"))))
      (Cat (Plus isSpace) (lit ci (u "star"))).

Definition matches (r : regex) (s : jsstring) : bool :=
  match exec r s with
  | Some _ => true
  | None => false
  end.

(** What the rating code reads from a rating element: its trimmed text
    ([textContent?.trim() || '']), the attribute value
    ([getAttribute(..) || '']) and three element counts. *)
Record RatingElement : Type := mkRatingElement {
  ratingText : jsstring;
  ratingValue : jsstring;
  fullStarCount : nat;
  halfStarCount : nat;
  starCount : nat
}.

Definition half : Q := 1 # 2.

(** The rating read from an element, before any clamping: the chain of
    tests shared by [extractReviews] and [extractRating], starting from
    the initial value 0. *)
Definition elementRating (e : RatingElement) : jsnum :=
  if negb (eqs (ratingValue e) []) && negb (isNaN (parseFloatFull (ratingValue e)))
  then parseFloatFull (ratingValue e)
  else if matches outOfFiveRe (ratingText e)
  then parseFloatFull (beforeFirst (ch "/") (ratingText e))
  else if matches simpleNumberRe (ratingText e)
  then parseFloatFull (ratingText e)
  else
    let totalStars := match starCount e with O => 5%nat | n => n end in
    if ((0 <? fullStarCount e) || (0 <? halfStarCount e))%nat
    then Finite ((inject_Z (Z.of_nat (fullStarCount e))
                  + inject_Z (Z.of_nat (halfStarCount e)) * half)
                 / (inject_Z (Z.of_nat totalStars) / 5))%Q
    else Finite 0.

(** [Math.max(0, Math.min(5, rating))]. *)
Definition clamp (rating : jsnum) : jsnum :=
  fmax (Finite 0) (fmin (Finite 5) rating).

(** What [extractReviews] reads from one review element; a text is
    [None] when the element is missing. *)
Record ReviewElement : Type := mkReviewElement {
  authorText : option jsstring;
  dateText : option jsstring;
  titleText : option jsstring;
  bodyText : option jsstring;
  ratingElement : option RatingElement;
  helpfulText : option jsstring
}.

Record Review : Type := mkReview {
  author : jsstring;
  rating : jsnum;
  date : jsstring;
  title : option jsstring;
  text : jsstring;
  helpful : option number
}.

(** One iteration of the loop of [extractReviews]; [today] is the date
    part of the current time. *)
Definition reviewOf (today : jsstring) (r : ReviewElement) : Review :=
  let rating :=
    match ratingElement r with
    | Some e => elementRating e
    | None => Finite 0
    end in
  mkReview (orElse (option_map trim (authorText r)) (u "Anonymous"))
           (clamp rating)
           (orElse (option_map trim (dateText r)) today)
           (option_map trim (titleText r))
           (orElse (option_map trim (bodyText r)) [])
           (option_map (fun t => parseInt (orElse (Some (digitsOnly t)) (u "0")))
                       (helpfulText r)).

(** [Array.from(a).slice(0, end)] for an integer [end]: a negative end
    counts from the end of the array. *)
Definition slice0 {A : Type} (stop : Z) (a : list A) : list A :=
  if (stop <? 0)%Z
  then firstn (List.length a - Z.to_nat (- stop)) a
  else firstn (Z.to_nat stop) a.

(** [extractReviews]; [reviewElements] is [None] when the evaluation in
    the page throws, which the helper answers with the empty list. *)
Definition extractReviews (today : jsstring)
  (reviewElements : option (list ReviewElement)) (maxReviews : Z)
  : list Review :=
  match reviewElements with
  | Some elements => map (reviewOf today) (slice0 maxReviews elements)
  | None => []
  end.

(** [n || d] on an optional count: 0 and [undefined] give the default. *)
Definition orCount (n : option Z) (d : Z) : Z :=
  match n with
  | Some z => if (z =? 0)%Z then d else z
  | None => d
  end.

(** The rating distribution: an object keyed by the digits 1 to 5, whose
    keys are therefore enumerated in increasing order. *)
Fixpoint setStar (k : N) (v : number) (o : list (N * number))
  : list (N * number) :=
  match o with
  | [] => [(k, v)]
  | (k', v') :: o' =>
      if k =? k' then (k, v) :: o'
      else if k <? k' then (k, v) :: (k', v') :: o'
      else (k', v') :: setStar k v o'
  end.

(** One row of the distribution: the label and the count text
    ([textContent?.trim() || '']). *)
Definition distributionRow (o : list (N * number)) (row : jsstring * jsstring)
  : list (N * number) :=
  match exec starLabelRe (fst row), exec countRe (snd row) with
  | Some starMatch, Some countMatch =>
      match tpl (group 1 starMatch) with
      | [k] => setStar k (parseInt (tpl (group 0 countMatch))) o
      | _ => o
      end
  | _, _ => o
  end.

Record RatingData : Type := mkRatingData {
  average : jsnum;
  count : number;
  distribution : option (list (N * number))
}.

(** The function evaluated in the page by [extractRating]: the rating
    element if any, the trimmed text of the count element if any, and the
    rows of the distribution. *)
Definition pageRating (ratingElement : option RatingElement)
  (countText : option jsstring) (rows : list (jsstring * jsstring))
  : RatingData :=
  let average :=
    match ratingElement with
    | Some e => elementRating e
    | None => Finite 0
    end in
  let count :=
    match countText with
    | Some t =>
        match exec countRe t with
        | Some countMatch => parseInt (tpl (group 0 countMatch))
        | None => Num 0
        end
    | None => Num 0
    end in
  let distribution := fold_left distributionRow rows [] in
  mkRatingData average count
               (match distribution with [] => None | _ => Some distribution end).

(** [reviews.reduce((sum, review) => sum + review.rating, 0)]. *)
Definition totalRating (reviews : list Review) : jsnum :=
  fold_left (fun sum review => fadd sum (rating review)) reviews (Finite 0).

Definition countIsZero (n : number) : bool :=
  match n with
  | Num q => Qeq_bool q 0
  | NaN => false
  end.

(** [extractRating]; [page] is [None] when the evaluation in the page
    throws. *)
Definition extractRating (page : option RatingData) (reviews : list Review)
  : RatingData :=
  let n := List.length reviews in
  match page with
  | Some ratingData =>
      let average1 :=
        if isZero (average ratingData) && (0 <? n)%nat
        then fdivNat (totalRating reviews) n
        else average ratingData in
      let count1 :=
        if countIsZero (count ratingData) && (0 <? n)%nat
        then Num (inject_Z (Z.of_nat n))
        else count ratingData in
      mkRatingData average1 count1 (distribution ratingData)
  | None =>
      if (0 <? n)%nat
      then mkRatingData (fdivNat (totalRating reviews) n)
                        (Num (inject_Z (Z.of_nat n))) None
      else mkRatingData (Finite 0) (Num 0) None
  end.

(** The review count of [scrapeWithCheerio]:
    [parseInt(text.replace(/[^\d]/g, '') || '0')]. *)
Definition ratingCountCheerio (countText : jsstring) : number :=
  parseInt (orElse (Some (digitsOnly countText)) (u "0")).

(** The count of the rating of [scrapeWithCheerio]:
    [ratingCount || reviews.length], 0 and NaN being falsy. *)
Definition cheerioCount (countText : jsstring) (reviews : list Review)
  : number :=
  let ratingCount := ratingCountCheerio countText in
  match ratingCount with
  | Num q =>
      if Qeq_bool q 0 then Num (inject_Z (Z.of_nat (List.length reviews)))
      else ratingCount
  | NaN => Num (inject_Z (Z.of_nat (List.length reviews)))
  end.

End Reviews.


(** ** Global replacement *)

Module Replace.

(** The leftmost match of [r] in [s]: what precedes it, the match and
    what follows. *)
Fixpoint find (r : regex) (s : jsstring)
  : option (jsstring * result * jsstring) :=
  match run r s with
  | (w, k, rest) :: _ => Some ([], (w, k), rest)
  | [] =>
      match s with
      | [] => None
      | c :: t =>
          match find r t with
          | Some (before, m, rest) => Some (c :: before, m, rest)
          | None => None
          end
      end
  end.

(** [s.replace(r, f)] for a pattern with the [g] flag: every match is
    replaced, the search resuming after it (one unit further after an
    empty match).  Each step consumes a unit, so [length s + 1] steps are
    enough. *)
Fixpoint replaceLoop (steps : nat) (r : regex) (f : result -> jsstring)
  (s : jsstring) : jsstring :=
  match steps with
  | O => s
  | S n =>
      match find r s with
      | None => s
      | Some (before, m, rest) =>
          before ++ f m ++
          match fst m, rest with
          | [], c :: t => c :: replaceLoop n r f t
          | [], [] => []
          | _ :: _, _ => replaceLoop n r f rest
          end
      end
  end.

Definition replaceAll (r : regex) (f : result -> jsstring) (s : jsstring)
  : jsstring :=
  replaceLoop (S (List.length s)) r f s.

End Replace.

(** ** Images and related products *)

Module Gallery.

Import Float Reviews Replace.

Definition quoteMark (c : N) : bool := (c =? ch "'") || (c =? 34).

(** [/url\(Q?(N+)Q?\)/gi], where [Q] is the class of the single and the
    double quotation mark and [N] its complement. *)
Definition urlRe : regex :=
  Cat (lit ci (u "url("))
      (Cat (Opt (Chr quoteMark))
           (Cat (Grp 1 (Plus (fun c => negb (quoteMark c))))
                (Cat (Opt (Chr quoteMark)) (Chr (N.eqb (ch ")")))))).

(** [bgImage.replace(urlRe, '$1')] *)
Definition backgroundUrl (bgImage : jsstring) : jsstring :=
  replaceAll urlRe (fun m => tpl (group 1 m)) bgImage.

(** What [extractImages] reads from one element the selector finds: its
    tag, its own [src], [alt] and [dataset.thumbnail], the same three
    readings of the first [img] inside it, its computed background image
    and two attributes. *)
Record ImgReadings : Type := mkImgReadings {
  src : option jsstring;
  alt : option jsstring;
  thumbnail : option jsstring
}.

Record Element : Type := mkElement {
  tagIsImg : bool;
  own : ImgReadings;
  innerImg : option ImgReadings;
  backgroundImage : jsstring;
  titleAttr : option jsstring;
  ariaLabel : option jsstring
}.

Record Image : Type := mkImage {
  url : option jsstring;
  altText : jsstring;
  isMain : bool;
  thumbnailUrl : option jsstring;
  position : nat
}.

Definition imageOfImg (i : ImgReadings) (index : nat) : Image :=
  mkImage (src i) (orElse (alt i) []) (Nat.eqb index 0) (thumbnail i) index.

(** The body of the second loop: an [img] inside the container, or else
    its background image. *)
Definition imageOfContainer (container : Element) (index : nat)
  : option Image :=
  match innerImg container with
  | Some i => Some (imageOfImg i index)
  | None =>
      let bgImage := backgroundImage container in
      if negb (eqs bgImage []) && negb (eqs bgImage (u "none"))
      then Some (mkImage (Some (backgroundUrl bgImage))
                         (orElse (titleAttr container)
                                 (orElse (ariaLabel container) []))
                         (Nat.eqb index 0) None index)
      else None
  end.

(** [forEach((x, index) => ...)] pushing at most one value per element. *)
Fixpoint forEachIndexed {A B : Type} (f : A -> nat -> option B)
  (index : nat) (a : list A) : list B :=
  match a with
  | [] => []
  | x :: a' =>
      match f x index with
      | Some y => y :: forEachIndexed f (S index) a'
      | None => forEachIndexed f (S index) a'
      end
  end.

(** [extractImages]; [imageElements] is [None] when the evaluation in the
    page throws. *)
Definition extractImages (imageElements : option (list Element))
  (maxImages : Z) : list Image :=
  match imageElements with
  | None => []
  | Some elements =>
      let firstIsImg :=
        match elements with
        | e :: _ => tagIsImg e
        | [] => false
        end in
      if firstIsImg
      then forEachIndexed (fun e index => Some (imageOfImg (own e) index)) 0
                          (slice0 maxImages elements)
      else forEachIndexed imageOfContainer 0 (slice0 maxImages elements)
  end.

(** What [extractRelatedProducts] reads from one product element. *)
Record RelatedElement : Type := mkRelatedElement {
  linkHref : option jsstring;
  linkTitle : option jsstring;
  titleText : option jsstring;
  priceText : option jsstring;
  imageSrc : option jsstring
}.

Record RelatedProduct : Type := mkRelatedProduct {
  relatedTitle : jsstring;
  relatedUrl : jsstring;
  relatedPrice : option jsstring;
  relatedImage : option jsstring
}.

Definition relatedOf (product : RelatedElement) : option RelatedProduct :=
  let title := orElse (option_map trim (titleText product))
                      (orElse (linkTitle product) (u "Related Product")) in
  let url := orElse (linkHref product) [] in
  if negb (eqs title []) && negb (eqs url [])
  then Some (mkRelatedProduct title url (option_map trim (priceText product))
                              (imageSrc product))
  else None.

Definition extractRelatedProducts (productElements : option (list RelatedElement))
  (maxProducts : Z) : list RelatedProduct :=
  match productElements with
  | None => []
  | Some elements =>
      forEachIndexed (fun p _ => relatedOf p) 0 (slice0 maxProducts elements)
  end.

End Gallery.

(** ** Variants *)

Module Variants.

Record OptionElement : Type := mkOptionElement {
  optionValue : jsstring;
  optionDisabled : bool;
  optionText : option jsstring;
  optionPrice : option jsstring;
  optionSku : option jsstring
}.

Record SelectElement : Type := mkSelectElement {
  selectName : option jsstring;
  selectId : option jsstring;
  selectLabel : option jsstring;
  options : list OptionElement
}.

(** A radio button or check box.  [label] is what the query for the
    label that points at its id gives: [None] when the selector built from
    the id is not a valid one and the query throws, [Some None] when no
    label is found, else the text of the label. *)
Record InputElement : Type := mkInputElement {
  inputName : jsstring;
  inputValue : jsstring;
  inputDisabled : bool;
  inputSku : option jsstring;
  label : option (option jsstring)
}.

Record SwatchElement : Type := mkSwatchElement {
  swatchTitle : option jsstring;
  swatchValue : option jsstring;
  swatchText : option jsstring;
  classDisabled : bool;
  classSoldOut : bool;
  attrDisabled : bool;
  swatchSku : option jsstring
}.

Record Variant : Type := mkVariant {
  name : jsstring;
  value : jsstring;
  price : option jsstring;
  available : bool;
  sku : option jsstring
}.

(** The variants of one [select]: its options that have a value and are
    not disabled. *)
Definition selectVariants (select : SelectElement) : list Variant :=
  let variantName :=
    orElse (selectName select)
           (orElse (selectId select)
                   (orElse (selectLabel select) (u "Option"))) in
  flat_map
    (fun option =>
       if negb (eqs (optionValue option) []) && negb (optionDisabled option)
       then [mkVariant variantName
                       (orElse (option_map trim (optionText option))
                               (optionValue option))
                       (optionPrice option)
                       (negb (optionDisabled option))
                       (optionSku option)]
       else [])
    (options select).

(** The names every object inherits from [Object.prototype]: looked up in
    the empty object [{}], they give a value that is not undefined. *)
Definition inheritedNames : list jsstring :=
  [ u "constructor"; u "__defineGetter__"; u "__defineSetter__";
    u "hasOwnProperty"; u "__lookupGetter__"; u "__lookupSetter__";
    u "isPrototypeOf"; u "propertyIsEnumerable"; u "toString"; u "valueOf";
    u "__proto__"; u "toLocaleString" ].

(** The integer a property key stands for, when it is an array index: a
    canonical numeral below [2^32 - 1].  Such keys are enumerated first,
    in increasing order, the other keys after them in insertion order. *)
Definition arrayIndex (k : jsstring) : option N :=
  match k with
  | [] => None
  | c :: t =>
      if forallb isDigit k && (negb (c =? ch "0") || eqs t [])
         && (decimal k <? 4294967295)
      then Some (decimal k)
      else None
  end.

Definition groups : Type := list (jsstring * list InputElement).

Definition hasKey (k : jsstring) (g : groups) : bool :=
  existsb (fun e => eqs k (fst e)) g.

(** [groupedInputs[k].push(x)] for a key the object has. *)
Fixpoint pushTo (k : jsstring) (x : InputElement) (g : groups) : groups :=
  match g with
  | [] => []
  | (k', xs) :: g' =>
      if eqs k k' then (k', xs ++ [x]) :: g' else (k', xs) :: pushTo k x g'
  end.

(** [k] is enumerated before [k']. *)
Definition enumeratedBefore (k k' : jsstring) : bool :=
  match arrayIndex k, arrayIndex k' with
  | Some n, Some n' => n <? n'
  | Some _, None => true
  | None, _ => false
  end.

(** [groupedInputs[k] = v] for a key the object does not have. *)
Fixpoint addKey (k : jsstring) (v : list InputElement) (g : groups) : groups :=
  match g with
  | [] => [(k, v)]
  | (k', xs) :: g' =>
      if enumeratedBefore k k' then (k, v) :: (k', xs) :: g'
      else (k', xs) :: addKey k v g'
  end.

(** One step of the grouping loop; [None] is the TypeError raised when
    the name is inherited: the lookup then finds a value without [push]. *)
Definition groupInput (g : option groups) (input : InputElement)
  : option groups :=
  match g with
  | None => None
  | Some g =>
      let k := inputName input in
      if hasKey k g then Some (pushTo k input g)
      else if existsb (eqs k) inheritedNames then None
      else Some (pushTo k input (addKey k [] g))
  end.

(** The body of the loop over the grouped inputs; [None] when the query
    for the label throws. *)
Definition inputVariant (k : jsstring) (input : InputElement)
  : option Variant :=
  match label input with
  | Some labelText =>
      Some (mkVariant k
                      (orElse (option_map trim labelText) (inputValue input))
                      None (negb (inputDisabled input)) (inputSku input))
  | None => None
  end.

(** The values of a list of computations, unless one of them throws. *)
Fixpoint collect {A : Type} (l : list (option A)) : option (list A) :=
  match l with
  | [] => Some []
  | Some x :: l' =>
      match collect l' with
      | Some xs => Some (x :: xs)
      | None => None
      end
  | None :: _ => None
  end.

Definition swatchVariant (variantName : jsstring) (swatch : SwatchElement)
  : Variant :=
  mkVariant variantName
            (orElse (swatchTitle swatch)
                    (orElse (swatchValue swatch)
                            (orElse (option_map trim (swatchText swatch)) [])))
            None
            (negb (classDisabled swatch) && negb (classSoldOut swatch)
             && negb (attrDisabled swatch))
            (swatchSku swatch).

(** What the function evaluated by [extractVariants] reads: the selects,
    the radio buttons and check boxes, the swatches, and the trimmed text
    of the label found beside the first swatch. *)
Record VariantReadings : Type := mkVariantReadings {
  selectElements : list SelectElement;
  inputElements : list InputElement;
  swatchElements : list SwatchElement;
  swatchLabel : option jsstring
}.

(** The function evaluated in the page; [None] when it throws. *)
Definition pageVariants (d : VariantReadings) : option (list Variant) :=
  match fold_left groupInput (inputElements d) (Some []) with
  | None => None
  | Some groupedInputs =>
      match collect (flat_map (fun e => map (inputVariant (fst e)) (snd e))
                              groupedInputs) with
      | None => None
      | Some inputVariants =>
          Some (flat_map selectVariants (selectElements d)
                ++ inputVariants
                ++ map (swatchVariant (orElse (swatchLabel d) (u "Option")))
                       (swatchElements d))
      end
  end.

(** [extractVariants]; [page] is [None] when the document cannot be
    read. *)
Definition extractVariants (page : option VariantReadings) : list Variant :=
  match page with
  | Some d =>
      match pageVariants d with
      | Some variants => variants
      | None => []
      end
  | None => []
  end.

End Variants.

(** ** The exports *)

Module Exports.

Fixpoint join (sep : jsstring) (parts : list jsstring) : jsstring :=
  match parts with
  | [] => []
  | [x] => x
  | x :: rest => x ++ sep ++ join sep rest
  end.

Definition comma : N := ch ",".
Definition backslash : N := 92.
Definition newline : N := 10.





(** The escaping of [saveData] in the example scraper: a backslash is put
    before every comma. *)
Definition escapeCommas (s : jsstring) : jsstring :=
  flat_map (fun c => if c =? comma then [backslash; comma] else [c]) s.

Record Item : Type := mkItem {
  title : jsstring;
  url : jsstring;
  description : jsstring;
  timestamp : jsstring;
  tags : list jsstring;
  source : jsstring;
  author : jsstring;
  published_date : jsstring
}.

Definition itemLine (item : Item) : jsstring :=
  escapeCommas (title item) ++ [comma] ++ url item ++ [comma]
  ++ escapeCommas (description item).

(** The content of [items_export.csv]. *)
Definition csvContent (items : list Item) : jsstring :=
  join [newline] (u "Title,URL,Description" :: map itemLine items).

End Exports.

(** ** Readers for the exports

    The scrapers only write their exports.  The two readers below are the
    reference against which the written lines are checked: a reader of a
    line of quoted fields in which a quotation mark is written twice, and
    a reader of a line in which a backslash before a comma makes the comma
    part of the field. *)

Module Readers.

Import Exports.




(** The lines of a text, cut at every line feed. *)
Fixpoint splitLines (line : jsstring) (s : jsstring) : list jsstring :=
  match s with
  | [] => [line]
  | c :: t =>
      if c =? newline then line :: splitLines [] t
      else splitLines (line ++ [c]) t
  end.

Definition lines (s : jsstring) : list jsstring := splitLines [] s.

(** The fields of a line with escaped commas. *)
Fixpoint readEscaped (field : jsstring) (s : jsstring) : list jsstring :=
  match s with
  | [] => [field]
  | c :: t =>
      if c =? backslash
      then
        match t with
        | d :: t' =>
            if d =? comma then readEscaped (field ++ [comma]) t'
            else readEscaped (field ++ [backslash]) t
        | [] => [field ++ [backslash]]
        end
      else if c =? comma then field :: readEscaped [] t
      else readEscaped (field ++ [c]) t
  end.

End Readers.

(** * The scrape methods and [run]

    What lies outside the program (the page, the file system, the clock)
    is an argument of the embedding: a page is the record of what the
    method reads from it, [None] when loading it throws, and a flag tells
    whether a write to the file system throws.  The configuration is
    taken as its type describes it: the selectors are present, and a limit
    that is given is an integer.  The statistics are threaded through the
    calls as the methods update them; the two time stamps they carry are
    left out. *)

(** ** The example scraper *)

Module Example.

Import Float Reviews Exports.

Record LinkElement : Type := mkLinkElement {
  href : option jsstring;
  linkText : jsstring
}.

Record Link : Type := mkLink {
  linkUrl : jsstring;
  text : jsstring
}.

(** What [scrapeWithPuppeteer] reads in the page the browser renders: the
    length of [page.content()], the text content of the first element
    matched by the title selector and by the content selector ([None]
    when there is none), the link elements and the origin of the window. *)
Record Page : Type := mkPage {
  size : nat;
  firstTitle : option jsstring;
  firstContent : option jsstring;
  linkElements : list LinkElement;
  origin : jsstring
}.

(** What [scrapeWithCheerio] reads in the response of its request, a
    text: the length of [response.data], the combined text of all the
    elements matched by the title selector and by the content selector,
    and the link elements. *)
Record Response : Type := mkResponse {
  dataLength : nat;
  titleText : jsstring;
  contentText : jsstring;
  responseLinks : list LinkElement
}.

(** How far the [try] block of [scrapeWithPuppeteer] gets: where it
    throws, or the page it reads to its end. *)
Inductive Session : Type :=
| LaunchFails
  (** [puppeteer.launch] throws: there is no browser to close *)
| LoadFails
  (** [newPage], [setUserAgent] or [goto] throws *)
| ContentFails
  (** [page.content()] throws, the page already counted as visited *)
| EvaluateFails (bytes : nat)
  (** [page.evaluate] throws on a selector, the bytes already counted *)
| Loaded (page : Page).

(** How far the [try] block of [scrapeWithCheerio] gets: where it
    throws, or the response it reads to its end. *)
Inductive Fetch : Type :=
| RequestFails
  (** [axios.get] throws *)
| ParseFails (bytes : nat)
  (** [cheerio.load] or a selector throws, the response already counted *)
| Fetched (response : Response).

Record Options : Type := mkOptions {
  maxLinks : option Z;
  headless : option bool
}.

Record Config : Type := mkConfig {
  configUrl : option jsstring;
  options : option Options
}.

Record Stats : Type := mkStats {
  pages_visited : nat;
  items_scraped : nat;
  errors : nat;
  bytes_downloaded : nat
}.

Definition initialStats : Stats := mkStats 0 0 0 0.

Definition visited (n : nat) (s : Stats) : Stats :=
  mkStats (S (pages_visited s)) (items_scraped s) (errors s)
          (bytes_downloaded s + n).

(** [pages_visited++] alone. *)
Definition entered (s : Stats) : Stats :=
  mkStats (S (pages_visited s)) (items_scraped s) (errors s)
          (bytes_downloaded s).

Definition scraped (n : nat) (s : Stats) : Stats :=
  mkStats (pages_visited s) (items_scraped s + n) (errors s)
          (bytes_downloaded s).

Definition failed (s : Stats) : Stats :=
  mkStats (pages_visited s) (items_scraped s) (S (errors s))
          (bytes_downloaded s).

Definition targetUrl (config : Config) : jsstring :=
  orElse (configUrl config) (u "https://example.com").

(** [options.maxLinks || 5], for an integer [maxLinks]. *)
Definition linkLimit (config : Config) : Z :=
  match options config with
  | Some o => orCount (maxLinks o) 5
  | None => 5
  end.

Section Scrape.

(** [new URL(href, base).toString()]: [None] when the constructor
    throws. *)
Variable resolve : jsstring -> jsstring -> option jsstring.

(** The readings of the clock ([new Date().toISOString()]) made while the
    items are built, in order. *)
Variable clock : nat -> jsstring.

(** The loop over the link elements; [None] when an address cannot be
    resolved, which throws. *)
Fixpoint extractLinks (base : jsstring) (elements : list LinkElement)
  : option (list Link) :=
  match elements with
  | [] => Some []
  | link :: rest =>
      match href link with
      | Some (c :: h) =>
          if startsWith (c :: h) (u "#") then extractLinks base rest
          else
            match (if startsWith (c :: h) (u "http") then Some (c :: h)
                   else resolve (c :: h) base) with
            | Some address =>
                match extractLinks base rest with
                | Some links =>
                    Some (mkLink address (trim (linkText link)) :: links)
                | None => None
                end
            | None => None
            end
      | _ => extractLinks base rest
      end
  end.

Definition isoDate (now : jsstring) : jsstring := beforeFirst (ch "T") now.

Definition mainItem (title description target engine : jsstring) : Item :=
  mkItem title target description (clock 0)
         [u "example"; u "typescript"; engine]
         (u "example_ts_scraper") (u "Automated TS Scraper")
         (isoDate (clock 1)).

(** The loop over the links kept; [tick] counts the readings of the clock
    made so far. *)
Fixpoint linkItems (tick : nat) (target : jsstring) (links : list Link)
  : list Item :=
  match links with
  | [] => []
  | link :: rest =>
      mkItem (orElse (Some (text link)) (u "Link without text"))
             (linkUrl link)
             (u "Link found on " ++ target)
             (clock tick)
             [u "link"; u "reference"; u "typescript"]
             (u "example_ts_scraper") (u "Unknown")
             (isoDate (clock (S tick)))
      :: linkItems (S (S tick)) target rest
  end.

(** [extractText] of the evaluation in the page: the trimmed text of the
    first match, the empty string without one. *)
Definition extractText (textContent : option jsstring) : jsstring :=
  match textContent with
  | Some s => trim s
  | None => []
  end.

(** The [try] block of [scrapeWithPuppeteer] and its [catch] handler.  The
    links are resolved in the page, against the origin of the window. *)
Definition scrapePage (config : Config) (session : Session) (stats : Stats)
  : list Item * Stats :=
  match session with
  | LaunchFails | LoadFails => ([], failed stats)
  | ContentFails => ([], failed (entered stats))
  | EvaluateFails bytes => ([], failed (visited bytes stats))
  | Loaded page =>
      let stats := visited (size page) stats in
      match extractLinks (origin page) (linkElements page) with
      | None => ([], failed stats)
      | Some links =>
          let title := extractText (firstTitle page) in
          let content := extractText (firstContent page) in
          let items :=
            mainItem (orElse (Some title) (u "No Title Found"))
                     (mainItemDescription content)
                     (targetUrl config) (u "puppeteer")
            :: linkItems 2 (targetUrl config)
                         (slice0 (linkLimit config) links) in
          (items, scraped (List.length items) stats)
      end
  end.

(** A browser was launched, and is closed by the [finally] block. *)
Definition launched (session : Session) : bool :=
  match session with
  | LaunchFails => false
  | _ => true
  end.

(** [scrapeWithPuppeteer]: after the [try] block or its handler, the
    [finally] block closes the browser that was launched; when closing
    throws, that exception replaces the value returned ([None]). *)
Definition scrapeWithPuppeteer (config : Config) (session : Session)
  (closeThrows : bool) (stats : Stats) : option (list Item) * Stats :=
  let '(items, stats) := scrapePage config session stats in
  if launched session && closeThrows then (None, stats)
  else (Some items, stats).

(** [scrapeWithCheerio].  The links are resolved against the target
    address. *)
Definition scrapeWithCheerio (config : Config) (fetch : Fetch)
  (stats : Stats) : list Item * Stats :=
  match fetch with
  | RequestFails => ([], failed stats)
  | ParseFails bytes => ([], failed (visited bytes stats))
  | Fetched response =>
      let stats := visited (dataLength response) stats in
      let title := orElse (Some (trim (titleText response)))
                          (u "No Title Found") in
      match extractLinks (targetUrl config) (responseLinks response) with
      | None => ([], failed stats)
      | Some links =>
          let items :=
            mainItem title
                     (mainItemDescriptionCheerio (trim (contentText response)))
                     (targetUrl config) (u "cheerio")
            :: linkItems 2 (targetUrl config)
                         (slice0 (linkLimit config) links) in
          (items, scraped (List.length items) stats)
      end
  end.

(** [saveData]: nothing is written for an empty list; a write that throws
    is counted as an error.  Of the files written, the export is the one
    embedded ([csvContent]). *)
Definition saveData (items : list Item) (writeThrows : bool) (stats : Stats)
  : option jsstring * Stats :=
  match items with
  | [] => (None, stats)
  | _ :: _ =>
      if writeThrows then (None, failed stats)
      else (Some (csvContent items), stats)
  end.

(** [generateReport]: [None] when writing the report throws. *)
Definition generateReport (reportThrows : bool) (stats : Stats)
  : option Stats :=
  if reportThrows then None else Some stats.

Record World : Type := mkWorld {
  constructorThrows : bool;
  session : Session;
  closeThrows : bool;
  fetch : Fetch;
  writeThrows : bool;
  reportThrows : bool
}.

Record ScraperResult : Type := mkScraperResult {
  success : bool;
  resultItems : nat;
  resultStats : Stats;
  error : bool
}.

(** The value returned by the [catch] handler of [run]. *)
Definition runFailure : ScraperResult :=
  mkScraperResult false 0 (mkStats 0 0 1 0) true.

(** [config.options?.headless !== undefined] *)
Definition usePuppeteer (config : Config) : bool :=
  match options config with
  | Some o =>
      match headless o with
      | Some _ => true
      | None => false
      end
  | None => false
  end.

(** [run]: an exception of the constructor, of the closing of the
    browser or of the report reaches its [catch] handler. *)
Definition run (config : Config) (world : World) : ScraperResult :=
  if constructorThrows world then runFailure
  else
    let '(returned, stats) :=
      if usePuppeteer config
      then scrapeWithPuppeteer config (session world) (closeThrows world)
                               initialStats
      else
        let '(items, stats) :=
          scrapeWithCheerio config (fetch world) initialStats in
        (Some items, stats) in
    match returned with
    | None => runFailure
    | Some items =>
        let '(_, stats) := saveData items (writeThrows world) stats in
        match generateReport (reportThrows world) stats with
        | Some stats => mkScraperResult true (List.length items) stats false
        | None => runFailure
        end
    end.

End Scrape.

End Example.

(** ** The product scraper *)

Module Product.

Import Float Reviews Gallery Variants Exports.

Record Options : Type := mkOptions {
  currencyOption : option jsstring;
  maxImages : option Z;
  maxReviews : option Z;
  maxRelatedProducts : option Z
}.

Record Config : Type := mkConfig {
  configUrl : option jsstring;
  options : option Options
}.

(** The options with [config.options || {}] applied. *)
Definition optionsOf (config : Config) : Options :=
  match options config with
  | Some o => o
  | None => mkOptions None None None None
  end.

(** What [scrapeWithPuppeteer] reads from the page once it is loaded: the
    length of its content, the text of five elements ([None] when the
    element is missing or reading it throws), and what each extraction
    helper reads ([None] when its evaluation in the page throws). *)
Record Page : Type := mkPage {
  size : nat;
  productTitleText : option jsstring;
  priceText : option jsstring;
  descriptionText : option jsstring;
  skuText : option jsstring;
  stockText : option jsstring;
  imageElements : option (list Element);
  variantReadings : option VariantReadings;
  reviewElements : option (list ReviewElement);
  ratingReadings :
    option (option RatingElement * option jsstring
            * list (jsstring * jsstring));
  relatedElements : option (list RelatedElement)
}.

(** [extractText]: the trimmed text, or the empty string. *)
Definition extractText (textContent : option jsstring) : jsstring :=
  match textContent with
  | Some s => trim s
  | None => []
  end.

Record ScrapedProduct : Type := mkScrapedProduct {
  title : jsstring;
  url : jsstring;
  sku : jsstring;
  description : jsstring;
  shortDescriptionOf : jsstring;
  price : Price;
  images : list Image;
  variants : list Variant;
  reviews : list Review;
  rating : RatingData;
  inStock : bool;
  stockLevel : option StockLevel;
  relatedProducts : list RelatedProduct;
  timestamp : jsstring
}.

Record Stats : Type := mkStats {
  pages_visited : nat;
  products_scraped : nat;
  images_found : nat;
  variants_found : nat;
  reviews_processed : nat;
  related_products_found : nat;
  errors : nat;
  bytes_downloaded : nat
}.

Definition initialStats : Stats := mkStats 0 0 0 0 0 0 0 0.

Definition failed (s : Stats) : Stats :=
  mkStats (pages_visited s) (products_scraped s) (images_found s)
          (variants_found s) (reviews_processed s)
          (related_products_found s) (S (errors s)) (bytes_downloaded s).

(** [pages_visited++] alone. *)
Definition entered (s : Stats) : Stats :=
  mkStats (S (pages_visited s)) (products_scraped s) (images_found s)
          (variants_found s) (reviews_processed s)
          (related_products_found s) (errors s) (bytes_downloaded s).

(** The page visited and its bytes counted. *)
Definition visited (n : nat) (s : Stats) : Stats :=
  mkStats (S (pages_visited s)) (products_scraped s) (images_found s)
          (variants_found s) (reviews_processed s)
          (related_products_found s) (errors s) (bytes_downloaded s + n).

Definition targetUrl (config : Config) : jsstring :=
  orElse (configUrl config) (u "https://shop.example.com").

(** How far the [try] block of [scrapeWithPuppeteer] gets: where it
    throws, or the page it reads to its end. *)
Inductive Session : Type :=
| LaunchFails
  (** [puppeteer.launch] throws: there is no browser to close *)
| LoadFails
  (** [newPage], [setUserAgent], [goto], [waitForSelector] or the
      scrolling throws *)
| ContentFails
  (** [page.content()] throws, the page already counted as visited *)
| SelectorsFail (bytes : nat)
  (** the configuration has no selectors: reading the first one throws,
      the bytes already counted *)
| Loaded (page : Page).

Section Scrape.

Variable toLowerCase : jsstring -> jsstring.

(** Two readings of the clock: the date given to a review without one,
    and the time at which the product is assembled. *)
Variable today : jsstring.
Variable now : jsstring.

(** The [try] block of [scrapeWithPuppeteer] and its [catch] handler. *)
Definition scrapePage (config : Config) (session : Session)
  (stats : Stats) : option ScrapedProduct * Stats :=
  let o := optionsOf config in
  match session with
  | LaunchFails | LoadFails => (None, failed stats)
  | ContentFails => (None, failed (entered stats))
  | SelectorsFail bytes => (None, failed (visited bytes stats))
  | Loaded p =>
      let productTitle := extractText (productTitleText p) in
      let priceText := extractText (priceText p) in
      let description := extractText (descriptionText p) in
      let sku := extractText (skuText p) in
      let stockText := extractText (stockText p) in
      let inStock := parseStockStatus toLowerCase stockText in
      let price := parsePrice priceText (currencyOption o) in
      let images := extractImages (imageElements p) (orCount (maxImages o) 10) in
      let variants := extractVariants (variantReadings p) in
      let reviews :=
        extractReviews today (reviewElements p) (orCount (maxReviews o) 5) in
      let rating :=
        extractRating
          (option_map (fun '(ratingElement, countText, rows) =>
                         pageRating ratingElement countText rows)
                      (ratingReadings p))
          reviews in
      let relatedProducts :=
        extractRelatedProducts (relatedElements p)
                               (orCount (maxRelatedProducts o) 5) in
      let product :=
        mkScrapedProduct
          (orElse (Some productTitle) (u "Unknown Product"))
          (targetUrl config)
          (orElse (Some sku) (u "UNKNOWN"))
          description
          (shortDescription description)
          price images variants reviews rating inStock
          (parseStockLevel toLowerCase stockText)
          relatedProducts now in
      (Some product,
       mkStats (S (pages_visited stats))
               (S (products_scraped stats))
               (images_found stats + List.length images)
               (variants_found stats + List.length variants)
               (reviews_processed stats + List.length reviews)
               (related_products_found stats + List.length relatedProducts)
               (errors stats)
               (bytes_downloaded stats + size p))
  end.

(** A browser was launched, and is closed by the [finally] block. *)
Definition launched (session : Session) : bool :=
  match session with
  | LaunchFails => false
  | _ => true
  end.

(** [scrapeWithPuppeteer]: after the [try] block or its handler, the
    [finally] block closes the browser that was launched; when closing
    throws, that exception replaces the value returned ([None]). *)
Definition scrapeWithPuppeteer (config : Config) (session : Session)
  (closeThrows : bool) (stats : Stats)
  : option (option ScrapedProduct) * Stats :=
  let '(product, stats) := scrapePage config session stats in
  if launched session && closeThrows then (None, stats)
  else (Some product, stats).

(** [saveData]: nothing is written without a product; a write that throws
    is counted as an error. *)
Definition saveData (product : option ScrapedProduct) (writeThrows : bool)
  (stats : Stats) : Stats :=
  match product with
  | None => stats
  | Some _ => if writeThrows then failed stats else stats
  end.

Definition generateReport (reportThrows : bool) (stats : Stats)
  : option Stats :=
  if reportThrows then None else Some stats.

Record World : Type := mkWorld {
  constructorThrows : bool;
  session : Session;
  closeThrows : bool;
  writeThrows : bool;
  reportThrows : bool
}.

Record ScraperResult : Type := mkScraperResult {
  success : bool;
  items_scraped : nat;
  resultStats : Stats;
  error : bool
}.

Definition runFailure : ScraperResult :=
  mkScraperResult false 0 (mkStats 0 0 0 0 0 0 1 0) true.

(** [run]: the product scraper always takes the browser path; an
    exception of the constructor, of the closing of the browser or of the
    report reaches its [catch] handler. *)
Definition run (config : Config) (world : World) : ScraperResult :=
  if constructorThrows world then runFailure
  else
    let '(returned, stats) :=
      scrapeWithPuppeteer config (session world) (closeThrows world)
                          initialStats in
    match returned with
    | None => runFailure
    | Some product =>
        let stats := saveData product (writeThrows world) stats in
        match generateReport (reportThrows world) stats with
        | Some stats =>
            mkScraperResult
              (match product with Some _ => true | None => false end)
              (match product with Some _ => 1%nat | None => 0%nat end)
              stats false
        | None => runFailure
        end
    end.

End Scrape.

End Product.

(** * Vocabulary of the further properties *)

Module Notions.

(** ** Prices *)

(** A number that is not negative; NaN is let through. *)
Definition nonneg (a : number) : Prop :=
  match a with
  | Num q => (0 <= q)%Q
  | NaN => True
  end.

(** The ISO codes of the five symbols the price patterns look for. *)
Definition symbolCodes : list jsstring :=
  [u "INR"; u "USD"; u "EUR"; u "GBP"; u "JPY"].




(** ** Ratings *)

(** A rating within the scale. *)
Definition onScale (a : Float.jsnum) : Prop :=
  exists q, a = Float.Finite q /\ (0 <= q <= 5)%Q.

Definition slash : N := ch "/".

(** The attribute of the rating element gives no rating. *)
Definition noAttribute (e : Reviews.RatingElement) : Prop :=
  Reviews.ratingValue e = [] \/
  Float.parseFloatFull (Reviews.ratingValue e) = Float.NotNumber.

(** The code units a numeral read by [parseFloat] can begin with, white
    space included. *)
Definition startsNumeral (c : N) : bool :=
  isSpace c || isDigit c || (c =? ch "+") || (c =? ch "-")
  || (c =? ch ".") || (c =? ch "I").

(** A count: a number that is neither NaN nor negative. *)
Definition isCount (a : number) : Prop := exists q, a = Num q /\ (0 <= q)%Q.

(** A natural number below 10^15, which a double holds exactly. *)
Definition smallCount (a : number) : Prop :=
  exists n : N, a = Num (Z.of_N n # 1) /\ n < 10 ^ 15.

(** An entry of the distribution: a key from 1 to 5 with a count. *)
Definition starEntry (e : N * number) : Prop :=
  (ch "1" <= fst e <= ch "5") /\ isCount (snd e).

Definition wellKeyed (o : list (N * number)) : Prop :=
  Forall starEntry o /\ StronglySorted N.lt (map fst o).

(** ** Images and related products *)

(** What both loop bodies of [extractImages] guarantee of an image pushed
    at [index]. *)
Definition placed (f : Gallery.Element -> nat -> option Gallery.Image) : Prop :=
  forall e index i,
    f e index = Some i ->
    Gallery.position i = index /\ Gallery.isMain i = Nat.eqb index 0.

Definition notQuote (c : N) : bool := negb (Gallery.quoteMark c).

Definition closing : N := ch ")".

(** The two ends of the pattern for [url(...)]. *)
Definition urlTail : regex :=
  Cat (Opt (Chr Gallery.quoteMark)) (Chr (N.eqb closing)).

Definition urlBody : regex :=
  Cat (Grp 1 (Plus notQuote)) urlTail.

(** The quotation marks that may surround the address. *)
Definition quotes (q : jsstring) : Prop :=
  q = [] \/ exists c, q = [c] /\ Gallery.quoteMark c = true.

(** [linkElement?.href || ''] *)
Definition linkOf (product : Gallery.RelatedElement) : jsstring :=
  orElse (Gallery.linkHref product) [].

Definition nonEmpty (s : jsstring) : bool := negb (eqs s []).

(** ** Variants *)

(** The input carries the name [k]. *)
Definition named (k : jsstring) (input : Variants.InputElement) : bool :=
  eqs (Variants.inputName input) k.

(** The variant of an input under its own name. *)
Definition ownVariant (input : Variants.InputElement)
  : option Variants.Variant :=
  Variants.inputVariant (Variants.inputName input) input.

Definition inherited (k : jsstring) : bool :=
  existsb (eqs k) Variants.inheritedNames.

(** The grouping reached after the inputs [done]: the keys are pairwise
    distinct and none is inherited, each group holds the inputs of its
    name in document order, and every input is in a group. *)
Definition grouped (done : list Variants.InputElement) (g : Variants.groups)
  : Prop :=
  NoDup (map fst g) /\
  (forall k xs, In (k, xs) g -> xs <> [] /\ xs = filter (named k) done) /\
  (forall x, In x done -> In (Variants.inputName x) (map fst g)) /\
  Permutation (flat_map snd g) done /\
  (forall k, In k (map fst g) -> inherited k = false).

(** The key is an array index. *)
Definition isIndex (k : jsstring) : bool :=
  match Variants.arrayIndex k with
  | Some _ => true
  | None => false
  end.

Definition indexOf (k : jsstring) : N :=
  match Variants.arrayIndex k with
  | Some n => n
  | None => 0
  end.

(** The names of a list in the order in which they first appear. *)
Definition remember (seen : list jsstring) (k : jsstring) : list jsstring :=
  if existsb (eqs k) seen then seen else seen ++ [k].

Definition appearance (names : list jsstring) : list jsstring :=
  fold_left remember names [].

(** The names of the inputs that are not array indices. *)
Definition otherNames (inputs : list Variants.InputElement) : list jsstring :=
  filter (fun k => negb (isIndex k)) (map Variants.inputName inputs).

(** The keys in the order of enumeration: the array indices in increasing
    order, then the other keys in the order in which they were added. *)
Definition enumerated (done : list Variants.InputElement)
  (keys : list jsstring) : Prop :=
  exists ixs,
    keys = ixs ++ appearance (otherNames done) /\
    Forall (fun k => isIndex k = true) ixs /\
    StronglySorted (fun a b => indexOf a <= indexOf b) ixs.

(** ** Exports *)





(** ** Items *)

(** The address of a link element that is kept: an [href] that is neither
    empty nor a fragment. *)
Definition kept (e : Example.LinkElement) : option jsstring :=
  match Example.href e with
  | Some (c :: h) => if startsWith (c :: h) (u "#") then None else Some (c :: h)
  | _ => None
  end.


End Notions.
Import Notions.


(** * Facts about doubles *)

Module DoubleFacts.

Import Double.
Local Open Scope Q_scope.


Lemma two_pos e : 0 < two e.
Proof. apply Qpower_0_lt. reflexivity. Qed.

Lemma two_add a b : two (a + b) == two a * two b.
Proof. apply Qpower_plus. discriminate. Qed.

Lemma two_le a b : (a <= b)%Z -> two a <= two b.
Proof. intros H. apply Qpower_le_compat_l; [exact H|discriminate]. Qed.

Lemma two_lt_inv a b : two a < two b -> (a < b)%Z.
Proof. intros H. apply (Qpower_lt_compat_l_inv 2); [exact H|reflexivity]. Qed.

Lemma two_inject a : (0 <= a)%Z -> two a == inject_Z (2 ^ a).
Proof. intros H. symmetry. apply (Zpower_Qpower 2 a H). Qed.

Lemma two_succ a : two (a + 1) == 2 * two a.
Proof. rewrite two_add. change (two 1) with 2. lra. Qed.

Lemma two_sub a b : two (a - b) == two a / two b.
Proof.
  pose proof (two_pos b) as Hb.
  assert (E : two a == two (a - b) * two b).
  { rewrite <- two_add. now replace (a - b + b)%Z with a by lia. }
  rewrite E. field. lra.
Qed.

(** ** The binary logarithm *)

Lemma ilog2_spec q : 0 < q -> two (ilog2 q) <= q /\ q < two (ilog2 q + 1).
Proof.
  intros Hq. destruct q as [n d]. unfold ilog2. cbn [Qnum Qden].
  assert (Hn : (0 < n)%Z).
  { unfold Qlt in Hq. cbn in Hq. lia. }
  pose proof (Z.log2_spec n Hn) as [Ln Un].
  pose proof (Z.log2_spec (Z.pos d) (Pos2Z.is_pos d)) as [Ld Ud].
  pose proof (Z.log2_nonneg n) as Nn.
  pose proof (Z.log2_nonneg (Z.pos d)) as Nd.
  set (a := Z.log2 n) in *. set (b := Z.log2 (Z.pos d)) in *.
  rewrite Zle_Qle, <- two_inject in Ln, Ld by lia.
  rewrite Zlt_Qlt, <- two_inject in Un, Ud by lia.
  unfold Z.succ in Un, Ud. rewrite two_succ in Un, Ud.
  pose proof (two_pos a) as Pa. pose proof (two_pos b) as Pb.
  assert (Pd : 0 < inject_Z (Z.pos d)) by (now rewrite <- (Zlt_Qlt 0)).
  assert (Eq : n # d == inject_Z n / inject_Z (Z.pos d)) by apply Qmake_Qdiv.
  assert (Up : n # d < two (a - b + 1)).
  { rewrite Eq, two_succ, two_sub. apply Qlt_shift_div_r; [exact Pd|].
    assert (E : 2 * (two a / two b) * inject_Z (Z.pos d)
                == 2 * two a * (inject_Z (Z.pos d) / two b)) by (field; lra).
    rewrite E. clear E.
    assert (1 <= inject_Z (Z.pos d) / two b).
    { apply Qle_shift_div_l; [exact Pb|]. lra. }
    nra. }
  assert (Lo : two (a - b - 1) <= n # d).
  { assert (E : two (a - b) == 2 * two (a - b - 1)).
    { rewrite <- two_succ. now replace (a - b - 1 + 1)%Z with (a - b)%Z by lia. }
    assert (two (a - b) <= 2 * (n # d)); [|lra].
    rewrite Eq, two_sub.
    apply Qle_shift_div_r; [exact Pb|].
    assert (E' : 2 * (inject_Z n / inject_Z (Z.pos d)) * two b
                == inject_Z n * (2 * two b / inject_Z (Z.pos d))) by (field; lra).
    rewrite E'. clear E'.
    assert (1 <= 2 * two b / inject_Z (Z.pos d)).
    { apply Qle_shift_div_l; [exact Pd|]. lra. }
    nra. }
  destruct (Qle_bool (two (a - b)) (n # d)) eqn:T.
  - apply Qle_bool_iff in T. split; [exact T|exact Up].
  - split; [exact Lo|].
    replace (a - b - 1 + 1)%Z with (a - b)%Z by lia.
    apply Qnot_le_lt. intros C. apply Qle_bool_iff in C. congruence.
Qed.

Lemma ilog2_unique q l : two l <= q -> q < two (l + 1) -> ilog2 q = l.
Proof.
  intros L U.
  assert (Hq : 0 < q) by (pose proof (two_pos l); lra).
  destruct (ilog2_spec q Hq) as [L' U'].
  assert (l < ilog2 q + 1)%Z by (apply two_lt_inv; lra).
  assert (ilog2 q < l + 1)%Z by (apply two_lt_inv; lra).
  lia.
Qed.

Lemma ilog2_comp x y : 0 < x -> x == y -> ilog2 x = ilog2 y.
Proof.
  intros Hx E. destruct (ilog2_spec x Hx) as [L U].
  symmetry. apply ilog2_unique; lra.
Qed.

Lemma ilog2_mono x y : 0 < y -> y <= x -> (ilog2 y <= ilog2 x)%Z.
Proof.
  intros Hy Hyx. destruct (ilog2_spec y Hy) as [L _].
  destruct (ilog2_spec x) as [_ U]; [lra|].
  assert (ilog2 y < ilog2 x + 1)%Z by (apply two_lt_inv; lra).
  lia.
Qed.

(** ** Rounding to the nearest integer, ties to even *)

Lemma rne_bounds x : (Qfloor x <= rne x <= Qfloor x + 1)%Z.
Proof.
  unfold rne. destruct (Qcompare _ _); [destruct (Z.even _)| |]; lia.
Qed.

Lemma rne_le_int x n : x <= inject_Z n -> (rne x <= n)%Z.
Proof.
  intros H. pose proof (Qfloor_le x) as F.
  assert (Fn : (Qfloor x <= n)%Z).
  { rewrite <- (Qfloor_Z n). now apply Qfloor_resp_le. }
  destruct (Z.eq_dec (Qfloor x) n) as [E|E].
  - unfold rne. rewrite E in *.
    destruct (Qcompare_spec (x - inject_Z n) (1 # 2)) as [A|A|A]; try lia; lra.
  - pose proof (rne_bounds x). lia.
Qed.

Lemma rne_ge_int x n : inject_Z n <= x -> (n <= rne x)%Z.
Proof.
  intros H. apply Qfloor_resp_le in H. rewrite Qfloor_Z in H.
  pose proof (rne_bounds x). lia.
Qed.

Lemma rne_mono x y : x <= y -> (rne x <= rne y)%Z.
Proof.
  intros H. pose proof (Qfloor_resp_le _ _ H) as F.
  pose proof (rne_bounds x) as Bx. pose proof (rne_bounds y) as By.
  destruct (Z.eq_dec (Qfloor x) (Qfloor y)) as [E|E]; [|lia].
  unfold rne. rewrite <- E.
  destruct (Qcompare_spec (x - inject_Z (Qfloor x)) (1 # 2)) as [A|A|A];
    destruct (Qcompare_spec (y - inject_Z (Qfloor x)) (1 # 2)) as [B|B|B];
    try destruct (Z.even (Qfloor x)); try lia; lra.
Qed.

Lemma rne_comp x y : x == y -> rne x = rne y.
Proof.
  intros E. unfold rne. rewrite (Qfloor_comp _ _ E).
  assert (E' : x - inject_Z (Qfloor y) == y - inject_Z (Qfloor y)) by lra.
  now rewrite E'.
Qed.

(** ** The nearest double of a positive rational *)


Lemma representable_Z n : (0 <= n < 2 ^ 53)%Z -> representable (inject_Z n).
Proof.
  intros H. exists n, 0%Z. change (two 0) with 1. split; [lra|]. split; [exact H|lia].
Qed.

Lemma exponent_low q : (-1074 <= exponentOf q)%Z.
Proof. unfold exponentOf. lia. Qed.

Lemma scaled_below q : 0 < q -> q / two (exponentOf q) < inject_Z (2 ^ 53).
Proof.
  intros Hq. destruct (ilog2_spec q Hq) as [_ U].
  pose proof (two_pos (exponentOf q)) as P.
  apply Qlt_shift_div_r; [exact P|].
  rewrite <- two_inject, <- two_add by lia.
  eapply Qlt_le_trans; [exact U|]. apply two_le. unfold exponentOf. lia.
Qed.

Lemma scaled_above q :
  0 < q -> (-1074 < exponentOf q)%Z -> inject_Z (2 ^ 52) <= q / two (exponentOf q).
Proof.
  intros Hq He. destruct (ilog2_spec q Hq) as [L _].
  pose proof (two_pos (exponentOf q)) as P.
  apply Qle_shift_div_l; [exact P|].
  rewrite <- two_inject, <- two_add by lia.
  eapply Qle_trans; [|exact L]. apply two_le. unfold exponentOf in *. lia.
Qed.

Lemma nearest_eq q :
  nearest q == inject_Z (rne (q / two (exponentOf q))) * two (exponentOf q).
Proof. unfold nearest. cbv zeta. apply Qred_correct. Qed.

Lemma scaled_nonneg q : 0 <= q -> 0 <= q / two (exponentOf q).
Proof.
  intros H. pose proof (two_pos (exponentOf q)).
  apply Qle_shift_div_l; [assumption|]. lra.
Qed.

Lemma significand_range q :
  0 < q -> (0 <= rne (q / two (exponentOf q)) <= 2 ^ 53)%Z.
Proof.
  intros Hq. split.
  - apply rne_ge_int. apply scaled_nonneg. lra.
  - apply rne_le_int. apply Qlt_le_weak. now apply scaled_below.
Qed.

Lemma nearest_nonneg q : 0 < q -> 0 <= nearest q.
Proof.
  intros Hq. rewrite nearest_eq.
  pose proof (significand_range q Hq) as [L _].
  pose proof (two_pos (exponentOf q)).
  apply Qmult_le_0_compat; [|lra].
  change 0 with (inject_Z 0). now rewrite <- Zle_Qle.
Qed.

Lemma nearest_representable q : 0 < q -> representable (nearest q).
Proof.
  intros Hq. pose proof (significand_range q Hq) as [L U].
  pose proof (exponent_low q) as E.
  destruct (Z.eq_dec (rne (q / two (exponentOf q))) (2 ^ 53)) as [T|T].
  - exists (2 ^ 52)%Z, (exponentOf q + 1)%Z. split; [|split; lia].
    rewrite nearest_eq, T, two_succ.
    change (inject_Z (2 ^ 53)) with (2 * inject_Z (2 ^ 52)). lra.
  - exists (rne (q / two (exponentOf q))), (exponentOf q).
    split; [apply nearest_eq|]. split; lia.
Qed.

(** The scaling of a double to a lower exponent is a whole number. *)
Lemma rescale m e e' :
  (e' <= e)%Z -> inject_Z m * two e / two e' == inject_Z (m * 2 ^ (e - e')).
Proof.
  intros H. rewrite inject_Z_mult, <- two_inject by lia.
  rewrite two_sub. pose proof (two_pos e'). field. lra.
Qed.

(** A double below the binade of [q] lies strictly below [q]. *)
Lemma lower_binade q m e :
  0 < q -> (0 <= m < 2 ^ 53)%Z -> (-1074 <= e < exponentOf q)%Z ->
  inject_Z m * two e < inject_Z (2 ^ 52) * two (exponentOf q) /\
  inject_Z (2 ^ 52) * two (exponentOf q) <= q.
Proof.
  intros Hq Hm He. pose proof (two_pos (exponentOf q)) as P.
  split.
  - assert (M : inject_Z m < inject_Z (2 ^ 53)) by (rewrite <- Zlt_Qlt; lia).
    assert (T : 2 * two e <= two (exponentOf q)).
    { rewrite <- two_succ. apply two_le. lia. }
    pose proof (two_pos e).
    change (inject_Z (2 ^ 53)) with (2 * inject_Z (2 ^ 52)) in M.
    assert (0 < inject_Z (2 ^ 52)) by reflexivity.
    nra.
  - assert (S : inject_Z (2 ^ 52) <= q / two (exponentOf q))
      by (apply scaled_above; [exact Hq|lia]).
    apply (Qmult_le_compat_r _ _ (two (exponentOf q))) in S; [|lra].
    assert (E : q / two (exponentOf q) * two (exponentOf q) == q) by (field; lra).
    now rewrite E in S.
Qed.

Lemma nearest_above_binade q :
  0 < q -> (-1074 < exponentOf q)%Z ->
  inject_Z (2 ^ 52) * two (exponentOf q) <= nearest q.
Proof.
  intros Hq He. rewrite nearest_eq. pose proof (two_pos (exponentOf q)).
  apply Qmult_le_compat_r; [|lra].
  rewrite <- Zle_Qle. apply rne_ge_int. now apply scaled_above.
Qed.

(** Rounding does not cross a double: a double above [q] stays above the
    nearest double of [q], and a double below stays below. *)
Lemma nearest_le q d :
  0 < q -> q <= d -> representable d -> nearest q <= d.
Proof.
  intros Hq Hd (m & e & E & Hm & He).
  pose proof (two_pos (exponentOf q)) as P.
  destruct (Z.le_gt_cases (exponentOf q) e) as [C|C].
  - rewrite nearest_eq.
    assert (S : q / two (exponentOf q) <= inject_Z (m * 2 ^ (e - exponentOf q))).
    { rewrite <- rescale by lia. rewrite <- E.
      apply Qle_shift_div_r; [exact P|].
      assert (X : d / two (exponentOf q) * two (exponentOf q) == d) by (field; lra).
      now rewrite X. }
    apply rne_le_int in S. rewrite Zle_Qle in S.
    apply (Qmult_le_compat_r _ _ (two (exponentOf q))) in S; [|lra].
    rewrite <- rescale in S by lia.
    assert (X : inject_Z m * two e / two (exponentOf q) * two (exponentOf q)
                == d) by (rewrite E; field; lra).
    now rewrite X in S.
  - destruct (lower_binade q m e Hq Hm) as [A B]; [lia|]. lra.
Qed.

Lemma nearest_ge q d :
  0 < q -> d <= q -> representable d -> d <= nearest q.
Proof.
  intros Hq Hd (m & e & E & Hm & He).
  pose proof (two_pos (exponentOf q)) as P.
  destruct (Z.le_gt_cases (exponentOf q) e) as [C|C].
  - rewrite nearest_eq.
    assert (S : inject_Z (m * 2 ^ (e - exponentOf q)) <= q / two (exponentOf q)).
    { rewrite <- rescale by lia. rewrite <- E.
      apply Qle_shift_div_l; [exact P|].
      assert (X : d / two (exponentOf q) * two (exponentOf q) == d) by (field; lra).
      now rewrite X. }
    apply rne_ge_int in S. rewrite Zle_Qle in S.
    apply (Qmult_le_compat_r _ _ (two (exponentOf q))) in S; [|lra].
    rewrite <- rescale in S by lia.
    assert (X : inject_Z m * two e / two (exponentOf q) * two (exponentOf q)
                == d) by (rewrite E; field; lra).
    now rewrite X in S.
  - destruct (lower_binade q m e Hq Hm) as [A B]; [lia|].
    pose proof (nearest_above_binade q Hq ltac:(lia)) as N. lra.
Qed.

Lemma exponent_mono x y : 0 < y -> y <= x -> (exponentOf y <= exponentOf x)%Z.
Proof.
  intros Hy Hyx. pose proof (ilog2_mono x y Hy Hyx). unfold exponentOf. lia.
Qed.

Lemma nearest_mono x y : 0 < y -> y <= x -> nearest y <= nearest x.
Proof.
  intros Hy Hyx. assert (Hx : 0 < x) by lra.
  pose proof (exponent_mono x y Hy Hyx) as E.
  pose proof (two_pos (exponentOf x)) as Px.
  pose proof (two_pos (exponentOf y)) as Py.
  destruct (Z.eq_dec (exponentOf y) (exponentOf x)) as [C|C].
  - rewrite !nearest_eq, C.
    apply Qmult_le_compat_r; [|lra].
    rewrite <- Zle_Qle. apply rne_mono.
    apply Qle_shift_div_l; [exact Px|].
    assert (X : y / two (exponentOf x) * two (exponentOf x) == y) by (field; lra).
    now rewrite X.
  - pose proof (nearest_above_binade x Hx) as N.
    pose proof (exponent_low y) as Ly.
    specialize (N ltac:(lia)).
    eapply Qle_trans; [|exact N].
    rewrite nearest_eq.
    pose proof (significand_range y Hy) as [_ U]. rewrite Zle_Qle in U.
    change (inject_Z (2 ^ 53)) with (2 * inject_Z (2 ^ 52)) in U.
    assert (T : 2 * two (exponentOf y) <= two (exponentOf x)).
    { rewrite <- two_succ. apply two_le. lia. }
    assert (0 < inject_Z (2 ^ 52)) by reflexivity.
    nra.
Qed.

Lemma exponent_comp x y : 0 < x -> x == y -> exponentOf x = exponentOf y.
Proof. intros H E. unfold exponentOf. now rewrite (ilog2_comp x y H E). Qed.

Lemma nearest_comp x y : 0 < x -> x == y -> nearest x = nearest y.
Proof.
  intros H E. unfold nearest. cbv zeta. apply Qred_complete.
  rewrite <- (exponent_comp x y H E).
  assert (E' : x / two (exponentOf x) == y / two (exponentOf x))
    by (apply Qdiv_comp; [exact E|reflexivity]).
  now rewrite (rne_comp _ _ E').
Qed.

(** ** Doubles *)


Lemma finite_Z n : (0 <= n < 2 ^ 53)%Z -> finite (inject_Z n).
Proof.
  intros H. split; [|split].
  - change 0 with (inject_Z 0). rewrite <- Zle_Qle. lia.
  - eapply Qlt_le_trans; [|apply (two_le 53); lia].
    rewrite two_inject by lia. rewrite <- Zlt_Qlt. lia.
  - now apply representable_Z.
Qed.

Lemma fl_comp x y : x == y -> fl x = fl y.
Proof.
  intros E. unfold fl. rewrite <- E.
  destruct (Qcompare_spec x 0) as [A|A|A]; [reflexivity| |].
  - cbv zeta. rewrite (nearest_comp (- x) (- y)); [reflexivity|lra|lra].
  - cbv zeta. now rewrite (nearest_comp x y).
Qed.

(** The double of a non-negative rational is a finite non-negative double
    or plus infinity. *)
Lemma fl_nonneg q :
  0 <= q -> fl q = Inf false \/ exists v, fl q = Fin v /\ finite v.
Proof.
  intros H. unfold fl. destruct (Qcompare_spec q 0) as [A|A|A]; [|lra|].
  - right. exists 0. split; [reflexivity|]. apply (finite_Z 0). lia.
  - cbv zeta. destruct (Qle_bool (two 1024) (nearest q)) eqn:O; [now left|].
    right. eexists. split; [reflexivity|]. split; [|split].
    + now apply nearest_nonneg.
    + apply Qnot_le_lt. intros C. apply Qle_bool_iff in C. congruence.
    + now apply nearest_representable.
Qed.

(** Below a finite double, the double of a non-negative rational is finite
    and not above it. *)
Lemma fl_below q d :
  0 <= q -> q <= d -> finite d -> exists v, fl q = Fin v /\ finite v /\ v <= d.
Proof.
  intros H Hd (D0 & D1 & D2). unfold fl.
  destruct (Qcompare_spec q 0) as [A|A|A]; [|lra|].
  - exists 0. split; [reflexivity|]. split; [apply (finite_Z 0); lia|exact D0].
  - cbv zeta. pose proof (nearest_le q d A Hd D2) as L.
    destruct (Qle_bool (two 1024) (nearest q)) eqn:O.
    { apply Qle_bool_iff in O. lra. }
    eexists. split; [reflexivity|]. split; [|exact L].
    split; [now apply nearest_nonneg|]. split; [lra|].
    now apply nearest_representable.
Qed.

(** The doubles of two non-negative rationals are ordered as they are. *)
Lemma fl_mono x y x' :
  0 <= y -> y <= x -> fl x = Fin x' ->
  exists y', fl y = Fin y' /\ finite y' /\ y' <= x'.
Proof.
  intros Hy Hyx. unfold fl.
  destruct (Qcompare_spec x 0) as [A|A|A]; [| lra |].
  - intros E. injection E as <-.
    assert (Y : y == 0) by lra. apply Qeq_alt in Y.
    change (Qcompare y 0 = Eq) in Y. rewrite Y.
    exists 0. split; [reflexivity|]. split; [apply (finite_Z 0); lia|lra].
  - cbv zeta. destruct (Qle_bool (two 1024) (nearest x)) eqn:O; [discriminate|].
    intros E. injection E as <-.
    assert (O' : nearest x < two 1024).
    { apply Qnot_le_lt. intros C. apply Qle_bool_iff in C. congruence. }
    destruct (Qcompare_spec y 0) as [B|B|B]; [| lra |].
    + exists 0. split; [reflexivity|]. split; [apply (finite_Z 0); lia|].
      now apply nearest_nonneg.
    + pose proof (nearest_mono x y B Hyx) as M.
      destruct (Qle_bool (two 1024) (nearest y)) eqn:P.
      { apply Qle_bool_iff in P. lra. }
      eexists. split; [reflexivity|]. split; [|exact M].
      split; [now apply nearest_nonneg|]. split; [lra|].
      now apply nearest_representable.
Qed.

(** Rounding leaves a double as it is. *)
Lemma fl_exact d : finite d -> exists v, fl d = Fin v /\ v == d.
Proof.
  intros (D0 & D1 & D2). unfold fl.
  destruct (Qcompare_spec d 0) as [A|A|A]; [|lra|].
  - exists 0. split; [reflexivity|lra].
  - cbv zeta.
    pose proof (nearest_le d d A (Qle_refl d) D2) as L.
    pose proof (nearest_ge d d A (Qle_refl d) D2) as G.
    destruct (Qle_bool (two 1024) (nearest d)) eqn:O.
    { apply Qle_bool_iff in O. lra. }
    eexists. split; [reflexivity|lra].
Qed.

(** The double of 0.1; the largest finite double and the tie above it; the
    smallest subnormal and the ties around it. *)
Example fl_values :
  fl (1 # 10) = Fin (3602879701896397 # 36028797018963968) /\
  fl (two 1024 - two 971) = Fin (two 1024 - two 971) /\
  fl (two 1024 - two 970) = Inf false /\
  fl (two (-1074)) = Fin (two (-1074)) /\
  fl (two (-1075)) = Fin 0 /\
  fl (3 * two (-1075)) = Fin (two (-1073)).
Proof. vm_compute. repeat split. Qed.

(** ** The discount percentage *)

Lemma percentage_comp x y x' y' :
  x == x' -> y == y' ->
  percentage (Num x) (Num y) = percentage (Num x') (Num y').
Proof.
  intros Ex Ey. unfold percentage. cbn [ofNumber].
  now rewrite (fl_comp x x' Ex), (fl_comp y y' Ey).
Qed.

Lemma percentage_nan o : percentage o NaN = NaN.
Proof.
  unfold percentage. cbn [ofNumber]. destruct (ofNumber o); reflexivity.
Qed.

(** The percentage of a reduction from [x > 0] to [y] with [0 <= y <= x]
    is NaN (when [x] is beyond the doubles, or rounds to zero) or a whole
    number from 0 to 100. *)
Lemma percentage_range x y :
  0 < x -> 0 <= y -> y <= x ->
  percentage (Num x) (Num y) = NaN \/
  exists z, percentage (Num x) (Num y) = Num (inject_Z z) /\ (0 <= z <= 100)%Z.
Proof.
  intros Hx Hy Hyx. unfold percentage. cbn [ofNumber]. cbv zeta.
  destruct (fl_nonneg x) as [E|(x' & E & Fx)]; [lra| |].
  - left. rewrite E.
    destruct (fl_nonneg y Hy) as [E'|(y' & E' & _)]; rewrite E'; reflexivity.
  - destruct (fl_mono x y x' Hy Hyx E) as (y' & E' & Fy & L).
    rewrite E, E'. cbn [sub].
    destruct Fx as (X0 & X1 & X2). destruct Fy as (Y0 & _ & _).
    destruct (fl_below (x' - y') x') as (s & Es & (S0 & _ & _) & Ls);
      [lra|lra|now repeat split|].
    rewrite Es. cbn [div].
    destruct (Qeq_bool x' 0) eqn:Z.
    { apply Qeq_bool_iff in Z. left.
      assert (Zs : Qeq_bool s 0 = true) by (apply Qeq_bool_iff; lra).
      now rewrite Zs. }
    assert (Xp : 0 < x').
    { assert (~ x' == 0) by (intros C; apply Qeq_bool_iff in C; congruence).
      lra. }
    destruct (fl_below (s / x') (inject_Z 1)) as (t & Et & (T0 & _ & _) & Lt).
    { apply Qle_shift_div_l; [exact Xp|]. lra. }
    { apply Qle_shift_div_r; [exact Xp|]. change (inject_Z 1) with 1. lra. }
    { apply finite_Z. lia. }
    rewrite Et. cbn [mul].
    destruct (fl_below (t * 100) (inject_Z 100)) as (w & Ew & (W0 & _ & _) & Lw).
    { lra. }
    { change (inject_Z 1) with 1 in Lt. change (inject_Z 100) with 100. lra. }
    { apply finite_Z. lia. }
    rewrite Ew. cbn [round toNumber]. right. eexists. split; [reflexivity|].
    split.
    + change 0%Z with (Qfloor 0). apply Qfloor_resp_le. lra.
    + change 100%Z with (Qfloor (100 + (1 # 2))). apply Qfloor_resp_le.
      change (inject_Z 100) with 100 in Lw. lra.
Qed.

End DoubleFacts.

(** * Facts about the matcher *)

Module ReFacts.

Lemma star_sound p s w k r :
  In (w, k, r) (star p s) -> s = w ++ r /\ forallb p w = true /\ k = [].
Proof.
  revert w k r; induction s as [|c t IH]; intros w k r H; simpl in H.
  - destruct H as [H|[]]; inversion H; subst; auto.
  - destruct (p c) eqn:E.
    + apply in_app_or in H; destruct H as [H|[H|[]]].
      * apply in_map_iff in H; destruct H as [[[w' k'] r'] [Heq Hin]].
        inversion Heq; subst; clear Heq.
        destruct (IH _ _ _ Hin) as (-> & Hall & ->).
        simpl; rewrite E, Hall; auto.
      * inversion H; subst; auto.
    + destruct H as [H|[]]; inversion H; subst; auto.
Qed.

Lemma run_sound r : forall s w k rest,
  In (w, k, rest) (run r s) ->
  s = w ++ rest /\ lang r w /\
  (forall i v, In (i, v) k -> exists a, groupOf r i a /\ lang a v).
Proof.
  induction r as [|p|a IHa b IHb|a IHa b IHb|a IHa|p|i a IHa];
    intros s w k rest H; simpl in H.
  - destruct H as [H|[]]; inversion H; subst; simpl; intuition.
  - destruct s as [|c t]; [contradiction|].
    destruct (p c) eqn:E; [|contradiction].
    destruct H as [H|[]]; inversion H; subst; simpl.
    split; [reflexivity|]. split; [exists c; auto|]. intros ? ? [].
  - apply in_flat_map in H; destruct H as [[[w1 k1] r1] [H1 H2]].
    apply in_map_iff in H2; destruct H2 as [[[w2 k2] r2] [Heq H2]].
    inversion Heq; subst; clear Heq.
    destruct (IHa _ _ _ _ H1) as (-> & La & Ca).
    destruct (IHb _ _ _ _ H2) as (-> & Lb & Cb).
    split; [now rewrite app_assoc|].
    split; [simpl; eauto|].
    intros i v Hin; apply in_app_or in Hin; destruct Hin as [Hin|Hin].
    + destruct (Ca _ _ Hin) as (c & ? & ?); exists c; split; [constructor 3|]; auto.
    + destruct (Cb _ _ Hin) as (c & ? & ?); exists c; split; [constructor 4|]; auto.
  - apply in_app_or in H; destruct H as [H|H].
    + destruct (IHa _ _ _ _ H) as (-> & La & Ca).
      split; [reflexivity|]. split; [simpl; auto|].
      intros i v Hin; destruct (Ca _ _ Hin) as (c & ? & ?);
        exists c; split; [constructor 5|]; auto.
    + destruct (IHb _ _ _ _ H) as (-> & Lb & Cb).
      split; [reflexivity|]. split; [simpl; auto|].
      intros i v Hin; destruct (Cb _ _ Hin) as (c & ? & ?);
        exists c; split; [constructor 6|]; auto.
  - apply in_app_or in H; destruct H as [H|[H|[]]].
    + destruct (IHa _ _ _ _ H) as (-> & La & Ca).
      split; [reflexivity|]. split; [simpl; auto|].
      intros i v Hin; destruct (Ca _ _ Hin) as (c & ? & ?);
        exists c; split; [constructor 7|]; auto.
    + inversion H; subst. simpl; intuition.
  - destruct (star_sound _ _ _ _ _ H) as (-> & Hall & ->).
    simpl; intuition.
  - apply in_map_iff in H; destruct H as [[[w' k'] r'] [Heq H]].
    inversion Heq; subst; clear Heq.
    destruct (IHa _ _ _ _ H) as (-> & La & Ca).
    split; [reflexivity|]. split; [exact La|].
    intros j v [Hin|Hin].
    + inversion Hin; subst. exists a; split; [constructor 1|exact La].
    + destruct (Ca _ _ Hin) as (c & ? & ?);
        exists c; split; [constructor 2|]; auto.
Qed.

Lemma lookup_In i k v : lookup i k = Some v -> In (i, v) k.
Proof.
  induction k as [|[j w] k IH]; simpl; [discriminate|].
  destruct (Nat.eqb i j) eqn:E.
  - intros H; inversion H; subst. apply Nat.eqb_eq in E; subst; auto.
  - auto.
Qed.

Lemma lookup_app i k1 k2 :
  lookup i (k1 ++ k2) =
  match lookup i k1 with Some v => Some v | None => lookup i k2 end.
Proof.
  induction k1 as [|[j w] k1 IH]; simpl; [reflexivity|].
  destruct (Nat.eqb i j); auto.
Qed.

Lemma run_binds r i : binds r i = true ->
  forall s w k rest, In (w, k, rest) (run r s) -> lookup i k <> None.
Proof.
  induction r as [|p|a IHa b IHb|a IHa b IHb|a IHa|p|j a IHa];
    simpl; intros B s w k rest H; try discriminate.
  - apply in_flat_map in H; destruct H as [[[w1 k1] r1] [H1 H2]].
    apply in_map_iff in H2; destruct H2 as [[[w2 k2] r2] [Heq H2]].
    inversion Heq; subst; clear Heq.
    rewrite lookup_app.
    destruct (lookup i k1) eqn:E1; [discriminate|].
    apply orb_true_iff in B; destruct B as [B|B].
    + exfalso; exact (IHa B _ _ _ _ H1 E1).
    + exact (IHb B _ _ _ _ H2).
  - apply andb_true_iff in B; destruct B as [Ba Bb].
    apply in_app_or in H; destruct H as [H|H]; eauto.
  - apply in_map_iff in H; destruct H as [[[w' k'] r'] [Heq H]].
    inversion Heq; subst; clear Heq. simpl.
    destruct (Nat.eqb i j) eqn:E; [discriminate|].
    simpl in B. eauto.
Qed.

(** [exec] returns the first alternative at some start position. *)
Lemma exec_sound r : forall s w k,
  exec r s = Some (w, k) ->
  exists pre rest tl,
    s = pre ++ w ++ rest /\ run r (w ++ rest) = (w, k, rest) :: tl.
Proof.
  induction s as [|c t IH]; intros w k H; simpl in H.
  - destruct (run r []) as [|[[w' k'] r'] tl] eqn:E; [discriminate|].
    inversion H; subst.
    destruct (run_sound r [] w k r') as (Hs & _); [rewrite E; left; auto|].
    exists [], r', tl. rewrite <- Hs. auto.
  - destruct (run r (c :: t)) as [|[[w' k'] r'] tl] eqn:E.
    + destruct (IH _ _ H) as (pre & rest & tl & -> & Hr).
      exists (c :: pre), rest, tl; auto.
    + inversion H; subst.
      destruct (run_sound r (c :: t) w k r') as (Hs & _); [rewrite E; left; auto|].
      exists [], r', tl. rewrite <- Hs. auto.
Qed.

Lemma exec_None r : forall s,
  exec r s = None -> forall pre rest, s = pre ++ rest -> run r rest = [].
Proof.
  induction s as [|c t IH]; intros H pre rest Hs; simpl in H.
  - destruct pre; [|discriminate]. simpl in Hs; subst.
    destruct (run r []) as [|[[? ?] ?] ?]; [reflexivity|discriminate].
  - destruct (run r (c :: t)) as [|[[? ?] ?] ?] eqn:E; [|discriminate].
    destruct pre as [|c' pre]; simpl in Hs.
    + subst; exact E.
    + inversion Hs; subst. eapply IH; eauto.
Qed.

End ReFacts.
Import ReFacts.

(** * Facts about the price normalizer *)

Module PriceFacts.

Lemma amount_lang i j w : lang (amountRe i j) w -> amountShape w.
Proof.
  unfold amountRe, Plus; cbn [lang].
  intros (w1 & w2 & -> & (a1 & a2 & -> & (c & -> & Hc) & Ha) & Hf).
  exists ([c] ++ a2), w2. split; [reflexivity|].
  split; [discriminate|].
  split; [cbn [app forallb]; rewrite Hc, Ha; reflexivity|].
  destruct Hf as [Hf | ->]; [right|left; reflexivity].
  destruct Hf as (f1 & f2 & -> & (p & -> & Hp) & Hd).
  destruct Hd as (g1 & g2 & -> & (d1 & -> & H1) & (d2 & -> & H2)).
  apply N.eqb_eq in Hp; subst p. exists d1, d2; auto.
Qed.

Ltac inv_group :=
  repeat match goal with
         | H : groupOf _ _ _ |- _ => inversion H; clear H; subst
         end.

(** A successful [exec] binds every group that all alternatives bind. *)
Lemma exec_binds r i s m :
  binds r (S i) = true -> exec r s = Some m ->
  exists v, group (S i) m = Some v /\
            exists a, groupOf r (S i) a /\ lang a v.
Proof.
  intros B H. destruct m as [w k].
  destruct (exec_sound _ _ _ _ H) as (pre & rest & tl & _ & Hr).
  assert (Hin : In (w, k, rest) (run r (w ++ rest))) by (rewrite Hr; left; auto).
  pose proof (run_binds _ _ B _ _ _ _ Hin) as Hb.
  destruct (run_sound _ _ _ _ _ Hin) as (_ & _ & Hc).
  simpl. destruct (lookup (S i) k) as [v|] eqn:E; [|congruence].
  exists v; split; [reflexivity|]. apply Hc. now apply lookup_In.
Qed.

Lemma priceRe_groups s m :
  exec priceRe s = Some m ->
  exists c w, group 1 m = Some [c] /\ isSymbol c = true /\
              group 2 m = Some w /\ amountShape w.
Proof.
  intros H.
  destruct (exec_binds priceRe 0 s m eq_refl H) as (v1 & G1 & a1 & O1 & L1).
  destruct (exec_binds priceRe 1 s m eq_refl H) as (v2 & G2 & a2 & O2 & L2).
  unfold priceRe, amountRe, Plus in O1, O2. inv_group.
  destruct L1 as (c & -> & Hc). exists c, v2.
  repeat split; auto. exact (amount_lang 2 3 _ L2).
Qed.

Lemma numericRe_groups s m :
  exec numericRe s = Some m ->
  exists w, group 1 m = Some w /\ amountShape w.
Proof.
  intros H.
  destruct (exec_binds numericRe 0 s m eq_refl H) as (v1 & G1 & a1 & O1 & L1).
  unfold numericRe, amountRe, Plus in O1. inv_group.
  exists v1; split; auto. exact (amount_lang 1 2 _ L1).
Qed.

Lemma originalRe_groups s m :
  exec originalRe s = Some m ->
  exists c1 w1 c2 w2,
    group 1 m = Some [c1] /\ isSymbol c1 = true /\
    group 2 m = Some w1 /\ amountShape w1 /\
    group 4 m = Some [c2] /\ isSymbol c2 = true /\
    group 5 m = Some w2 /\ amountShape w2.
Proof.
  intros H.
  destruct (exec_binds originalRe 0 s m eq_refl H) as (v1 & G1 & a1 & O1 & L1).
  destruct (exec_binds originalRe 1 s m eq_refl H) as (v2 & G2 & a2 & O2 & L2).
  destruct (exec_binds originalRe 3 s m eq_refl H) as (v4 & G4 & a4 & O4 & L4).
  destruct (exec_binds originalRe 4 s m eq_refl H) as (v5 & G5 & a5 & O5 & L5).
  unfold originalRe, amountRe, Plus in O1, O2, O4, O5. inv_group.
  destruct L1 as (c1 & -> & Hc1). destruct L4 as (c2 & -> & Hc2).
  exists c1, v2, c2, v5.
  repeat split; auto; [exact (amount_lang 2 3 _ L2)|exact (amount_lang 5 6 _ L5)].
Qed.

(** The [try] block of [parsePrice] never throws. *)
Lemma parsePriceTry_eq text hint :
  parsePriceTry text hint = Some (priceOf (trim text) hint).
Proof.
  unfold parsePriceTry, priceOf.
  set (s := trim text).
  pose (st :=
    match exec priceRe s with
    | Some priceMatch =>
        (tokenValue (tpl (group 2 priceMatch)),
         getCurrencyCode (tpl (group 1 priceMatch)),
         tpl (group 1 priceMatch) ++ tpl (group 2 priceMatch))
    | None =>
        match exec numericRe s with
        | Some numericMatch =>
            (tokenValue (tpl (group 1 numericMatch)),
             orElse hint (u "USD"),
             orElse hint (u "$") ++ tpl (group 1 numericMatch))
        | None => (Num 0, orElse hint (u "USD"), s)
        end
    end).
  assert (Hst :
    match exec priceRe s with
    | Some priceMatch =>
        match stripCommas (group 2 priceMatch) with
        | Some a =>
            Some (parseFloat a, getCurrencyCode (tpl (group 1 priceMatch)),
                  tpl (group 1 priceMatch) ++ tpl (group 2 priceMatch))
        | None => None
        end
    | None =>
        match exec numericRe s with
        | Some numericMatch =>
            match stripCommas (group 1 numericMatch) with
            | Some a =>
                Some (parseFloat a, orElse hint (u "USD"),
                      orElse hint (u "$") ++ tpl (group 1 numericMatch))
            | None => None
            end
        | None => Some (Num 0, orElse hint (u "USD"), s)
        end
    end = Some st).
  { unfold st. destruct (exec priceRe s) as [pm|] eqn:Ep.
    - destruct (priceRe_groups _ _ Ep) as (c & w & G1 & _ & G2 & _).
      rewrite G1, G2. reflexivity.
    - destruct (exec numericRe s) as [nm|] eqn:En; [|reflexivity].
      destruct (numericRe_groups _ _ En) as (w & G1 & _).
      rewrite G1. reflexivity. }
  cbv zeta. fold st. rewrite Hst. clearbody st. clear Hst.
  destruct st as [[a1 c1] f1]. cbn [fst snd].
  destruct (hasDiscountOf s); [|reflexivity].
  destruct (exec originalRe s) as [om|] eqn:Eo; [|reflexivity].
  destruct (originalRe_groups _ _ Eo)
    as (c1' & w1 & c2' & w2 & G1 & _ & G2 & _ & G4 & _ & G5 & _).
  rewrite G1, G2, G4, G5. cbn [stripCommas option_map tpl].
  fold (tokenValue w1). fold (tokenValue w2).
  destruct (gt (tokenValue w1) (tokenValue w2)); reflexivity.
Qed.

Lemma parsePrice_eq c t hint :
  parsePrice (c :: t) hint = priceOf (trim (c :: t)) hint.
Proof.
  unfold parsePrice. now rewrite parsePriceTry_eq.
Qed.

(** ** Trimming *)

Lemma trimStart_cases s :
  trimStart s = [] \/ exists c t, trimStart s = c :: t /\ isSpace c = false.
Proof.
  induction s as [|c t IH]; cbn [trimStart]; [left; reflexivity|].
  destruct (isSpace c) eqn:E; [exact IH|right; eauto].
Qed.

Lemma trimStart_keep c t : isSpace c = false -> trimStart (c :: t) = c :: t.
Proof. intros E. cbn [trimStart]. now rewrite E. Qed.

Lemma trimStart_idem s : trimStart (trimStart s) = trimStart s.
Proof.
  destruct (trimStart_cases s) as [->|(c & t & -> & E)];
    [reflexivity|now apply trimStart_keep].
Qed.

Lemma trimStart_snoc l c :
  isSpace c = false -> trimStart (l ++ [c]) = trimStart l ++ [c].
Proof.
  intros E. induction l as [|d l IH]; cbn [app trimStart].
  - now rewrite E.
  - destruct (isSpace d); [exact IH|reflexivity].
Qed.

Lemma trimEnd_snoc l c : isSpace c = false -> trimEnd (l ++ [c]) = l ++ [c].
Proof.
  intros E. unfold trimEnd. rewrite rev_unit, (trimStart_keep _ _ E).
  cbn [rev]. now rewrite rev_involutive.
Qed.

Lemma trimEnd_idem s : trimEnd (trimEnd s) = trimEnd s.
Proof.
  unfold trimEnd. now rewrite rev_involutive, trimStart_idem.
Qed.

Lemma trimEnd_head c t :
  isSpace c = false -> exists t', trimEnd (c :: t) = c :: t'.
Proof.
  intros E. unfold trimEnd. cbn [rev].
  rewrite (trimStart_snoc _ _ E), rev_unit. eauto.
Qed.

Lemma trim_idem s : trim (trim s) = trim s.
Proof.
  unfold trim.
  destruct (trimStart_cases s) as [->|(c & t & -> & E)]; [reflexivity|].
  destruct (trimEnd_head c t E) as (t' & Ht).
  rewrite Ht, (trimStart_keep _ _ E), <- Ht. apply trimEnd_idem.
Qed.

(** ** Character classes *)

Ltac bool_lia :=
  repeat match goal with
         | H : (_ || _) = true |- _ => apply orb_true_iff in H; destruct H
         | H : (_ && _) = true |- _ => apply andb_true_iff in H; destruct H
         | H : (_ =? _) = true |- _ => apply N.eqb_eq in H
         | H : (_ <=? _) = true |- _ => apply N.leb_le in H
         end;
  try lia.

Lemma unit_cases c :
  isAmountUnit c = true -> (48 <= c <= 57) \/ c = 44.
Proof.
  unfold isAmountUnit, isDigit, range. change (ch ",") with 44.
  intros H. bool_lia.
Qed.

Lemma digit_cases c : isDigit c = true -> 48 <= c <= 57.
Proof. unfold isDigit, range. intros H. bool_lia. Qed.

Lemma symbol_cases c :
  isSymbol c = true -> c = 8377 \/ c = 36 \/ c = 8364 \/ c = 163 \/ c = 165.
Proof.
  unfold isSymbol, oneOf. change (u "₹$€£¥") with [8377; 36; 8364; 163; 165].
  cbn [existsb]. intros H. bool_lia.
Qed.

Lemma space_cases c :
  isSpace c = true ->
  c = 9 \/ c = 10 \/ c = 11 \/ c = 12 \/ c = 13 \/ c = 32 \/ c = 160 \/
  5760 <= c.
Proof.
  unfold isSpace, isWhiteSpace, isLineTerminator. intros H. bool_lia.
Qed.

Lemma not_space c :
  (33 <= c <= 159) \/ (161 <= c <= 5759) -> isSpace c = false.
Proof.
  intros H. destruct (isSpace c) eqn:E; [|reflexivity].
  apply space_cases in E. lia.
Qed.

Lemma unit_not_space c : isAmountUnit c = true -> isSpace c = false.
Proof. intros H. apply unit_cases in H. apply not_space. lia. Qed.

Lemma digit_not_space c : isDigit c = true -> isSpace c = false.
Proof. intros H. apply digit_cases in H. apply not_space. lia. Qed.



Lemma digit_unit c : isDigit c = true -> isAmountUnit c = true.
Proof. intros H. unfold isAmountUnit. now rewrite H. Qed.

(** ** The first alternative of a match *)

Lemma heads_map {A B : Type} (f : A -> B) l x :
  heads l x -> heads (map f l) (f x).
Proof. intros (tl & ->). now exists (map f tl). Qed.

Lemma heads_app {A : Type} (l l' : list A) x : heads l x -> heads (l ++ l') x.
Proof. intros (tl & ->). now exists (tl ++ l'). Qed.

Lemma heads_flat_map {A B : Type} (f : A -> list B) l x y :
  heads l x -> heads (f x) y -> heads (flat_map f l) y.
Proof.
  intros (tl & ->) (tl' & E). cbn [flat_map]. rewrite E.
  now exists (tl' ++ flat_map f tl).
Qed.

Lemma heads_exec r s w k rest :
  heads (run r s) (w, k, rest) -> exec r s = Some (w, k).
Proof. intros (tl & E). destruct s; cbn [exec]; now rewrite E. Qed.

Lemma star_head p a f :
  forallb p a = true -> stops p f -> heads (star p (a ++ f)) (a, [], f).
Proof.
  intros Ha Hf. induction a as [|c a IH]; cbn [app].
  - destruct f as [|d f]; cbn [star]; [now exists []|].
    cbn [stops] in Hf. rewrite Hf. now exists [].
  - cbn [forallb] in Ha. apply andb_true_iff in Ha. destruct Ha as [Hc Ha].
    cbn [star]. rewrite Hc. apply heads_app.
    exact (heads_map (fun '(w, k, r) => (c :: w, k, r)) _ _ (IH Ha)).
Qed.







(** ** The two-token pattern on a text of a known shape *)

Lemma flat_map_nil {A B : Type} (f : A -> list B) l :
  (forall x, In x l -> f x = []) -> flat_map f l = [].
Proof.
  induction l as [|x l IH]; intros H; [reflexivity|].
  cbn [flat_map]. rewrite (H x (or_introl eq_refl)), IH; [reflexivity|].
  intros y Hy. apply H. now right.
Qed.

Lemma run_Cat a b s :
  run (Cat a b) s =
  flat_map (fun '(w1, k1, r1) =>
              map (fun '(w2, k2, r2) => (w1 ++ w2, k1 ++ k2, r2)) (run b r1))
           (run a s).
Proof. reflexivity. Qed.

Lemma run_Grp i a s :
  run (Grp i a) s = map (fun '(w, k, r) => (w, (i, w) :: k, r)) (run a s).
Proof. reflexivity. Qed.

Lemma run_Chr_hit p c t : p c = true -> run (Chr p) (c :: t) = [([c], [], t)].
Proof. intros H. cbn [run]. now rewrite H. Qed.

Lemma run_Star p s : run (Star p) s = star p s.
Proof. reflexivity. Qed.

Lemma star_prefix p a b :
  forallb p a = true ->
  exists tl,
    star p (a ++ b) = map (fun '(w, k, r) => (a ++ w, k, r)) (star p b) ++ tl.
Proof.
  intros Ha. induction a as [|c a IH]; cbn [app].
  - exists []. rewrite app_nil_r. rewrite <- (map_id (star p b)) at 1.
    apply map_ext. now intros [[w k] r].
  - cbn [forallb] in Ha. apply andb_true_iff in Ha. destruct Ha as [Hc Ha].
    destruct (IH Ha) as (tl & E). cbn [star]. rewrite Hc, E.
    rewrite map_app, map_map, <- app_assoc. eexists. f_equal.
    apply map_ext. now intros [[w k] r].
Qed.

Lemma amount_heads_rest i j a rest :
  a <> [] -> forallb isAmountUnit a = true -> endsAmount rest ->
  heads (run (amountRe i j) (a ++ rest)) (a, [(i, a)], rest).
Proof.
  intros Ha Hall Hr. destruct a as [|c a]; [congruence|].
  cbn [forallb] in Hall. apply andb_true_iff in Hall. destruct Hall as [Hc Hall].
  assert (Hstop : stops isAmountUnit rest).
  { destruct rest as [|d rest]; [exact I|]. cbn [stops endsAmount] in *.
    unfold endsAmount in Hr. cbn [stops] in Hr.
    now apply orb_false_iff in Hr. }
  assert (H1 : heads (run (Plus isAmountUnit) ((c :: a) ++ rest)) (c :: a, [], rest)).
  { unfold Plus. cbn [run app]. rewrite Hc. cbn [flat_map]. apply heads_app.
    exact (heads_map (fun '(w2, k2, r2) => ([c] ++ w2, [] ++ k2, r2)) _ _
                     (star_head _ _ _ Hall Hstop)). }
  assert (H2 : run (Opt (Grp j (Cat (Chr (N.eqb (ch ".")))
                                    (Cat (Chr isDigit) (Chr isDigit))))) rest
               = [([], [], rest)]).
  { destruct rest as [|d rest]; [reflexivity|].
    unfold endsAmount in Hr. cbn [stops] in Hr. apply orb_false_iff in Hr.
    destruct Hr as [_ Hd]. cbn [run]. rewrite Hd. reflexivity. }
  unfold amountRe. rewrite run_Grp, run_Cat.
  destruct H1 as (tl & E1). rewrite E1. cbn [flat_map]. rewrite H2.
  cbn [map app]. rewrite app_nil_r. now eexists.
Qed.

Lemma token_heads i j k c a rest :
  isSymbol c = true -> a <> [] -> forallb isAmountUnit a = true ->
  endsAmount rest ->
  heads (run (tokenRe i j k) (c :: a ++ rest))
        (c :: a, [(i, [c]); (j, a)], rest).
Proof.
  intros Hc Ha Hall Hr.
  assert (Hs : star isSpace (a ++ rest) = [([], [], a ++ rest)]).
  { destruct a as [|d a]; [congruence|].
    cbn [forallb] in Hall. apply andb_true_iff in Hall. destruct Hall as [Hd _].
    cbn [app star]. now rewrite (unit_not_space _ Hd). }
  destruct (amount_heads_rest j k a rest Ha Hall Hr) as (tl & E).
  unfold tokenRe. rewrite run_Cat, run_Grp, (run_Chr_hit _ _ _ Hc).
  cbn [map flat_map]. rewrite run_Cat, run_Star, Hs.
  cbn [flat_map]. rewrite E. cbn [map app]. now eexists.
Qed.

Lemma digit_not_symbol c : isDigit c = true -> isSymbol c = false.
Proof.
  intros H. apply digit_cases in H. destruct (isSymbol c) eqn:E; [|reflexivity].
  apply symbol_cases in E. lia.
Qed.

Lemma token_fails i j k s : stops isSymbol s -> run (tokenRe i j k) s = [].
Proof.
  intros H. unfold tokenRe. rewrite run_Cat, run_Grp.
  destruct s as [|c s]; [reflexivity|]. cbn [stops] in H.
  cbn [run]. now rewrite H.
Qed.

Lemma digits_units d : forallb isDigit d = true -> forallb isAmountUnit d = true.
Proof.
  induction d as [|c d IH]; [reflexivity|]. cbn [forallb].
  intros H. apply andb_true_iff in H. destruct H as [Hc H].
  now rewrite (digit_unit _ Hc), IH.
Qed.

Lemma suffix_stops w r c d :
  forallb isDigit (c :: d) = true -> c :: d = w ++ r -> stops isSymbol r.
Proof.
  intros H E. destruct r as [|x r]; [exact I|]. cbn [stops].
  apply digit_not_symbol.
  rewrite E, forallb_app in H. apply andb_true_iff in H. destruct H as [_ H].
  cbn [forallb] in H. now apply andb_true_iff in H.
Qed.

(** The two-token pattern on a symbol and digits, a separator, and again a
    symbol and digits. *)
Lemma originalRe_pair c1 d1 sep c2 d2 :
  isSymbol c1 = true -> isSymbol c2 = true ->
  d1 <> [] -> d2 <> [] ->
  forallb isDigit d1 = true -> forallb isDigit d2 = true ->
  forallb dot sep = true -> endsAmount (sep ++ c2 :: d2) ->
  exists m, exec originalRe (c1 :: d1 ++ sep ++ c2 :: d2) = Some m /\
            group 1 m = Some [c1] /\ group 2 m = Some d1 /\
            group 4 m = Some [c2] /\ group 5 m = Some d2.
Proof.
  intros Hc1 Hc2 N1 N2 D1 D2 Hsep Hend.
  pose proof (amount_heads_rest 2 3 d1 _ N1 (digits_units _ D1) Hend) as (t1 & E1).
  pose proof (token_heads 4 5 6 c2 d2 [] Hc2 N2 (digits_units _ D2) I) as (t2 & E2).
  rewrite app_nil_r in E2.
  assert (Hs : star isSpace (d1 ++ sep ++ c2 :: d2) = [([], [], d1 ++ sep ++ c2 :: d2)]).
  { destruct d1 as [|x d1]; [congruence|].
    cbn [forallb] in D1. apply andb_true_iff in D1. destruct D1 as [Hx _].
    cbn [app star]. now rewrite (digit_not_space _ Hx). }
  assert (Hdot : exists tl,
    flat_map (fun '(w1, k1, r1) =>
                map (fun '(w2, k2, r2) => (w1 ++ w2, k1 ++ k2, r2))
                    (run (tokenRe 4 5 6) r1))
             (star dot (sep ++ c2 :: d2))
    = (sep ++ c2 :: d2, [(4%nat, [c2]); (5%nat, d2)], []) :: tl).
  { destruct (star_prefix dot sep (c2 :: d2) Hsep) as (tl & E). rewrite E.
    assert (Hc2d : dot c2 = true).
    { apply symbol_cases in Hc2. destruct Hc2 as [ -> | [ -> | [ -> | [ -> | -> ]]]]; reflexivity. }
    cbn [star]. rewrite Hc2d. rewrite map_app, map_map, !flat_map_app.
    rewrite flat_map_nil.
    - cbn [map flat_map app]. rewrite E2. cbn [map app].
      rewrite !app_nil_r. now eexists.
    - intros [[w k] r] Hin. apply in_map_iff in Hin.
      destruct Hin as ([[w' k'] r'] & Heq & Hin). inversion Heq; subst.
      apply star_sound in Hin. destruct Hin as (Hd & _ & _).
      rewrite token_fails; [reflexivity|].
      destruct d2 as [|x d2]; [congruence|]. exact (suffix_stops _ _ _ _ D2 Hd). }
  destruct Hdot as (tl & Edot).
  exists (c1 :: d1 ++ sep ++ c2 :: d2,
          [(1%nat, [c1]); (2%nat, d1); (4%nat, [c2]); (5%nat, d2)]).
  split.
  - apply (heads_exec _ _ _ _ []).
    unfold originalRe. rewrite run_Cat, run_Grp, (run_Chr_hit _ _ _ Hc1).
    cbn [map flat_map]. rewrite run_Cat, run_Star, Hs.
    cbn [flat_map]. rewrite run_Cat, E1. cbn [flat_map].
    fold (tokenRe 4 5 6). rewrite run_Cat, run_Star, Edot.
    cbn [map app]. now eexists.
  - repeat split.
Qed.

Lemma span_all p d : forallb p d = true -> span p d = (d, []).
Proof.
  induction d as [|c d IH]; [reflexivity|]. cbn [forallb span].
  intros H. apply andb_true_iff in H. destruct H as [Hc H].
  now rewrite Hc, (IH H).
Qed.

Lemma digits_no_comma d :
  forallb isDigit d = true -> filter (fun c => negb (c =? ch ",")) d = d.
Proof.
  induction d as [|c d IH]; [reflexivity|]. cbn [forallb filter].
  intros H. apply andb_true_iff in H. destruct H as [Hc H].
  rewrite (IH H). apply digit_cases in Hc.
  change (ch ",") with 44. destruct (N.eqb_spec c 44); [lia|reflexivity].
Qed.

Lemma tokenValue_digits d :
  d <> [] -> forallb isDigit d = true -> tokenValue d = Num (digitsValue d).
Proof.
  intros N D. unfold tokenValue, parseFloat.
  rewrite (digits_no_comma _ D), (span_all _ _ D), app_nil_r.
  destruct d; [congruence|reflexivity].
Qed.

Lemma trim_ends c l x :
  isSpace c = false -> isSpace x = false ->
  trim (c :: l ++ [x]) = c :: l ++ [x].
Proof.
  intros Hc Hx. unfold trim. rewrite (trimStart_keep _ _ Hc).
  change (c :: l ++ [x]) with ((c :: l) ++ [x]). now apply trimEnd_snoc.
Qed.

Lemma count_cons c x s :
  countMatches c (x :: s)
  = ((if (c =? x)%N then 1 else 0) + countMatches c s)%nat.
Proof. unfold countMatches. cbn [filter]. now destruct (c =? x). Qed.

Lemma count_app c s t :
  countMatches c (s ++ t) = (countMatches c s + countMatches c t)%nat.
Proof. unfold countMatches. now rewrite filter_app, length_app. Qed.

Lemma dollar_pair_text d1 sep d2 :
  d1 <> [] -> d2 <> [] ->
  forallb isDigit d1 = true -> forallb isDigit d2 = true ->
  forallb dot sep = true -> endsAmount (sep ++ dollar :: d2) ->
  let text := dollar :: d1 ++ sep ++ dollar :: d2 in
  trim text = text /\ hasDiscountOf text = true /\
  (exists m, exec priceRe text = Some m /\ group 1 m = Some [dollar]) /\
  (exists m, exec originalRe text = Some m /\
             group 2 m = Some d1 /\ group 5 m = Some d2).
Proof.
  intros N1 N2 D1 D2 Hsep Hend text. subst text. repeat split.
  - destruct (exists_last N2) as (l & x & ->).
    rewrite forallb_app in D2. apply andb_true_iff in D2. destruct D2 as [_ Dx].
    cbn [forallb] in Dx. apply andb_true_iff in Dx. destruct Dx as [Dx _].
    replace (dollar :: d1 ++ sep ++ dollar :: l ++ [x])
      with (dollar :: (d1 ++ sep ++ dollar :: l) ++ [x])
      by (now rewrite <- !app_assoc).
    apply trim_ends; [reflexivity|now apply digit_not_space].
  - unfold hasDiscountOf. apply andb_true_iff. split.
    { change (u "$") with [dollar]. cbn [includes startsWith].
      rewrite N.eqb_refl. reflexivity. }
    apply Nat.ltb_lt. rewrite count_cons, !count_app, count_cons.
    change (ch "$" =? dollar) with true. cbn iota. lia.
  - destruct (token_heads 1 2 3 dollar d1 (sep ++ dollar :: d2) eq_refl N1
                (digits_units _ D1) Hend) as (tl & E).
    eexists. split; [apply (heads_exec _ _ _ _ _ (ex_intro _ tl E))|reflexivity].
  - destruct (originalRe_pair dollar d1 sep dollar d2 eq_refl eq_refl
                N1 N2 D1 D2 Hsep Hend) as (m & E & _ & G2 & _ & G5).
    exists m. auto.
Qed.

End PriceFacts.
Import PriceFacts.

(** * Properties of the price normalizer *)

Module PriceProps.

Local Open Scope Q_scope.

Lemma gt_true x y : gt (Num x) (Num y) = true <-> y < x.
Proof.
  unfold gt. rewrite negb_true_iff, <- not_true_iff_false, Qle_bool_iff.
  split; [apply Qnot_le_lt|apply Qlt_not_le].
Qed.

Lemma gt_false x y : gt (Num x) (Num y) = false <-> x <= y.
Proof.
  unfold gt. rewrite negb_false_iff. apply Qle_bool_iff.
Qed.

Lemma hasDiscount_nonempty text :
  hasDiscountOf (trim text) = true -> exists c t, text = c :: t.
Proof.
  destruct text as [|c t]; [discriminate|eauto].
Qed.

Lemma hasDiscountOf_count s :
  (countMatches (ch "$") s <= 1)%nat -> hasDiscountOf s = false.
Proof.
  intros H. unfold hasDiscountOf.
  destruct (1 <? countMatches (ch "$") s)%nat eqn:E;
    [|now rewrite andb_false_r].
  apply Nat.ltb_lt in E. lia.
Qed.

(** A text whose trimmed form has at most one dollar sign is never
    treated as a discount pair, whatever other symbols it repeats. *)
Lemma not_discounted text hint :
  (countMatches dollar (trim text) <= 1)%nat ->
  discounted (parsePrice text hint) = false /\
  originalAmount (parsePrice text hint) = None.
Proof.
  intros H. destruct text as [|c t]; [split; reflexivity|].
  rewrite parsePrice_eq. unfold priceOf.
  rewrite (hasDiscountOf_count _ H). split; reflexivity.
Qed.

Lemma count_includes c s :
  (0 < countMatches c s)%nat -> includes s [c] = true.
Proof.
  induction s as [|x s IH]; [cbn; lia|].
  rewrite count_cons. cbn [includes startsWith].
  destruct (c =? x); [reflexivity|].
  cbn [Nat.add andb orb]. exact IH.
Qed.

Lemma hasDiscountOf_many s :
  (1 < countMatches dollar s)%nat -> hasDiscountOf s = true.
Proof.
  intros H. unfold hasDiscountOf. apply andb_true_iff. split.
  - apply (count_includes dollar). lia.
  - now apply Nat.ltb_lt.
Qed.

(** C1 (counterexamples). "€50 €25" contains two euro-prefixed amounts,
    yet [parsePrice] returns [discounted = false], no [originalAmount] and
    the first amount, 50: the discount branch is entered only when the text
    has more than one dollar sign, although the two-token pattern itself
    would match this text and capture 50 and 25.  "$20 (in US$)" has two
    dollar signs but a single symbol-prefixed amount: [discounted] is true
    and no pair is extracted. *)
Lemma symbol_pair_not_extracted :
  (let p := parsePrice (u "€50 €25") None in
   discounted p = false /\ originalAmount p = None /\
   amount p = Num (50 # 1) /\ currency p = u "EUR" /\
   exists m, exec originalRe (trim (u "€50 €25")) = Some m /\
             group 2 m = Some (u "50") /\ group 5 m = Some (u "25")) /\
  (let p := parsePrice (u "$20 (in US$)") None in
   discounted p = true /\ originalAmount p = None /\
   amount p = Num (20 # 1) /\ exec originalRe (trim (u "$20 (in US$)")) = None).
Proof.
  vm_compute. repeat split. eexists; repeat split.
Qed.

(** C1 (amended). For every price text whose trimmed form contains more
    than one dollar sign, [parsePrice] returns [discounted = true]; when
    the two-token pattern matches the text, it captures two symbols and two
    amounts and [originalAmount], [amount] and [formatted] are set from
    them, one token giving the original amount and the other the current
    one; when the pattern does not match, no [originalAmount] is
    returned. *)
Theorem dollar_pair_discounted text hint :
  (1 < countMatches dollar (trim text))%nat ->
  let p := parsePrice text hint in
  discounted p = true /\
  (forall m,
      exec originalRe (trim text) = Some m ->
      exists c1 w1 c2 w2,
        group 1 m = Some [c1] /\ group 2 m = Some w1 /\
        group 4 m = Some [c2] /\ group 5 m = Some w2 /\
        isSymbol c1 = true /\ amountShape w1 /\
        isSymbol c2 = true /\ amountShape w2 /\
        ((originalAmount p = Some (tokenValue w1) /\
          amount p = tokenValue w2 /\ formatted p = c2 :: w2) \/
         (originalAmount p = Some (tokenValue w2) /\
          amount p = tokenValue w1 /\ formatted p = c1 :: w1))) /\
  (exec originalRe (trim text) = None -> originalAmount p = None).
Proof.
  intros H. apply hasDiscountOf_many in H.
  destruct (hasDiscount_nonempty _ H) as (c & t & ->).
  cbv zeta. rewrite parsePrice_eq. unfold priceOf. rewrite H.
  repeat split.
  - now destruct (exec originalRe (trim (c :: t))).
  - intros m E. rewrite E.
    destruct (originalRe_groups _ _ E)
      as (c1 & w1 & c2 & w2 & G1 & S1 & G2 & A1 & G4 & S2 & G5 & A2).
    exists c1, w1, c2, w2. rewrite G1, G2, G4, G5. cbn [tpl]. cbv zeta.
    repeat (split; [assumption || reflexivity|]).
    destruct (gt (tokenValue w1) (tokenValue w2));
      cbn [fst snd originalAmount amount formatted]; [left|right];
      repeat split.
  - intros E. now rewrite E.
Qed.

Lemma dollar_pair_discounted_witness :
  discounted (parsePrice (u "Was $80.00, now $59.99") None) = true.
Proof.
  apply (dollar_pair_discounted (u "Was $80.00, now $59.99") None).
  vm_compute. lia.
Defined.

(** C2 (counterexample). The text "$0 $0" contains two dollar-prefixed
    amounts, both of value 0; [parsePrice] returns them as [amount] and
    [originalAmount] but no [discountPercentage] at all, so the percentage
    is not the rounded quotient the claim gives. *)
Lemma zero_pair_no_percentage :
  let p := parsePrice (u "$0 $0") None in
  discounted p = true /\ amount p = Num (0 # 1) /\
  originalAmount p = Some (Num (0 # 1)) /\ discountPercentage p = None.
Proof. vm_compute. repeat split. Qed.

(** What the discount branch returns, in terms of the two captured
    values. *)
Lemma discount_branch text hint m v1 v2 :
  hasDiscountOf (trim text) = true ->
  exec originalRe (trim text) = Some m ->
  tokenValue (tpl (group 2 m)) = Num v1 ->
  tokenValue (tpl (group 5 m)) = Num v2 ->
  let p := parsePrice text hint in
  discounted p = true /\
  same (amount p) (Num (Qmin v1 v2)) /\
  (exists o, originalAmount p = Some o /\ same o (Num (Qmax v1 v2))) /\
  (0 < Qmax v1 v2 ->
   discountPercentage p
   = Some (Double.percentage (Num (Qmax v1 v2)) (Num (Qmin v1 v2)))) /\
  (Qmax v1 v2 <= 0 -> discountPercentage p = None).
Proof.
  intros Hd Hm H1 H2.
  destruct (hasDiscount_nonempty _ Hd) as (c & t & ->).
  rewrite parsePrice_eq. unfold priceOf. rewrite Hd, Hm, H1, H2.
  cbv zeta. split; [reflexivity|].
  destruct (gt (Num v1) (Num v2)) eqn:G;
    cbn [fst snd amount originalAmount discountPercentage].
  - apply gt_true in G. pose proof (Qlt_le_weak _ _ G) as L.
    pose proof (Q.min_r _ _ L) as Emin. pose proof (Q.max_l _ _ L) as Emax.
    split; [cbn [same]; now symmetry|].
    split; [eexists; split; [reflexivity|cbn [same]; now symmetry]|].
    split.
    + intros Hpos. rewrite Emax in Hpos.
      assert (Gp : gt (Num v1) (Num 0) = true) by now apply gt_true.
      rewrite Gp. f_equal.
      apply DoubleFacts.percentage_comp; now symmetry.
    + intros Hle. rewrite Emax in Hle.
      assert (Gp : gt (Num v1) (Num 0) = false) by now apply gt_false.
      now rewrite Gp.
  - apply gt_false in G.
    pose proof (Q.min_l _ _ G) as Emin. pose proof (Q.max_r _ _ G) as Emax.
    split; [cbn [same]; now symmetry|].
    split; [eexists; split; [reflexivity|cbn [same]; now symmetry]|].
    split.
    + intros Hpos. rewrite Emax in Hpos.
      assert (Gp : gt (Num v2) (Num 0) = true) by now apply gt_true.
      rewrite Gp. f_equal.
      apply DoubleFacts.percentage_comp; now symmetry.
    + intros Hle. rewrite Emax in Hle.
      assert (Gp : gt (Num v2) (Num 0) = false) by now apply gt_false.
      now rewrite Gp.
Qed.

(** The currency of a text in which a symbol-prefixed token is found. *)
Lemma currency_found text hint m :
  text <> [] -> exec priceRe (trim text) = Some m ->
  currency (parsePrice text hint) = getCurrencyCode (tpl (group 1 m)).
Proof.
  intros Hne H. destruct text as [|c t]; [congruence|].
  rewrite parsePrice_eq. unfold priceOf. rewrite H. cbv zeta.
  destruct (if hasDiscountOf (trim (c :: t))
            then exec originalRe (trim (c :: t)) else None); reflexivity.
Qed.

(** C2 (amended). Whenever the discount branch is taken, that is, the
    trimmed text has more than one dollar sign and the two-token pattern
    matches it with token values [v1] and [v2], [parsePrice] returns
    [amount = min v1 v2] and [originalAmount = max v1 v2] whatever the order
    of the tokens; when [max > 0], [discountPercentage] is
    [Math.round ((max - min) / max * 100)] as the doubles evaluate it, the
    subtraction, the division and the product each rounding to the nearest
    double; and there is no [discountPercentage] when [max <= 0].  This is
    the case of every text made of a dollar sign and digits, a separator
    without line terminator that does not begin with a digit, a comma or a
    point, and again a dollar sign and digits; "$50 $25" and "$25 $50" both
    yield amount 25, originalAmount 50, currency "USD" and
    discountPercentage 50.  The rounding of the doubles shows: "$40 $17"
    yields 57, where the exact quotient, 57.5, rounds to 58. *)
Theorem discount_pair_min_max :
  (forall text hint m v1 v2,
      hasDiscountOf (trim text) = true ->
      exec originalRe (trim text) = Some m ->
      tokenValue (tpl (group 2 m)) = Num v1 ->
      tokenValue (tpl (group 5 m)) = Num v2 ->
      let p := parsePrice text hint in
      same (amount p) (Num (Qmin v1 v2)) /\
      (exists o, originalAmount p = Some o /\ same o (Num (Qmax v1 v2))) /\
      (0 < Qmax v1 v2 ->
       discountPercentage p
       = Some (Double.percentage (Num (Qmax v1 v2)) (Num (Qmin v1 v2)))) /\
      (Qmax v1 v2 <= 0 -> discountPercentage p = None)) /\
  (forall d1 sep d2 hint,
      d1 <> [] -> d2 <> [] ->
      forallb isDigit d1 = true -> forallb isDigit d2 = true ->
      forallb dot sep = true -> endsAmount (sep ++ dollar :: d2) ->
      let p := parsePrice (dollar :: d1 ++ sep ++ dollar :: d2) hint in
      let v1 := digitsValue d1 in
      let v2 := digitsValue d2 in
      discounted p = true /\ currency p = u "USD" /\
      same (amount p) (Num (Qmin v1 v2)) /\
      (exists o, originalAmount p = Some o /\ same o (Num (Qmax v1 v2))) /\
      (0 < Qmax v1 v2 ->
       discountPercentage p
       = Some (Double.percentage (Num (Qmax v1 v2)) (Num (Qmin v1 v2))))) /\
  (forall text, text = u "$50 $25" \/ text = u "$25 $50" ->
      let p := parsePrice text None in
      amount p = Num (25 # 1) /\ originalAmount p = Some (Num (50 # 1)) /\
      currency p = u "USD" /\ discountPercentage p = Some (Num (50 # 1))) /\
  (let p := parsePrice (u "$40 $17") None in
   amount p = Num (17 # 1) /\ originalAmount p = Some (Num (40 # 1)) /\
   discountPercentage p = Some (Num (57 # 1)) /\
   round (Num ((40 - 17) / 40 * 100)) = Num (58 # 1)).
Proof.
  split; [|split; [|split]].
  - intros text hint m v1 v2 Hd Hm H1 H2.
    exact (proj2 (discount_branch text hint m v1 v2 Hd Hm H1 H2)).
  - intros d1 sep d2 hint N1 N2 D1 D2 Hsep Hend.
    destruct (dollar_pair_text d1 sep d2 N1 N2 D1 D2 Hsep Hend)
      as (Ht & Hd & (pm & Ep & G1) & (m & Em & G2 & G5)).
    cbv zeta in Ht, Hd, Ep, Em. rewrite <- Ht in Hd, Ep, Em.
    assert (V1 : tokenValue (tpl (group 2 m)) = Num (digitsValue d1))
      by (rewrite G2; now apply tokenValue_digits).
    assert (V2 : tokenValue (tpl (group 5 m)) = Num (digitsValue d2))
      by (rewrite G5; now apply tokenValue_digits).
    destruct (discount_branch _ hint m _ _ Hd Em V1 V2)
      as (Hdisc & Ha & Ho & Hp & _).
    cbv zeta. repeat split; auto.
    rewrite (currency_found _ hint pm); [now rewrite G1|discriminate|exact Ep].
  - intros text [-> | ->]; vm_compute; repeat split.
  - vm_compute. repeat split.
Qed.

Lemma discount_pair_min_max_witness :
  let p := parsePrice (u "$1,299.00 now $999.50") None in
  same (amount p) (Num (Qmin (129900 # 100) (99950 # 100))) /\
  (exists o, originalAmount p = Some o /\
             same o (Num (Qmax (129900 # 100) (99950 # 100)))).
Proof.
  destruct (proj1 discount_pair_min_max (u "$1,299.00 now $999.50") None
              (u "$1,299.00 now $999.50",
               [(1%nat, u "$"); (2%nat, u "1,299.00"); (3%nat, u ".00");
                (4%nat, u "$"); (5%nat, u "999.50"); (6%nat, u ".50")])
              (129900 # 100) (99950 # 100))
    as (Ha & Ho & _); [reflexivity..|].
  split; [exact Ha|exact Ho].
Defined.

Lemma gt_asym a b : gt a b = true -> gt b a = false.
Proof.
  destruct a as [x|], b as [y|]; try discriminate; try reflexivity.
  intros G. apply gt_true in G. apply gt_false. now apply Qlt_le_weak.
Qed.

(** C5 (counterexample). For "$25 $25" [parsePrice] returns
    [discounted = true] with [originalAmount] present and equal to
    [amount], hence not strictly greater. *)
Lemma equal_pair_not_strict :
  let p := parsePrice (u "$25 $25") None in
  discounted p = true /\ originalAmount p = Some (Num (25 # 1)) /\
  amount p = Num (25 # 1) /\ gt (Num (25 # 1)) (amount p) = false.
Proof. vm_compute. repeat split. Qed.

(** C5 (amended). For every price record produced by [parsePrice] in which
    [discounted] is true and [originalAmount] is present, [amount] is not
    greater than [originalAmount]: when both are numbers,
    [originalAmount >= amount]. *)
Theorem original_not_below_amount text hint o :
  discounted (parsePrice text hint) = true ->
  originalAmount (parsePrice text hint) = Some o ->
  gt (amount (parsePrice text hint)) o = false /\
  (forall x y, o = Num x -> amount (parsePrice text hint) = Num y -> y <= x).
Proof.
  destruct text as [|c t]; [discriminate|].
  rewrite parsePrice_eq. unfold priceOf.
  destruct (hasDiscountOf (trim (c :: t))); [|discriminate].
  destruct (exec originalRe (trim (c :: t))) as [m|]; [|discriminate].
  cbv zeta.
  generalize (tokenValue (tpl (group 2 m))) (tokenValue (tpl (group 5 m))).
  intros p1 p2.
  destruct (gt p1 p2) eqn:G; cbn [fst snd amount originalAmount discounted];
    intros _ Ho; inversion Ho; subst o; clear Ho.
  - apply gt_asym in G. split; [exact G|].
    intros x y Ex Ey. rewrite Ex, Ey in G. now apply gt_false.
  - split; [exact G|].
    intros x y Ex Ey. rewrite Ex, Ey in G. now apply gt_false.
Qed.

Lemma original_not_below_amount_witness :
  gt (amount (parsePrice (u "$50 $25") None)) (Num (50 # 1)) = false.
Proof.
  apply (original_not_below_amount (u "$50 $25") None (Num (50 # 1)));
    reflexivity.
Defined.

(** C10. When no symbol-prefixed token matches (empty input, bare-number
    fallback, or no number at all), the [currency] field is the hint string
    itself when a non-empty hint is given and "USD" otherwise;
    [getCurrencyCode] is applied exactly when a symbol-prefixed token is
    found, to the matched symbol; so the hint "€" comes back verbatim. *)
Theorem currency_without_symbol :
  (forall text hint,
      text = [] \/ exec priceRe (trim text) = None ->
      currency (parsePrice text hint) =
      match hint with
      | Some (c :: h) => c :: h
      | _ => u "USD"
      end) /\
  (forall text hint m,
      text <> [] -> exec priceRe (trim text) = Some m ->
      currency (parsePrice text hint) = getCurrencyCode (tpl (group 1 m))) /\
  currency (parsePrice (u "50") (Some (u "€"))) = u "€" /\
  currency (parsePrice [] (Some (u "€"))) = u "€" /\
  currency (parsePrice (u "€50") (Some (u "€"))) = u "EUR".
Proof.
  split; [|split; [|vm_compute; repeat split]].
  - intros text hint H.
    destruct text as [|c t]; [reflexivity|].
    destruct H as [H|H]; [discriminate|].
    rewrite parsePrice_eq. unfold priceOf. rewrite H. cbv zeta.
    destruct (if hasDiscountOf (trim (c :: t))
              then exec originalRe (trim (c :: t)) else None);
      destruct (exec numericRe (trim (c :: t))); reflexivity.
  - intros text hint m Hne H. now apply currency_found.
Qed.

Lemma currency_without_symbol_witness :
  currency (parsePrice (u "1,234.50 only") (Some (u "EUR"))) = u "EUR".
Proof.
  apply (proj1 currency_without_symbol (u "1,234.50 only") (Some (u "EUR"))).
  right. reflexivity.
Defined.

Lemma shape_has_unit w : amountShape w -> existsb isAmountUnit w = true.
Proof.
  intros (a & f & -> & Ha & Hall & _).
  destruct a as [|c a]; [congruence|].
  cbn [app existsb forallb] in *. apply andb_true_iff in Hall.
  destruct Hall as [-> _]. reflexivity.
Qed.

Lemma priceRe_has_unit w : lang priceRe w -> existsb isAmountUnit w = true.
Proof.
  unfold priceRe. cbn [lang].
  intros (w1 & w2 & -> & _ & w3 & w4 & -> & _ & L).
  rewrite !existsb_app. rewrite (shape_has_unit _ (amount_lang 2 3 _ L)).
  now rewrite !orb_true_r.
Qed.

Lemma numericRe_has_unit w : lang numericRe w -> existsb isAmountUnit w = true.
Proof.
  intros L. exact (shape_has_unit _ (amount_lang 1 2 _ L)).
Qed.

Lemma originalRe_has_unit w :
  lang originalRe w -> existsb isAmountUnit w = true.
Proof.
  unfold originalRe. cbn [lang].
  intros (w1 & w2 & -> & _ & w3 & w4 & -> & _ & w5 & w6 & -> & L & _).
  rewrite !existsb_app. rewrite (shape_has_unit _ (amount_lang 2 3 _ L)).
  now rewrite !orb_true_r.
Qed.

Lemma noAmountUnit_exec r s :
  (forall w, lang r w -> existsb isAmountUnit w = true) ->
  noAmountUnit s = true -> exec r s = None.
Proof.
  intros Hr Hs. destruct (exec r s) as [[w k]|] eqn:E; [exfalso|reflexivity].
  destruct (exec_sound _ _ _ _ E) as (pre & rest & tl & -> & Hrun).
  destruct (run_sound r (w ++ rest) w k rest) as (_ & L & _);
    [rewrite Hrun; left; reflexivity|].
  apply Hr in L. unfold noAmountUnit in Hs.
  rewrite !forallb_app in Hs.
  apply andb_true_iff in Hs; destruct Hs as [_ Hs].
  apply andb_true_iff in Hs; destruct Hs as [Hs _].
  apply existsb_exists in L. destruct L as (c & Hin & Hc).
  rewrite forallb_forall in Hs. specialize (Hs _ Hin).
  rewrite Hc in Hs. discriminate.
Qed.

Lemma trimStart_incl s c : In c (trimStart s) -> In c s.
Proof.
  induction s as [|d t IH]; cbn [trimStart]; [auto|].
  destruct (isSpace d); [right; auto|auto].
Qed.

Lemma trim_incl s c : In c (trim s) -> In c s.
Proof.
  unfold trim, trimEnd. intros H.
  apply in_rev, trimStart_incl, in_rev in H. now apply trimStart_incl.
Qed.

Lemma noAmountUnit_trim s : noAmountUnit s = true -> noAmountUnit (trim s) = true.
Proof.
  unfold noAmountUnit. rewrite !forallb_forall.
  intros H c Hc. apply H. now apply trim_incl.
Qed.

(** C9 (counterexamples). Four texts without any numeric token: for "$$$"
    the record has [discounted = true]; for " N/A " the [formatted] field
    is the trimmed text and not the input; for the empty text it is
    "$0.00"; for "a, b" the lone comma is taken as an amount and [amount]
    is NaN instead of 0. *)
Lemma no_token_not_passthrough :
  discounted (parsePrice (u "$$$") None) = true /\
  (formatted (parsePrice (u " N/A ") None) = u "N/A" /\
   u "N/A" <> u " N/A ") /\
  (formatted (parsePrice [] None) = u "$0.00" /\ u "$0.00" <> []) /\
  amount (parsePrice (u "a, b") None) = NaN.
Proof. vm_compute. repeat split; discriminate. Qed.

(** C9 (amended). The [try] block of [parsePrice] never throws on a string,
    so a record computed by it is always returned; and for every input text
    containing no digit and no comma the record has [amount = 0], its
    [formatted] field is the trimmed input text ("$0.00" for the empty
    input), and [discounted] is false unless the trimmed text contains more
    than one dollar sign. *)
Theorem no_amount_unit_default :
  (forall text hint, exists p, parsePriceTry text hint = Some p) /\
  (forall text hint,
      noAmountUnit text = true ->
      let p := parsePrice text hint in
      amount p = Num 0 /\
      formatted p = match text with
                    | [] => u "$0.00"
                    | _ :: _ => trim text
                    end /\
      discounted p = hasDiscountOf (trim text) /\
      ((countMatches (ch "$") (trim text) <= 1)%nat -> discounted p = false)).
Proof.
  split.
  - intros text hint. rewrite parsePriceTry_eq. eauto.
  - intros text hint H p.
    assert (Hd : discounted p = hasDiscountOf (trim text) ->
                 (countMatches (ch "$") (trim text) <= 1)%nat ->
                 discounted p = false)
      by (intros -> ?; now apply hasDiscountOf_count).
    destruct text as [|c t].
    + subst p. repeat split.
    + apply noAmountUnit_trim in H.
      assert (E : priceOf (trim (c :: t)) hint =
                  mkPrice (Num 0) (orElse hint (u "USD")) (trim (c :: t))
                          (hasDiscountOf (trim (c :: t))) None None None).
      { unfold priceOf.
        rewrite (noAmountUnit_exec priceRe _ priceRe_has_unit H).
        rewrite (noAmountUnit_exec numericRe _ numericRe_has_unit H).
        rewrite (noAmountUnit_exec originalRe _ originalRe_has_unit H).
        cbv zeta. destruct (hasDiscountOf (trim (c :: t))); reflexivity. }
      revert Hd. subst p. rewrite parsePrice_eq, E. cbn [amount formatted discounted].
      intros Hd. repeat split. exact (Hd eq_refl).
Qed.

Lemma no_amount_unit_default_witness :
  amount (parsePrice (u "Call for price") None) = Num 0 /\
  formatted (parsePrice (u "Call for price") None) = u "Call for price".
Proof.
  destruct (proj2 no_amount_unit_default (u "Call for price") None)
    as (Ha & Hf & _); [reflexivity|].
  split; [exact Ha|exact Hf].
Defined.







(** ** Re-reading the fallback form under a plain hint *)

















End PriceProps.

(** * Properties of the rating normalizer *)

Module RatingProps.

(** The alternatives of the two literal patterns at a given position. *)
Lemma run_ratingRe c t :
  run ratingRe (c :: t) =
  (if isDigit c && pointDigit t
   then [(c :: firstn 2 t, [(1%nat, c :: firstn 2 t)], skipn 2 t)] else [])
  ++ (if lit05 c then [([c], [(1%nat, [c])], t)] else []).
Proof.
  unfold ratingRe, lit05. cbn [run]. rewrite map_app. f_equal.
  - destruct (isDigit c); cbn [andb flat_map map app]; [|reflexivity].
    destruct t as [|p [|e t]]; cbn [pointDigit map flat_map app]; try reflexivity.
    + destruct (ch "." =? p); reflexivity.
    + destruct (ch "." =? p); cbn [andb map flat_map app]; [|reflexivity].
      destruct (isDigit e); reflexivity.
  - destruct (range (ch "0") (ch "5") c); reflexivity.
Qed.

Lemma run_specRatingRe c t :
  run specRatingRe (c :: t) =
  if lit05 c
  then (if pointDigit t
        then [(c :: firstn 2 t, [(1%nat, firstn 2 t)], skipn 2 t)] else [])
       ++ [([c], [], t)]
  else [].
Proof.
  unfold specRatingRe, lit05. cbn [run].
  destruct (range (ch "0") (ch "5") c); cbn [flat_map map app]; [|reflexivity].
  rewrite app_nil_r, map_app. f_equal.
  destruct t as [|p [|e t]]; cbn [pointDigit map flat_map app]; try reflexivity.
  - destruct (ch "." =? p); reflexivity.
  - destruct (ch "." =? p); cbn [andb map flat_map app]; [|reflexivity].
    destruct (isDigit e); reflexivity.
Qed.

Lemma lit05_digit c : lit05 c = true -> isDigit c = true.
Proof.
  unfold lit05, isDigit, range. change (ch "0") with 48. change (ch "5") with 53.
  intros H. apply andb_true_iff in H. destruct H as [A B].
  apply N.leb_le in A, B. apply andb_true_iff. split; apply N.leb_le; lia.
Qed.

(** When the literal found by the source's pattern begins with 0 to 5, it
    is the literal found by the pattern of the specification, and when the
    source's pattern finds nothing, so does the other. *)
Lemma rating_literal_agree s :
  literalInRange s = true ->
  literalOf (exec ratingRe s) 1 = literalOf (exec specRatingRe s) 0.
Proof.
  unfold literalInRange.
  induction s as [|c t IH]; [reflexivity|].
  cbn [exec]. rewrite run_ratingRe, run_specRatingRe.
  destruct (lit05 c) eqn:R.
  - rewrite (lit05_digit _ R). cbn [andb].
    destruct (pointDigit t); reflexivity.
  - destruct (isDigit c && pointDigit t) eqn:D; cbn [app].
    + cbn [group lookup Nat.eqb fst snd tpl]. rewrite R. discriminate.
    + destruct t as [|p t']; [reflexivity|]. exact IH.
Qed.

(** The rules are tried in order and never combined: in "80%" the digit 0
    is a numeric literal, so the percentage rule is not reached. *)
Example rating_percent_shadowed :
  parseRating (u "80%") = Num (0 # 1) /\ parseRating (u "99%") = Num (495 # 100) /\
  same (parseRating (u "***--")) (Num 3) /\ parseRating (u "n/a") = Num 0.
Proof. vm_compute. repeat split. Qed.

(** C3 (defect of the code). [parseRating] is documented to return a
    rating value between 0 and 5, but on "9.5" it returns 9.5, the literal
    matched by the first branch of its numeric pattern, and on "6789%" it
    returns 339.45 through the percentage rule; both exceed 5. *)
Theorem rating_above_five :
  parseRating (u "9.5") = Num (95 # 10) /\
  gt (parseRating (u "9.5")) (Num 5) = true /\
  parseRating (u "6789%") = Num (33945 # 100) /\
  gt (parseRating (u "6789%")) (Num 5) = true.
Proof. vm_compute. repeat split. Qed.

(** A literal found by the numeric pattern that does not begin with a
    digit 0 to 5 is a decimal from 6.0 to 9.9: the rating returned is above
    the documented range. *)
Lemma literal_out_of_range text :
  literalInRange text = false -> gt (parseRating text) (Num 5) = true.
Proof.
  unfold literalInRange, parseRating.
  destruct (exec ratingRe text) as [[w k]|] eqn:E; [|discriminate].
  destruct (exec_sound _ _ _ _ E) as (pre & rest & tl & _ & Hr).
  destruct (w ++ rest) as [|c t] eqn:Ew; [discriminate|].
  rewrite run_ratingRe in Hr.
  destruct (isDigit c && pointDigit t) eqn:D.
  - cbn [app] in Hr. injection Hr as <- <- _ _.
    cbn [group lookup Nat.eqb fst snd tpl]. intros L.
    apply andb_true_iff in D. destruct D as [Dc Dp].
    destruct t as [|p [|e t']]; try discriminate.
    cbn [pointDigit] in Dp. apply andb_true_iff in Dp. destruct Dp as [Pp De].
    apply N.eqb_eq in Pp. subst p. cbn [firstn].
    unfold parseFloat. cbn [span]. rewrite Dc.
    change (isDigit (ch ".")) with false. cbv iota beta.
    change (ch "." =? 46) with true. cbv iota. cbn [span]. rewrite De.
    cbn [fst app List.length].
    unfold gt. apply negb_true_iff.
    destruct (Qle_bool _ _) eqn:Q; [|reflexivity].
    apply Qle_bool_iff in Q. unfold Qle in Q. cbn [Qnum Qden] in Q.
    unfold lit05, isDigit, range in *.
    change (ch "0") with 48 in L. change (ch "5") with 53 in L.
    apply andb_true_iff in Dc. destruct Dc as [C1 C2].
    apply N.leb_le in C1, C2.
    apply andb_false_iff in L.
    assert (C3 : 54 <= c).
    { destruct L as [L|L]; apply N.leb_gt in L; lia. }
    unfold decimal in Q. cbn [fold_left] in Q.
    change (Z.pos (Z.to_pos (10 ^ Z.of_nat 1))) with 10%Z in Q. lia.
  - cbn [app] in Hr. destruct (lit05 c) eqn:L; [|discriminate].
    injection Hr as <- <- _ _.
    cbn [group lookup Nat.eqb fst snd tpl]. congruence.
Qed.

(** C4 (defect of the code). [parseRating] applies the first matching
    rule only, and its rules are those of the claim wherever the result
    stays in the documented range 0 to 5: (a) whenever the numeric literal
    found by its pattern [/([0-9]\.[0-9]|[0-5])/] begins with a digit 0 to 5,
    that literal is the first match of [/[0-5](\.[0-9])?/] and is returned
    as a number; when no numeric literal is found, (b) if filled or empty
    markers are present the result is filled / (filled + empty) * 5, and
    "★★★☆☆" yields 3; otherwise (c) a percentage token N% yields
    round (N / 20 * 100) / 100; otherwise (d) 0.  The code leaves rule (a)
    exactly where it leaves that range: a first literal that begins with a
    digit 6 to 9 is returned whole, a rating above 5; on "9.5" the pattern
    of the claim finds "5" and its rules give 5, the code returns 9.5. *)
Theorem rating_rules :
  (forall text,
      literalInRange text = false -> gt (parseRating text) (Num 5) = true) /\
  (literalInRange (u "9.5") = false /\
   literalOf (exec specRatingRe (u "9.5")) 0 = Some (u "5") /\
   specParseRating (u "9.5") = Num (5 # 1) /\
   parseRating (u "9.5") = Num (95 # 10)) /\
  (forall text,
      literalInRange text = true -> parseRating text = specParseRating text) /\
  (forall text m,
      literalInRange text = true ->
      exec specRatingRe text = Some m ->
      parseRating text = parseFloat (tpl (group 0 m))) /\
  (forall text,
      exec ratingRe text = None ->
      (0 < fullStars text + emptyStars text)%nat ->
      parseRating text =
      nmul (ndiv (ofNat (fullStars text))
                 (ofNat (fullStars text + emptyStars text))) (Num 5)) /\
  (forall text m,
      exec ratingRe text = None ->
      (fullStars text + emptyStars text = 0)%nat ->
      exec percentRe text = Some m ->
      parseRating text =
      ndiv (round (nmul (ndiv (parseInt (tpl (group 1 m))) (Num 20)) (Num 100)))
           (Num 100)) /\
  (forall text,
      exec ratingRe text = None ->
      (fullStars text + emptyStars text = 0)%nat ->
      exec percentRe text = None ->
      parseRating text = Num 0) /\
  same (parseRating (u "★★★☆☆")) (Num 3).
Proof.
  assert (A : forall text,
             literalInRange text = true ->
             parseRating text = specParseRating text).
  { intros text H. apply rating_literal_agree in H.
    unfold parseRating, specParseRating. unfold literalOf in H.
    destruct (exec ratingRe text), (exec specRatingRe text);
      cbn [option_map] in H; try discriminate; [|reflexivity].
    congruence. }
  split; [exact literal_out_of_range|].
  split; [vm_compute; repeat split|].
  split; [exact A|]. repeat split.
  - intros text m H E. rewrite (A _ H). unfold specParseRating. now rewrite E.
  - intros text E H. unfold parseRating, ratingFallback. rewrite E.
    fold (fullStars text). fold (emptyStars text).
    destruct (fullStars text) as [|f], (emptyStars text) as [|e];
      cbn [Nat.add] in H; [lia|reflexivity..].
  - intros text m E H P. unfold parseRating, ratingFallback. rewrite E.
    fold (fullStars text). fold (emptyStars text).
    destruct (fullStars text) as [|f], (emptyStars text) as [|e];
      cbn [Nat.add] in H; try lia. cbn [Nat.ltb Nat.leb orb]. now rewrite P.
  - intros text E H P. unfold parseRating, ratingFallback. rewrite E.
    fold (fullStars text). fold (emptyStars text).
    destruct (fullStars text) as [|f], (emptyStars text) as [|e];
      cbn [Nat.add] in H; try lia. cbn [Nat.ltb Nat.leb orb]. now rewrite P.
Qed.

Lemma rating_rules_witness :
  parseRating (u "4.5 out of 5") = specParseRating (u "4.5 out of 5") /\
  parseRating (u "99%") = Num (495 # 100).
Proof.
  split.
  - apply (proj1 (proj2 (proj2 rating_rules)) (u "4.5 out of 5")). reflexivity.
  - destruct rating_rules as (_ & _ & _ & _ & _ & H & _).
    rewrite (H (u "99%") (u "99%", [(1%nat, u "99")])); reflexivity.
Defined.

End RatingProps.

(** * Properties of the stock normalizers *)

Module StockProps.

Section Rules.

Variable toLowerCase : jsstring -> jsstring.

(** On Basic Latin text [toLowerCase] lowers each unit on its own. *)
Hypothesis toLowerCase_latin :
  forall s, isBasicLatin s = true -> toLowerCase s = map lowerUnit s.

Lemma firstIncluded_hit lowercaseText indicators r k :
  (exists indicator,
      In indicator indicators /\ includes lowercaseText indicator = true) ->
  firstIncluded lowercaseText indicators r k = r.
Proof.
  intros (indicator & Hin & Hinc).
  induction indicators as [|i rest IH]; [contradiction|].
  cbn [firstIncluded].
  destruct (includes lowercaseText i) eqn:E; [reflexivity|].
  destruct Hin as [->|Hin]; [congruence|auto].
Qed.

Lemma firstIncluded_miss lowercaseText indicators r k :
  (forall indicator,
      In indicator indicators -> includes lowercaseText indicator = false) ->
  firstIncluded lowercaseText indicators r k = k.
Proof.
  induction indicators as [|i rest IH]; intros H; [reflexivity|].
  cbn [firstIncluded]. rewrite (H i (or_introl eq_refl)).
  apply IH. intros j Hj. apply H. now right.
Qed.

Lemma firstIncluded_same lowercaseText indicators r :
  firstIncluded lowercaseText indicators r r = r.
Proof.
  induction indicators as [|i rest IH]; [reflexivity|].
  cbn [firstIncluded]. now destruct (includes lowercaseText i).
Qed.

Lemma toLowerCase_nil : toLowerCase [] = [].
Proof. now rewrite toLowerCase_latin. Qed.

Lemma includes_nil indicator :
  In indicator outOfStockIndicators -> includes [] indicator = false.
Proof.
  cbn [outOfStockIndicators In]. intros H.
  repeat (destruct H as [<-|H]; [reflexivity|]). contradiction.
Qed.

Lemma parseStockStatus_latin text :
  isBasicLatin text = true ->
  parseStockStatus toLowerCase text = parseStockStatus (map lowerUnit) text.
Proof.
  intros H. destruct text as [|c t]; [reflexivity|].
  cbn [parseStockStatus]. now rewrite (toLowerCase_latin _ H).
Qed.

Lemma parseStockLevel_latin text :
  isBasicLatin text = true ->
  parseStockLevel toLowerCase text = parseStockLevel (map lowerUnit) text.
Proof.
  intros H. destruct text as [|c t]; [reflexivity|].
  cbn [parseStockLevel]. now rewrite (toLowerCase_latin _ H).
Qed.

(** C7. [parseStockStatus] decides on the lower-cased text by substring:
    it returns false as soon as one out-of-stock phrase is included,
    whether or not an in-stock phrase is included too, and true in every
    other case (an in-stock phrase included, or no phrase of either list);
    on Basic Latin text the answer does not depend on letter case; and
    "Sold Out" yields [inStock = false] and stock level 0. *)
Theorem stock_status_rules :
  (forall text,
      (exists phrase,
          In phrase outOfStockIndicators /\
          includes (toLowerCase text) phrase = true) ->
      parseStockStatus toLowerCase text = false) /\
  (forall text,
      (forall phrase,
          In phrase outOfStockIndicators ->
          includes (toLowerCase text) phrase = false) ->
      parseStockStatus toLowerCase text = true) /\
  (forall text1 text2,
      isBasicLatin text1 = true -> isBasicLatin text2 = true ->
      map lowerUnit text1 = map lowerUnit text2 ->
      parseStockStatus toLowerCase text1 = parseStockStatus toLowerCase text2) /\
  parseStockStatus toLowerCase (u "Sold Out") = false /\
  parseStockLevel toLowerCase (u "Sold Out") = Some (Level (Num 0)) /\
  parseStockStatus toLowerCase (u "Currently UNAVAILABLE") = false.
Proof.
  repeat split.
  - intros text H. destruct text as [|c t].
    + destruct H as (phrase & Hin & Hinc).
      rewrite toLowerCase_nil, (includes_nil _ Hin) in Hinc. discriminate.
    + cbn [parseStockStatus]. now apply firstIncluded_hit.
  - intros text H. destruct text as [|c t]; [reflexivity|].
    cbn [parseStockStatus]. rewrite (firstIncluded_miss _ _ _ _ H).
    apply firstIncluded_same.
  - intros text1 text2 H1 H2 E.
    destruct text1 as [|c1 t1], text2 as [|c2 t2]; try discriminate;
      [reflexivity|].
    rewrite (parseStockStatus_latin _ H1), (parseStockStatus_latin _ H2).
    cbn [parseStockStatus]. now rewrite E.
  - now rewrite parseStockStatus_latin.
  - now rewrite parseStockLevel_latin.
  - now rewrite parseStockStatus_latin.
Qed.

End Rules.

Example stock_examples :
  parseStockStatus (map lowerUnit) (u "Only 3 left in stock") = true /\
  parseStockLevel (map lowerUnit) (u "Only 3 left in stock")
  = Some (Level (Num (3 # 1))) /\
  parseStockLevel (map lowerUnit) (u "Selling FAST") = Some LOW /\
  parseStockLevel (map lowerUnit) (u "Ships tomorrow") = None.
Proof. vm_compute. repeat split. Qed.

Lemma stock_status_rules_witness :
  parseStockStatus (map lowerUnit) (u "Temporarily OUT OF STOCK") = false.
Proof.
  apply (proj1 (stock_status_rules (map lowerUnit) (fun s _ => eq_refl))).
  exists (u "out of stock"). split; [left; reflexivity|reflexivity].
Defined.

End StockProps.

(** * Properties of the description truncation *)

Module DescriptionProps.

Lemma trimStart_length s : (List.length (trimStart s) <= List.length s)%nat.
Proof.
  induction s as [|c t IH]; cbn [trimStart]; [lia|].
  destruct (isSpace c); cbn [List.length]; lia.
Qed.

Lemma trim_length s : (List.length (trim s) <= List.length s)%nat.
Proof.
  unfold trim, trimEnd. rewrite length_rev.
  etransitivity; [apply trimStart_length|]. rewrite length_rev.
  apply trimStart_length.
Qed.

(** C6 (counterexamples). A description of 201 units whose 200th unit is
    a space: the short description of the product scraper has 202 units,
    not 203, and is not the first 200 units followed by "...".  The empty
    content: on both paths of the example scraper the main item is
    described by "No Content Found" instead of the unchanged empty
    string. *)
Lemma truncation_not_exact :
  (let description := repeat (ch "a") 199 ++ u " b" in
   List.length description = 201%nat /\
   List.length (shortDescription description) = 202%nat /\
   shortDescription description <> substring0 200 description ++ u "...") /\
  mainItemDescription [] = u "No Content Found" /\
  mainItemDescriptionCheerio [] = u "No Content Found".
Proof.
  split; [|split; reflexivity]. cbv zeta. split; [reflexivity|].
  split; [reflexivity|].
  intros H. apply (f_equal (@List.length N)) in H. vm_compute in H. discriminate.
Qed.

(** C6 (amended). For every content longer than 200 code units the
    example scraper stores exactly its first 200 units followed by "...",
    203 units in all; the product scraper stores as short description the
    first 200 units trimmed of white space at both ends, followed by "...",
    hence at most 203 units, and exactly the first 200 units followed by
    "..." when trimming leaves them unchanged; strings of at most 200
    units pass through unchanged, except that both paths of the example
    scraper replace the empty content by "No Content Found". *)
Theorem description_truncation :
  (forall content,
      (200 < List.length content)%nat ->
      mainItemDescription content = substring0 200 content ++ u "..." /\
      mainItemDescriptionCheerio content = substring0 200 content ++ u "..." /\
      List.length (mainItemDescription content) = 203%nat) /\
  (forall description,
      (200 < List.length description)%nat ->
      shortDescription description
      = trim (substring0 200 description) ++ u "..." /\
      (List.length (shortDescription description) <= 203)%nat /\
      (trim (substring0 200 description) = substring0 200 description ->
       shortDescription description = substring0 200 description ++ u "..." /\
       List.length (shortDescription description) = 203%nat)) /\
  (forall s,
      (List.length s <= 200)%nat ->
      shortDescription s = s /\
      (s <> [] ->
       mainItemDescription s = s /\ mainItemDescriptionCheerio s = s)) /\
  (mainItemDescription [] = u "No Content Found" /\
   mainItemDescriptionCheerio [] = u "No Content Found").
Proof.
  assert (L : forall s, (200 < List.length s)%nat ->
                        List.length (substring0 200 s) = 200%nat).
  { intros s H. unfold substring0. rewrite length_firstn. lia. }
  repeat split.
  - unfold mainItemDescription. destruct content as [|c t]; [cbn in H; lia|].
    apply Nat.ltb_lt in H. now rewrite H.
  - unfold mainItemDescriptionCheerio. destruct content as [|c t]; [cbn in H; lia|].
    cbn [orElse]. apply Nat.ltb_lt in H. now rewrite H.
  - unfold mainItemDescription. destruct content as [|c t]; [cbn in H; lia|].
    pose proof (L _ H) as E. apply Nat.ltb_lt in H. rewrite H.
    rewrite length_app, E. reflexivity.
  - unfold shortDescription. apply Nat.ltb_lt in H. now rewrite H.
  - unfold shortDescription. pose proof (L _ H) as E.
    apply Nat.ltb_lt in H. rewrite H. rewrite length_app.
    pose proof (trim_length (substring0 200 description)) as T.
    change (List.length (u "...")) with 3%nat. lia.
  - unfold shortDescription. apply Nat.ltb_lt in H. rewrite H. now rewrite H0.
  - unfold shortDescription. pose proof (L _ H) as E.
    apply Nat.ltb_lt in H. rewrite H, H0, length_app, E. reflexivity.
  - unfold shortDescription.
    destruct (200 <? List.length s)%nat eqn:E; [|reflexivity].
    apply Nat.ltb_lt in E. lia.
  - unfold mainItemDescription. destruct s as [|c t]; [congruence|].
    destruct (200 <? List.length (c :: t))%nat eqn:E; [|reflexivity].
    apply Nat.ltb_lt in E. lia.
  - unfold mainItemDescriptionCheerio. destruct s as [|c t]; [congruence|].
    cbn [orElse].
    destruct (200 <? List.length (c :: t))%nat eqn:E; [|reflexivity].
    apply Nat.ltb_lt in E. lia.
Qed.

Lemma description_truncation_witness :
  List.length (mainItemDescription (repeat (ch "a") 250)) = 203%nat /\
  shortDescription (u "A short description.") = u "A short description.".
Proof.
  split.
  - destruct (proj1 description_truncation (repeat (ch "a") 250))
      as (_ & _ & H); [vm_compute; lia|exact H].
  - destruct (proj1 (proj2 (proj2 description_truncation))
                     (u "A short description."))
      as (H & _); [vm_compute; lia|exact H].
Defined.

End DescriptionProps.

(** * Further properties *)

(** ** Prices *)

Module MorePrice.

Import PriceProps.

Local Open Scope Q_scope.

Lemma parseFloat_nonneg s : nonneg (parseFloat s).
Proof.
  unfold parseFloat. destruct (span isDigit s) as [i r].
  match goal with |- nonneg (match ?l with _ => _ end) => destruct l end;
    cbn [nonneg]; [exact I|].
  unfold Qle. cbn [Qnum Qden]. rewrite Z.mul_1_r. cbn. lia.
Qed.

Lemma tokenValue_nonneg w : nonneg (tokenValue w).
Proof. apply parseFloat_nonneg. Qed.

Lemma symbol_code c : isSymbol c = true -> In (getCurrencyCode [c]) symbolCodes.
Proof.
  intros H. apply symbol_cases in H.
  destruct H as [ -> | [ -> | [ -> | [ -> | -> ]]]]; vm_compute; tauto.
Qed.

(** X1: whatever the text, without a hint the currency is one of five codes:
    the other six entries of the symbol table are never used. *)
Theorem currency_five_codes text :
  In (currency (parsePrice text None)) symbolCodes.
Proof.
  destruct text as [|c t]; [vm_compute; tauto|].
  destruct (exec priceRe (trim (c :: t))) as [m|] eqn:E.
  - rewrite (currency_found (c :: t) None m); [|discriminate|exact E].
    destruct (priceRe_groups _ _ E) as (s & w & G1 & S1 & _).
    rewrite G1. now apply symbol_code.
  - rewrite parsePrice_eq. unfold priceOf. rewrite E. cbv zeta.
    destruct (if hasDiscountOf (trim (c :: t))
              then exec originalRe (trim (c :: t)) else None);
      destruct (exec numericRe (trim (c :: t))); vm_compute; tauto.
Qed.

Lemma gt_num a y : gt a (Num y) = true -> exists x, a = Num x /\ y < x.
Proof.
  destruct a as [x|]; [|discriminate]. intros H. exists x. split; auto.
  now apply gt_true.
Qed.

(** The rounded percentage of a reduction from [x > 0] to [y] with
    [0 <= y <= x] lies between 0 and 100. *)
Lemma percentage_cases o a :
  gt o (Num 0) = true -> nonneg a -> gt a o = false ->
  Double.percentage o a = NaN \/
  exists z, Double.percentage o a = Num (inject_Z z) /\ (0 <= z <= 100)%Z.
Proof.
  intros Go Na G. apply gt_num in Go. destruct Go as (x & -> & Hx).
  destruct a as [y|]; [|left; apply DoubleFacts.percentage_nan].
  apply DoubleFacts.percentage_range; auto. now apply gt_false.
Qed.

(** X2: [parsePrice] reads no sign: its amounts are never negative, and a
    discount percentage that is a number is a whole number from 0 to
    100. *)
Theorem price_ranges text hint :
  let p := parsePrice text hint in
  nonneg (amount p) /\
  (forall o, originalAmount p = Some o -> nonneg o) /\
  (forall d, discountPercentage p = Some d ->
             d = NaN \/
             exists z, d = Num (inject_Z z) /\ (0 <= z <= 100)%Z).
Proof.
  destruct text as [|c t].
  { cbv zeta. cbn. repeat split; try discriminate. }
  cbv zeta. rewrite parsePrice_eq. unfold priceOf.
  destruct (if hasDiscountOf (trim (c :: t))
            then exec originalRe (trim (c :: t)) else None) as [om|].
  - cbv zeta.
    pose proof (tokenValue_nonneg (tpl (group 2 om))) as N1.
    pose proof (tokenValue_nonneg (tpl (group 5 om))) as N2.
    revert N1 N2.
    generalize (tokenValue (tpl (group 2 om))) (tokenValue (tpl (group 5 om))).
    intros p1 p2 N1 N2.
    assert (K : forall o a, nonneg o -> nonneg a -> gt a o = false ->
                forall d,
                  (if gt o (Num 0)
                   then Some (Double.percentage o a)
                   else None) = Some d ->
                  d = NaN \/ exists z, d = Num (inject_Z z) /\ (0 <= z <= 100)%Z).
    { intros o a No Na G d. destruct (gt o (Num 0)) eqn:Go; [|discriminate].
      intros H. injection H as <-. now apply percentage_cases. }
    destruct (gt p1 p2) eqn:G; cbn [fst snd amount originalAmount discountPercentage].
    + repeat split; auto.
      * intros o H. now injection H as <-.
      * apply K; auto. now apply gt_asym.
    + repeat split; auto.
      * intros o H. now injection H as <-.
      * apply K; auto.
  - cbn [amount originalAmount discountPercentage].
    repeat split; try discriminate.
    destruct (exec priceRe (trim (c :: t))); [apply tokenValue_nonneg|].
    destruct (exec numericRe (trim (c :: t))); [apply tokenValue_nonneg|].
    cbn. discriminate.
Qed.

Lemma price_ranges_witness :
  Num 50 = NaN \/
  exists z, Num 50 = Num (inject_Z z) /\ (0 <= z <= 100)%Z.
Proof.
  apply (proj2 (proj2 (price_ranges (u "$50 $25") None)) (Num 50)).
  vm_compute. reflexivity.
Defined.

(** X3: [parsePrice] looks at the trimmed text only; a non-empty text made of
    white space is not treated as the empty text. *)
Theorem price_ignores_margins text hint :
  (trim text <> [] -> parsePrice text hint = parsePrice (trim text) hint) /\
  (text <> [] -> trim text = [] ->
   parsePrice text hint
   = mkPrice (Num 0) (orElse hint (u "USD")) [] false None None None /\
   formatted (parsePrice [] hint) = u "$0.00").
Proof.
  split.
  - intros H. destruct text as [|c t]; [now elim H|].
    rewrite parsePrice_eq. destruct (trim (c :: t)) as [|c' t'] eqn:E;
      [now elim H|].
    rewrite parsePrice_eq, <- E, trim_idem. reflexivity.
  - intros H E. destruct text as [|c t]; [now elim H|].
    rewrite parsePrice_eq, E. split; reflexivity.
Qed.

Lemma price_ignores_margins_witness :
  parsePrice (u "  $1,299.00  ") None = parsePrice (u "$1,299.00") None.
Proof.
  apply (proj1 (price_ignores_margins (u "  $1,299.00  ") None)).
  vm_compute. discriminate.
Defined.

End MorePrice.

(** ** Text ratings and stock *)

Module MoreRating.

Import RatingProps.

Local Open Scope Q_scope.

Lemma span_digit_head c t :
  isDigit c = true -> exists a b, span isDigit (c :: t) = (c :: a, b).
Proof.
  intros H. cbn [span]. rewrite H. destruct (span isDigit t) as [a b]. eauto.
Qed.

(** [parseFloat] of a text that begins with a digit is a number, and not a
    negative one. *)
Lemma parseFloat_digit c t :
  isDigit c = true -> exists q, parseFloat (c :: t) = Num q /\ 0 <= q.
Proof.
  intros H. unfold parseFloat.
  destruct (span_digit_head c t H) as (a & b & ->).
  cbn [app]. eexists. split; [reflexivity|].
  unfold Qle. cbn [Qnum Qden]. rewrite Z.mul_1_r. cbn. lia.
Qed.

Lemma parseInt_digits d ds :
  forallb isDigit (d :: ds) = true ->
  parseInt (d :: ds) = Num (Z.of_N (decimal (d :: ds)) # 1).
Proof. intros H. unfold parseInt. now rewrite (span_all _ _ H). Qed.

Lemma decimal_from ds : forall a,
  forallb isDigit ds = true ->
  (fold_left (fun a d => 10 * a + (d - 48)) ds a + 1
   <= (a + 1) * 10 ^ N.of_nat (List.length ds))%N.
Proof.
  induction ds as [|d ds IH]; intros a H.
  - cbn [fold_left List.length]. change (10 ^ N.of_nat 0)%N with 1%N. lia.
  - cbn [forallb] in H. apply andb_true_iff in H. destruct H as [Hd H].
    cbn [fold_left List.length]. etransitivity; [apply (IH _ H)|].
    rewrite Nat2N.inj_succ, N.pow_succ_r by lia.
    apply digit_cases in Hd.
    assert (P : (0 < 10 ^ N.of_nat (List.length ds))%N)
      by (apply N.neq_0_lt_0, N.pow_nonzero; discriminate).
    nia.
Qed.

(** A run of at most 15 digits is read as a natural number below 10^15. *)
Lemma decimal_small ds :
  forallb isDigit ds = true -> (List.length ds <= 15)%nat ->
  (decimal ds < 10 ^ 15)%N.
Proof.
  intros H L. pose proof (decimal_from ds 0%N H) as B. fold (decimal ds) in B.
  assert (M : (10 ^ N.of_nat (List.length ds) <= 10 ^ 15)%N)
    by (apply N.pow_le_mono_r; lia).
  lia.
Qed.

Lemma parseInt_digit c t :
  isDigit c = true -> exists q, parseInt (c :: t) = Num q /\ 0 <= q.
Proof.
  intros H. unfold parseInt.
  destruct (span_digit_head c t H) as (a & b & ->).
  cbn [fst]. eexists. split; [reflexivity|].
  unfold Qle. cbn [Qnum Qden]. lia.
Qed.

(** The literal found by the numeric pattern begins with a digit. *)
Lemma ratingRe_literal text m :
  exec ratingRe text = Some m ->
  exists c t, group 1 m = Some (c :: t) /\ isDigit c = true.
Proof.
  intros E. destruct m as [w k].
  destruct (exec_sound _ _ _ _ E) as (pre & rest & tl & _ & Hr).
  destruct (w ++ rest) as [|c t] eqn:Ew; [discriminate|].
  rewrite run_ratingRe in Hr.
  destruct (isDigit c && pointDigit t) eqn:D.
  - cbn [app] in Hr. injection Hr as <- <- _ _.
    apply andb_true_iff in D. destruct D as [D _].
    exists c, (firstn 2 t). split; [reflexivity|exact D].
  - cbn [app] in Hr. destruct (lit05 c) eqn:L; [|discriminate].
    injection Hr as <- <- _ _.
    exists c, []. split; [reflexivity|now apply lit05_digit].
Qed.

Lemma percentRe_digits text m :
  exec percentRe text = Some m ->
  exists c t, group 1 m = Some (c :: t) /\ isDigit c = true.
Proof.
  intros E.
  destruct (exec_binds percentRe 0 text m eq_refl E) as (v & G & a & O & L).
  unfold percentRe, Plus in O. inv_group.
  cbn [lang] in L. destruct L as (w1 & w2 & -> & (c & -> & Hc) & _).
  exists c, w2. split; [exact G|exact Hc].
Qed.

Lemma ofNat_pos n : (0 < n)%nat -> Qeq_bool (inject_Z (Z.of_nat n)) 0 = false.
Proof.
  intros H. destruct (Qeq_bool (inject_Z (Z.of_nat n)) 0) eqn:E; [|reflexivity].
  apply Qeq_bool_iff in E. unfold Qeq in E. cbn in E. lia.
Qed.

Lemma percent_value n :
  0 <= n ->
  exists q,
    ndiv (round (nmul (ndiv (Num n) (Num 20)) (Num 100))) (Num 100) = Num q /\
    0 <= q.
Proof.
  intros Hn. cbn [ndiv]. change (Qeq_bool 20 0) with false.
  cbn [nmul round ndiv]. change (Qeq_bool 100 0) with false.
  eexists. split; [reflexivity|].
  apply Qle_shift_div_l; [reflexivity|]. rewrite Qmult_0_l.
  change 0 with (inject_Z 0). rewrite <- Zle_Qle.
  change 0%Z with (Qfloor 0). apply Qfloor_resp_le.
  rewrite <- (Qplus_0_l 0) at 1. apply Qplus_le_compat; [|discriminate].
  rewrite <- (Qmult_0_l 100). apply Qmult_le_compat_r; [|discriminate].
  apply Qle_shift_div_l; [reflexivity|]. now rewrite Qmult_0_l.
Qed.

(** X4: [parseRating] always returns a number, never NaN and never a negative
    one; when the markers decide (no numeric literal, some marker present)
    the result lies between 0 and 5. *)
Theorem rating_is_number text :
  exists q,
    parseRating text = Num q /\ 0 <= q /\
    (exec ratingRe text = None ->
     (0 < fullStars text + emptyStars text)%nat -> q <= 5).
Proof.
  unfold parseRating.
  destruct (exec ratingRe text) as [m|] eqn:E.
  - destruct (ratingRe_literal _ _ E) as (c & t & G & Hc). rewrite G.
    destruct (parseFloat_digit c t Hc) as (q & Hq & Hpos).
    exists q. cbn [tpl]. repeat split; auto. discriminate.
  - unfold ratingFallback. cbv zeta.
    destruct ((0 <? fullStars text) || (0 <? emptyStars text))%nat eqn:M.
    + assert (Hm : (0 < fullStars text + emptyStars text)%nat).
      { apply orb_true_iff in M. destruct M as [M|M]; apply Nat.ltb_lt in M; lia. }
      unfold ndiv, ofNat, ofZ. rewrite (ofNat_pos _ Hm). cbn [nmul].
      eexists. split; [reflexivity|].
      set (f := fullStars text) in *. set (e := emptyStars text) in *.
      assert (Hd : 0 < inject_Z (Z.of_nat (f + e))).
      { unfold Qlt. cbn. lia. }
      assert (H0 : 0 <= inject_Z (Z.of_nat f) / inject_Z (Z.of_nat (f + e))).
      { apply Qle_shift_div_l; [exact Hd|]. rewrite Qmult_0_l.
        unfold Qle. cbn. lia. }
      assert (H1 : inject_Z (Z.of_nat f) / inject_Z (Z.of_nat (f + e)) <= 1).
      { apply Qle_shift_div_r; [exact Hd|]. rewrite Qmult_1_l.
        unfold Qle. cbn. lia. }
      split.
      * rewrite <- (Qmult_0_l 5). apply Qmult_le_compat_r; [exact H0|discriminate].
      * intros _ _. rewrite <- (Qmult_1_l 5) at 2.
        apply Qmult_le_compat_r; [exact H1|discriminate].
    + assert (Hz : (fullStars text + emptyStars text = 0)%nat).
      { apply orb_false_iff in M. destruct M as [M1 M2].
        apply Nat.ltb_ge in M1, M2. lia. }
      destruct (exec percentRe text) as [pm|] eqn:P.
      * destruct (percentRe_digits _ _ P) as (c & t & G & Hc). rewrite G.
        cbn [tpl]. destruct (parseInt_digit c t Hc) as (n & -> & Hn).
        destruct (percent_value n Hn) as (q & -> & Hq).
        exists q. repeat split; [exact Hq|intros _ H; lia].
      * exists 0. repeat split; [apply Qle_refl|intros _ H; lia].
Qed.

Lemma rating_is_number_witness :
  exists q, parseRating (u "★★★☆☆") = Num q /\ 0 <= q /\ q <= 5.
Proof.
  destruct (rating_is_number (u "★★★☆☆")) as (q & E & P & H).
  exists q. split; [exact E|]. split; [exact P|].
  apply H; [reflexivity|]. vm_compute. lia.
Defined.

End MoreRating.

Module MoreStock.

Import StockProps.

Lemma stockLevelRe_digits text m :
  exec stockLevelRe text = Some m ->
  exists c t, group 1 m = Some (c :: t) /\ forallb isDigit (c :: t) = true.
Proof.
  intros E.
  destruct (exec_binds stockLevelRe 0 text m eq_refl E) as (v & G & a & O & L).
  unfold stockLevelRe, Plus in O.
  set (words := Alt _ _) in O.
  inversion O as [ | | ? ? ? ? O1 | ? ? ? ? O1 | | | ]; subst; clear O.
  2: { exfalso. inversion O1 as [ | | ? ? ? ? O2 | ? ? ? ? O2 | | | ]; subst.
       - inversion O2.
       - inversion O2; subst. subst words. cbv in H3. clear - H3. inv_group. }
  inv_group.
  cbn [lang] in L. destruct L as (w1 & w2 & -> & (c & -> & Hc) & Hw).
  exists c, w2. split; [exact G|]. cbn [app forallb]. now rewrite Hc, Hw.
Qed.

Section Levels.

Variable toLowerCase : jsstring -> jsstring.

Lemma included_out lowercaseText k :
  includes lowercaseText (u "out of stock")
  || includes lowercaseText (u "sold out") = true ->
  firstIncluded lowercaseText outOfStockIndicators false k = false.
Proof.
  intros H. apply firstIncluded_hit. apply orb_true_iff in H.
  destruct H as [H|H]; [exists (u "out of stock")|exists (u "sold out")];
    (split; [cbn [outOfStockIndicators In]; tauto|exact H]).
Qed.

(** X5: a numeric stock level is never NaN and never negative; read from
    a count of at most 15 digits it is that natural number; and a level
    that comes from the phrases and not from a count is 0 and goes with
    the out-of-stock status. *)
Theorem stock_level_consistent text n :
  parseStockLevel toLowerCase text = Some (Level n) ->
  isCount n /\
  (forall m,
      exec stockLevelRe text = Some m ->
      (List.length (tpl (group 1 m)) <= 15)%nat ->
      n = Num (Z.of_N (decimal (tpl (group 1 m))) # 1) /\ smallCount n) /\
  (exec stockLevelRe text = None ->
   n = Num 0 /\ parseStockStatus toLowerCase text = false).
Proof.
  destruct text as [|c t]; [discriminate|].
  cbn [parseStockLevel parseStockStatus].
  destruct (exec stockLevelRe (c :: t)) as [m|] eqn:E.
  - destruct (stockLevelRe_digits _ _ E) as (d & ds & G & Hd). rewrite G.
    cbn [tpl]. rewrite (MoreRating.parseInt_digits d ds Hd).
    intros H. injection H as <-. split; [|split; [|discriminate]].
    + eexists. split; [reflexivity|]. unfold Qle. cbn [Qnum Qden]. lia.
    + intros m' H L. injection H as <-. rewrite G in L |- *. cbn [tpl] in L |- *.
      split; [reflexivity|]. eexists. split; [reflexivity|].
      now apply MoreRating.decimal_small.
  - destruct (includes (toLowerCase (c :: t)) (u "low stock")
              || includes (toLowerCase (c :: t)) (u "selling fast"));
      [discriminate|].
    destruct (includes (toLowerCase (c :: t)) (u "out of stock")
              || includes (toLowerCase (c :: t)) (u "sold out")) eqn:O;
      [|discriminate].
    intros H. injection H as <-. split; [|split; [discriminate|]].
    + exists 0%Q. split; [reflexivity|apply Qle_refl].
    + intros _. split; [reflexivity|]. now apply included_out.
Qed.

End Levels.

Lemma stock_level_consistent_witness :
  parseStockStatus (map lowerUnit) (u "SOLD OUT - back soon") = false.
Proof.
  apply (proj2 (proj2 (stock_level_consistent (map lowerUnit)
                         (u "SOLD OUT - back soon") (Num 0) eq_refl))).
  reflexivity.
Defined.

(** A count of 0 does not make the status out of stock. *)
Example zero_left_in_stock :
  parseStockLevel (map lowerUnit) (u "0 left") = Some (Level (Num (0 # 1))) /\
  parseStockStatus (map lowerUnit) (u "0 left") = true.
Proof. vm_compute. split; reflexivity. Qed.

End MoreStock.

(** ** Ratings read in the page *)

Module ReviewProps.

Import Float Reviews.

Local Open Scope Q_scope.

Lemma clamp_cases a : clamp a = NotNumber \/ onScale (clamp a).
Proof.
  unfold onScale.
  destruct a as [x| [|] |]; cbn; [| | |now left]; right.
  - destruct (Qle_bool 5 x) eqn:E5.
    + cbn. eexists. split; [reflexivity|]. split; discriminate.
    + destruct (Qle_bool 0 x) eqn:E0; eexists; (split; [reflexivity|]).
      * apply Qle_bool_iff in E0. split; [exact E0|].
        apply Qlt_le_weak, Qnot_le_lt. intros H. apply Qle_bool_iff in H. congruence.
      * split; discriminate.
  - eexists. split; [reflexivity|]. split; discriminate.
  - eexists. split; [reflexivity|]. split; discriminate.
Qed.

(** ** [parseFloat] stops before a slash *)

Lemma beforeFirst_trimStart s :
  trimStart (beforeFirst slash s) = beforeFirst slash (trimStart s).
Proof.
  induction s as [|c t IH]; [reflexivity|].
  cbn [beforeFirst trimStart].
  destruct (c =? slash)%N eqn:E.
  - apply N.eqb_eq in E. subst c. reflexivity.
  - cbn [trimStart]. destruct (isSpace c); [exact IH|].
    cbn [beforeFirst]. now rewrite E.
Qed.

Lemma beforeFirst_signOf s :
  signOf (beforeFirst slash s)
  = (fst (signOf s), beforeFirst slash (snd (signOf s))).
Proof.
  destruct s as [|c t]; [reflexivity|].
  cbn [beforeFirst signOf].
  destruct (c =? slash)%N eqn:E.
  - apply N.eqb_eq in E. subst c. reflexivity.
  - cbn [signOf].
    destruct (c =? ch "-")%N; [reflexivity|].
    destruct (c =? ch "+")%N; [reflexivity|].
    cbn [fst snd beforeFirst]. now rewrite E.
Qed.

Lemma beforeFirst_startsWith p s :
  forallb (fun x => negb (x =? slash)%N) p = true ->
  startsWith (beforeFirst slash s) p = startsWith s p.
Proof.
  revert s. induction p as [|a p IH]; intros s H; [reflexivity|].
  cbn [forallb] in H. apply andb_true_iff in H. destruct H as [Ha Hp].
  destruct s as [|c t]; [reflexivity|].
  cbn [beforeFirst]. destruct (c =? slash)%N eqn:E.
  - apply N.eqb_eq in E. subst c. cbn [startsWith].
    apply negb_true_iff in Ha. now rewrite Ha.
  - cbn [startsWith]. now rewrite IH.
Qed.

Lemma beforeFirst_span s :
  span isDigit (beforeFirst slash s)
  = (fst (span isDigit s), beforeFirst slash (snd (span isDigit s))).
Proof.
  induction s as [|c t IH]; [reflexivity|].
  cbn [beforeFirst span].
  destruct (c =? slash)%N eqn:E.
  - apply N.eqb_eq in E. subst c. reflexivity.
  - cbn [span]. destruct (isDigit c) eqn:D.
    + rewrite IH. destruct (span isDigit t) as [a b]. reflexivity.
    + cbn [fst snd beforeFirst]. now rewrite E.
Qed.

Lemma beforeFirst_exponent s :
  exponent (beforeFirst slash s) = exponent s.
Proof.
  destruct s as [|c t]; [reflexivity|].
  cbn [beforeFirst exponent].
  destruct (c =? slash)%N eqn:E.
  - apply N.eqb_eq in E. subst c. reflexivity.
  - cbn [exponent]. destruct ((c =? ch "e")%N || (c =? ch "E")%N); [|reflexivity].
    rewrite beforeFirst_signOf. destruct (signOf t) as [neg t'].
    cbn [fst snd]. rewrite beforeFirst_span. reflexivity.
Qed.

(** The numeral [parseFloat] reads never extends over a slash: cutting the
    text at its first slash changes nothing. *)
Lemma parseFloatFull_beforeFirst s :
  parseFloatFull (beforeFirst slash s) = parseFloatFull s.
Proof.
  unfold parseFloatFull.
  rewrite beforeFirst_trimStart, beforeFirst_signOf.
  destruct (signOf (trimStart s)) as [neg t]. cbn [fst snd].
  rewrite beforeFirst_startsWith by reflexivity.
  destruct (startsWith t (u "Infinity")); [reflexivity|].
  rewrite beforeFirst_span.
  destruct (span isDigit t) as [i r]. cbn [fst snd].
  destruct r as [|c r1]; [reflexivity|].
  cbn [beforeFirst].
  destruct (c =? slash)%N eqn:E.
  - apply N.eqb_eq in E. subst c. reflexivity.
  - destruct (c =? ch ".")%N.
    + rewrite beforeFirst_span. destruct (span isDigit r1) as [f r'].
      cbn [fst snd]. now rewrite beforeFirst_exponent.
    + replace (exponent (c :: beforeFirst slash r1)) with (exponent (c :: r1)).
      2:{ rewrite <- (beforeFirst_exponent (c :: r1)). cbn [beforeFirst].
          now rewrite E. }
      reflexivity.
Qed.


(** ** The two tests on the rating text *)

Lemma run_Chr_miss p c t : p c = false -> run (Chr p) (c :: t) = [].
Proof. intros H. cbn [run]. now rewrite H. Qed.

Lemma run_Opt a s : run (Opt a) s = run a s ++ [([], [], s)].
Proof. reflexivity. Qed.

Lemma simpleNumber_digit s : matches simpleNumberRe s = existsb isDigit s.
Proof.
  unfold matches. induction s as [|c t IH]; [reflexivity|].
  cbn [exec existsb]. unfold simpleNumberRe at 1. rewrite run_Cat.
  destruct (isDigit c) eqn:D.
  - rewrite (run_Chr_hit _ _ _ D). cbn [flat_map]. rewrite run_Opt.
    destruct (run (Grp 1 (Cat (Chr (N.eqb (ch "."))) (Chr isDigit))) t)
      as [|[[w k] r] l]; reflexivity.
  - rewrite (run_Chr_miss _ _ _ D). cbn [flat_map orb]. exact IH.
Qed.

Lemma noAttribute_test e :
  noAttribute e ->
  negb (eqs (ratingValue e) []) && negb (isNaN (parseFloatFull (ratingValue e)))
  = false.
Proof.
  intros [H|H]; rewrite H; [reflexivity|].
  cbn [isNaN negb]. apply andb_false_r.
Qed.

Lemma text_rating e :
  noAttribute e ->
  existsb isDigit (ratingText e) = true ->
  elementRating e = parseFloatFull (ratingText e).
Proof.
  intros Ha Hd. unfold elementRating. rewrite (noAttribute_test e Ha).
  destruct (matches outOfFiveRe (ratingText e)).
  - apply parseFloatFull_beforeFirst.
  - now rewrite simpleNumber_digit, Hd.
Qed.

(** X7: with no usable attribute, a rating text that contains a digit is
    read by [parseFloat] from its start, whether or not it has the shape
    [d/5]: the branch for that shape and the branch for a simple number
    give the same value, and the count of star elements is not
    consulted. *)
Theorem rating_text_rule e :
  noAttribute e ->
  existsb isDigit (ratingText e) = true ->
  elementRating e = parseFloatFull (ratingText e) /\
  (matches outOfFiveRe (ratingText e) = true ->
   parseFloatFull (beforeFirst slash (ratingText e))
   = parseFloatFull (ratingText e)).
Proof.
  intros Ha Hd. split; [now apply text_rating|].
  intros _. apply parseFloatFull_beforeFirst.
Qed.

Lemma rating_text_rule_witness :
  elementRating (mkRatingElement (u "4.5/5") [] 0 0 0) = Finite (45 # 10).
Proof.
  rewrite (proj1 (rating_text_rule (mkRatingElement (u "4.5/5") [] 0 0 0)
                                   (or_introl eq_refl) eq_refl)).
  reflexivity.
Defined.

Lemma parseFloatFull_label c t :
  startsNumeral c = false -> parseFloatFull (c :: t) = NotNumber.
Proof.
  unfold startsNumeral. intros H.
  apply orb_false_iff in H. destruct H as [H H3].
  apply orb_false_iff in H. destruct H as [H H0].
  apply orb_false_iff in H. destruct H as [H H1].
  apply orb_false_iff in H. destruct H as [H H2].
  apply orb_false_iff in H. destruct H as [H H4].
  unfold parseFloatFull. cbn [trimStart]. rewrite H.
  cbn [signOf]. rewrite H1, H2.
  assert (S : startsWith (c :: t) (u "Infinity") = false).
  { change (u "Infinity") with (ch "I" :: u "nfinity"). cbn [startsWith].
    rewrite N.eqb_sym, H3. reflexivity. }
  rewrite S. cbn [span]. rewrite H4, H0. reflexivity.
Qed.

(** X8: a rating text with a digit in it that begins with anything but a
    numeral (a label, as in [Rating: 4.5/5]) makes the rating NaN, and the
    clamping keeps it NaN. *)
Theorem rating_label_nan e c t :
  noAttribute e ->
  ratingText e = c :: t ->
  startsNumeral c = false ->
  existsb isDigit t = true ->
  clamp (elementRating e) = NotNumber.
Proof.
  intros Ha Ht Hc Hd. rewrite text_rating; [|exact Ha|].
  - rewrite Ht, (parseFloatFull_label c t Hc). reflexivity.
  - rewrite Ht. cbn [existsb]. rewrite Hd. apply orb_true_r.
Qed.


Lemma rating_label_nan_witness :
  clamp (elementRating (mkRatingElement (u "Rating: 4.5/5") [] 0 0 0))
  = NotNumber.
Proof.
  apply (rating_label_nan (mkRatingElement (u "Rating: 4.5/5") [] 0 0 0)
                          (ch "R") (u "ating: 4.5/5")).
  - left. reflexivity.
  - reflexivity.
  - reflexivity.
  - reflexivity.
Defined.

(** X6: every review returned by [extractReviews] carries a rating that is
    NaN or lies between 0 and 5, whatever the page holds; in particular it
    is never an infinity.  When the evaluation in the page throws, the
    list returned is empty. *)
Theorem review_rating_scale today reviewElements maxReviews :
  Forall (fun r => rating r = NotNumber \/ onScale (rating r))
         (extractReviews today reviewElements maxReviews) /\
  extractReviews today None maxReviews = [].
Proof.
  split; [|reflexivity].
  unfold extractReviews. destruct reviewElements as [elements|]; [|constructor].
  apply Forall_map, Forall_forall. intros r _. apply clamp_cases.
Qed.

(** ** The average computed from the reviews *)

Lemma total_scale reviews :
  Forall (fun r => rating r = NotNumber \/ onScale (rating r)) reviews ->
  totalRating reviews = NotNumber \/
  exists q, totalRating reviews = Finite q /\
            0 <= q <= 5 * inject_Z (Z.of_nat (List.length reviews)).
Proof.
  unfold totalRating. intros H.
  assert (G : forall (k : nat) acc,
             acc = NotNumber \/
             (exists q, acc = Finite q /\ 0 <= q <= 5 * inject_Z (Z.of_nat k)) ->
             let t := fold_left (fun sum review => fadd sum (rating review))
                                reviews acc in
             t = NotNumber \/
             exists q, t = Finite q /\
                       0 <= q <= 5 * inject_Z (Z.of_nat (k + List.length reviews))).
  { induction H as [|r l Hr Hl IH]; intros k acc Hacc; cbn [fold_left List.length].
    - now rewrite Nat.add_0_r.
    - replace (k + S (List.length l))%nat with (S k + List.length l)%nat by lia.
      apply IH.
      destruct Hacc as [->|(q & -> & Hq1 & Hq2)]; [now left|].
      destruct Hr as [->|(x & -> & Hx1 & Hx2)]; [now left|].
      right. exists (q + x). split; [reflexivity|]. split.
      + rewrite <- (Qplus_0_l 0). now apply Qplus_le_compat.
      + rewrite Nat2Z.inj_succ, <- Z.add_1_r, inject_Z_plus.
        rewrite Qmult_plus_distr_r. apply Qplus_le_compat; [exact Hq2|].
        now rewrite Qmult_1_r. }
  apply (G 0%nat (Finite 0)). right. exists 0. split; [reflexivity|].
  split; [apply Qle_refl|]. cbn. discriminate.
Qed.

Lemma mean_scale reviews :
  Forall (fun r => rating r = NotNumber \/ onScale (rating r)) reviews ->
  (0 < List.length reviews)%nat ->
  let a := fdivNat (totalRating reviews) (List.length reviews) in
  a = NotNumber \/ onScale a.
Proof.
  intros H Hn. destruct (total_scale reviews H) as [->|(q & -> & Hq1 & Hq2)];
    [now left|].
  right. cbn [fdivNat]. eexists. split; [reflexivity|].
  assert (Hd : 0 < inject_Z (Z.of_nat (List.length reviews))).
  { unfold Qlt. cbn. lia. }
  split.
  - apply Qle_shift_div_l; [exact Hd|]. now rewrite Qmult_0_l.
  - apply Qle_shift_div_r; [exact Hd|]. exact Hq2.
Qed.

(** X9: the rating of a product whose page gives no average (the
    evaluation throws, or yields 0) is computed from the reviews of
    [extractReviews]: it is NaN or lies between 0 and 5, and when the
    evaluation throws the count is the number of reviews and there is no
    distribution.  An average the page does give is returned as read,
    without the clamping applied to review ratings. *)
Theorem rating_from_reviews today reviewElements maxReviews page :
  let reviews := extractReviews today reviewElements maxReviews in
  let r := extractRating page reviews in
  (page = None ->
   (average r = NotNumber \/ onScale (average r)) /\
   count r = Num (inject_Z (Z.of_nat (List.length reviews))) /\
   distribution r = None) /\
  (forall d, page = Some d -> isZero (average d) = true ->
             average r = NotNumber \/ onScale (average r)) /\
  (forall d, page = Some d -> isZero (average d) = false ->
             average r = average d).
Proof.
  intros reviews r.
  assert (HS : Forall (fun r => rating r = NotNumber \/ onScale (rating r))
                      reviews).
  { subst reviews. unfold extractReviews.
    destruct reviewElements as [elements|]; [|constructor].
    apply Forall_map, Forall_forall. intros x _. apply clamp_cases. }
  assert (Z0 : onScale (Finite 0)).
  { exists 0. split; [reflexivity|]. split; discriminate. }
  split; [|split].
  - intros ->. subst r. cbn [extractRating].
    destruct (List.length reviews) as [|n] eqn:L.
    + cbn. repeat split. now right.
    + change (0 <? S n)%nat with true. cbn [average count distribution].
      repeat split. rewrite <- L. apply mean_scale; [exact HS|lia].
  - intros d -> Hz. subst r. cbn [extractRating average]. rewrite Hz.
    cbn [andb]. destruct (List.length reviews) as [|n] eqn:L.
    + cbn. right. destruct (average d) as [x| |]; try discriminate.
      cbn [isZero] in Hz. apply Qeq_bool_iff in Hz.
      exists x. split; [reflexivity|]. rewrite Hz. split; discriminate.
    + change (0 <? S n)%nat with true. rewrite <- L.
      apply mean_scale; [exact HS|lia].
  - intros d -> Hz. subst r. cbn [extractRating average]. now rewrite Hz.
Qed.

Lemma rating_from_reviews_witness :
  let reviews :=
    extractReviews []
      (Some [mkReviewElement None None None None
               (Some (mkRatingElement (u "4.5/5") [] 0 0 0)) None])
      5 in
  count (extractRating None reviews) = Num 1.
Proof.
  intros reviews.
  exact (proj1 (proj2 (proj1 (rating_from_reviews
                                [] (Some [mkReviewElement None None None None
                                            (Some (mkRatingElement (u "4.5/5")
                                                                   [] 0 0 0))
                                            None])
                                5 None) eq_refl))).
Defined.

End ReviewProps.

Module CountProps.

Import Float Reviews ReviewProps.

(** ** The review count *)

Lemma countRe_head d ds rest :
  isDigit d = true -> forallb isDigit ds = true -> stops isDigit rest ->
  heads (run countRe (d :: ds ++ rest)) (d :: ds, [], rest).
Proof.
  intros Hd Hds Hr. unfold countRe, Plus. rewrite run_Cat.
  rewrite (run_Chr_hit _ _ _ Hd). cbn [flat_map]. rewrite app_nil_r.
  rewrite run_Star.
  apply (heads_map (fun '(w2, k2, r2) => ([d] ++ w2, [] ++ k2, r2))
                   _ (ds, [], rest)).
  now apply star_head.
Qed.

Lemma countRe_first pre d ds rest :
  forallb (fun c => negb (isDigit c)) pre = true ->
  isDigit d = true -> forallb isDigit ds = true -> stops isDigit rest ->
  exec countRe (pre ++ d :: ds ++ rest) = Some (d :: ds, []).
Proof.
  intros Hp Hd Hds Hr. induction pre as [|c pre IH]; cbn [app].
  - apply (heads_exec _ _ _ _ rest). now apply countRe_head.
  - cbn [forallb] in Hp. apply andb_true_iff in Hp. destruct Hp as [Hc Hp].
    apply negb_true_iff in Hc. cbn [exec].
    unfold countRe at 1, Plus. rewrite run_Cat, (run_Chr_miss _ _ _ Hc).
    cbn [flat_map]. now apply IH.
Qed.

Lemma digitsOnly_app a b : digitsOnly (a ++ b) = digitsOnly a ++ digitsOnly b.
Proof. apply filter_app. Qed.

Lemma digitsOnly_none pre :
  forallb (fun c => negb (isDigit c)) pre = true -> digitsOnly pre = [].
Proof.
  induction pre as [|c pre IH]; [reflexivity|]. cbn [forallb]. intros H.
  apply andb_true_iff in H. destruct H as [Hc Hp].
  apply negb_true_iff in Hc. unfold digitsOnly. cbn [filter]. rewrite Hc.
  now apply IH.
Qed.

Lemma digitsOnly_all ds : forallb isDigit ds = true -> digitsOnly ds = ds.
Proof.
  induction ds as [|c ds IH]; [reflexivity|]. cbn [forallb]. intros H.
  apply andb_true_iff in H. destruct H as [Hc Hp].
  unfold digitsOnly. cbn [filter]. rewrite Hc. f_equal. now apply IH.
Qed.

Lemma digitsOnly_digits s : forallb isDigit (digitsOnly s) = true.
Proof.
  unfold digitsOnly. apply forallb_forall. intros x Hx.
  now apply filter_In in Hx.
Qed.

Lemma count_or_reviews (n : N) (k : nat) :
  (if Qeq_bool (Z.of_N n # 1) 0 then Num (inject_Z (Z.of_nat k))
   else Num (Z.of_N n # 1))
  = Num (Z.of_N (if n =? 0 then N.of_nat k else n) # 1).
Proof.
  destruct (N.eqb_spec n 0) as [->|Hn].
  - cbn [Z.of_N]. change (Qeq_bool (0 # 1) 0) with true. cbv iota.
    unfold inject_Z. now rewrite nat_N_Z.
  - destruct (Qeq_bool (Z.of_N n # 1) 0) eqn:E; [|reflexivity].
    apply Qeq_bool_iff in E. unfold Qeq in E. cbn [Qnum Qden] in E. lia.
Qed.

(** X10: the two scrapers read the review count differently.  On a text
    whose first run of digits is [d ds], the browser path takes that run
    alone, the Cheerio path every digit of the text: the two counts differ
    as soon as a digit follows the first run, as after a thousands
    separator.  On both paths a count of 0 gives way to the number of
    reviews.  The digits being at most 15, both counts are natural numbers
    that a double holds exactly. *)
Theorem review_count_paths ratingElement rows reviews pre d ds rest :
  forallb (fun c => negb (isDigit c)) pre = true ->
  forallb isDigit (d :: ds) = true ->
  stops isDigit rest ->
  (List.length (d :: ds ++ digitsOnly rest) <= 15)%nat ->
  let countText := pre ++ d :: ds ++ rest in
  let orReviews (n : N) :=
    if n =? 0 then N.of_nat (List.length reviews) else n in
  count (extractRating
           (Some (pageRating ratingElement (Some countText) rows)) reviews)
  = Num (Z.of_N (orReviews (decimal (d :: ds))) # 1) /\
  cheerioCount countText reviews
  = Num (Z.of_N (orReviews (decimal (d :: ds ++ digitsOnly rest))) # 1) /\
  decimal (d :: ds) < 10 ^ 15 /\
  decimal (d :: ds ++ digitsOnly rest) < 10 ^ 15.
Proof.
  intros Hp Hds Hr Hl countText orReviews.
  assert (Hall : forallb isDigit (d :: ds ++ digitsOnly rest) = true).
  { change (d :: ds ++ digitsOnly rest) with ((d :: ds) ++ digitsOnly rest).
    rewrite forallb_app, Hds. apply digitsOnly_digits. }
  split; [|split; [|split]].
  - unfold extractRating, pageRating. cbn [count]. subst countText.
    pose proof Hds as Hds'.
    cbn [forallb] in Hds'. apply andb_true_iff in Hds'.
    destruct Hds' as [Hd Hds'].
    rewrite (countRe_first pre d ds rest Hp Hd Hds' Hr).
    cbn [group fst tpl]. rewrite (MoreRating.parseInt_digits d ds Hds).
    unfold countIsZero, orReviews.
    destruct (0 <? List.length reviews)%nat eqn:Z.
    + rewrite andb_true_r. apply count_or_reviews.
    + rewrite andb_false_r. apply Nat.ltb_ge in Z.
      assert (Z0 : List.length reviews = 0%nat) by lia. rewrite Z0.
      now destruct (decimal (d :: ds)).
  - unfold cheerioCount, ratingCountCheerio. subst countText.
    change (d :: ds ++ rest) with ((d :: ds) ++ rest).
    rewrite !digitsOnly_app, (digitsOnly_none _ Hp), (digitsOnly_all _ Hds).
    cbn [app orElse]. rewrite (MoreRating.parseInt_digits _ _ Hall).
    apply count_or_reviews.
  - apply MoreRating.decimal_small; [exact Hds|].
    cbn [List.length] in Hl |- *. rewrite length_app in Hl. lia.
  - now apply MoreRating.decimal_small.
Qed.

(** A count of 0 in the page gives way to the number of reviews. *)
Example zero_count_gives_way :
  let reviews := [mkReview [] (Finite 0) [] None [] None;
                  mkReview [] (Finite 0) [] None [] None] in
  count (pageRating None (Some (u "0 reviews")) []) = Num 0 /\
  count (extractRating (Some (pageRating None (Some (u "0 reviews")) []))
                       reviews) = Num 2 /\
  cheerioCount (u "0 reviews") reviews = Num 2.
Proof. vm_compute. repeat split. Qed.

Lemma review_count_paths_witness :
  count (extractRating (Some (pageRating None (Some (u "1,234 reviews")) []))
                       [])
  = Num 1 /\
  cheerioCount (u "1,234 reviews") [] = Num 1234.
Proof.
  destruct (review_count_paths None [] [] [] (ch "1") [] (u ",234 reviews"))
    as (A & B & _); [reflexivity|reflexivity|reflexivity|vm_compute; lia|].
  split; [exact A|exact B].
Defined.


(** ** The rating distribution *)

Lemma setStar_fst k v o x :
  In x (map fst (setStar k v o)) -> x = k \/ In x (map fst o).
Proof.
  induction o as [|[k' v'] o IH]; cbn [setStar map In fst].
  - intuition auto.
  - destruct (k =? k') eqn:E; [|destruct (k <? k') eqn:L]; cbn [map In fst].
    + intuition auto.
    + intuition auto.
    + intros [H|H]; [intuition auto|]. destruct (IH H); intuition auto.
Qed.

Lemma setStar_keyed k v o :
  starEntry (k, v) -> wellKeyed o -> wellKeyed (setStar k v o).
Proof.
  intros Hk [Ho Hs]. induction o as [|[k' v'] o IH]; cbn [setStar].
  - split; [now constructor|]. cbn. constructor; constructor.
  - inversion Ho as [|? ? Hk' Ho']; subst. cbn [map fst] in Hs.
    inversion Hs as [|? ? Hs' Hlt]; subst.
    destruct (N.eqb_spec k k') as [->|Hne].
    + split; [now constructor|]. cbn [map fst]. now constructor.
    + destruct (N.ltb_spec k k') as [Hl|Hl].
      * split; [constructor; [exact Hk|now constructor]|].
        cbn [map fst]. constructor; [now constructor|].
        constructor; [exact Hl|].
        eapply Forall_impl; [|exact Hlt]. cbn. intros; lia.
      * destruct (IH Ho' Hs') as [A B].
        split; [now constructor|]. cbn [map fst]. constructor; [exact B|].
        apply Forall_forall. intros x Hx.
        destruct (setStar_fst _ _ _ _ Hx) as [->|Hx']; [lia|].
        rewrite Forall_forall in Hlt. now apply Hlt.
Qed.

Lemma starLabel_key s m :
  exec starLabelRe s = Some m ->
  exists k, group 1 m = Some [k] /\ ch "1" <= k <= ch "5".
Proof.
  intros E.
  destruct (exec_binds starLabelRe 0 s m eq_refl E) as (v & G & a & O & L).
  unfold starLabelRe in O.
  set (tail := Cat (Plus isSpace) _) in O.
  inversion O as [ | | ? ? ? ? O1 | ? ? ? ? O1 | | | ]; subst; clear O.
  2: { exfalso. subst tail. cbv in O1. clear - O1. inv_group. }
  inv_group. cbn [lang] in L. destruct L as (k & -> & Hk).
  exists k. split; [exact G|].
  unfold range in Hk. apply andb_true_iff in Hk. destruct Hk as [A B].
  apply N.leb_le in A, B. now split.
Qed.

Lemma countRe_count s m :
  exec countRe s = Some m -> isCount (parseInt (tpl (group 0 m))).
Proof.
  intros E. destruct m as [w k].
  destruct (exec_sound _ _ _ _ E) as (pre & rest & tl & _ & Hr).
  assert (Hin : In (w, k, rest) (run countRe (w ++ rest)))
    by (rewrite Hr; now left).
  destruct (run_sound _ _ _ _ _ Hin) as (_ & L & _).
  unfold countRe, Plus in L. cbn [lang] in L.
  destruct L as (w1 & w2 & -> & (c & -> & Hc) & _).
  cbn [group fst tpl app]. unfold parseInt. cbn [span]. rewrite Hc.
  destruct (span isDigit (w2 ++ [])) as [x y] eqn:S.
  destruct (span isDigit w2) as [x' y']. cbn [fst]. eexists.
  split; [reflexivity|]. unfold Qle. cbn [Qnum Qden]. lia.
Qed.

Lemma distributionRow_keyed o row :
  wellKeyed o -> wellKeyed (distributionRow o row).
Proof.
  intros H. unfold distributionRow.
  destruct (exec starLabelRe (fst row)) as [starMatch|] eqn:E1; [|exact H].
  destruct (exec countRe (snd row)) as [countMatch|] eqn:E2; [|exact H].
  destruct (starLabel_key _ _ E1) as (k & -> & Hk). cbn [tpl].
  apply setStar_keyed; [|exact H].
  split; [exact Hk|]. cbn [snd]. now apply (countRe_count (snd row)).
Qed.

Lemma sorted_length hi l : forall lo,
  StronglySorted N.lt l -> Forall (fun x => lo <= x <= hi) l ->
  N.of_nat (List.length l) <= hi + 1 - lo.
Proof.
  induction l as [|x l IH]; intros lo Hs Hb; cbn [List.length]; [lia|].
  inversion Hs as [|? ? Hs' Hlt]; subst. inversion Hb as [|? ? Hx Hb']; subst.
  assert (H := IH (x + 1) Hs').
  assert (F : Forall (fun y => x + 1 <= y <= hi) l).
  { rewrite Forall_forall in *. intros y Hy.
    specialize (Hlt y Hy). specialize (Hb' y Hy). lia. }
  specialize (H F). lia.
Qed.

(** X11: whatever rows the page holds, the distribution returned by the
    rating code has its keys among the digits 1 to 5, pairwise distinct
    and in increasing order, so at most five of them, and each value is a
    number that is neither NaN nor negative; it is absent exactly when no
    row was accepted. *)
Theorem distribution_keys ratingElement countText rows :
  match distribution (pageRating ratingElement countText rows) with
  | Some o =>
      o <> [] /\
      Forall starEntry o /\
      StronglySorted N.lt (map fst o) /\
      (List.length o <= 5)%nat
  | None => fold_left distributionRow rows [] = []
  end.
Proof.
  assert (K : forall o, wellKeyed o -> wellKeyed (fold_left distributionRow rows o)).
  { induction rows as [|row rows IH]; intros o Ho; [exact Ho|].
    cbn [fold_left]. apply IH. now apply distributionRow_keyed. }
  specialize (K [] (conj (Forall_nil _) (SSorted_nil _))).
  unfold pageRating. cbn [distribution].
  destruct (fold_left distributionRow rows []) as [|e o] eqn:E; [reflexivity|].
  destruct K as [A B]. repeat split; [discriminate|exact A|exact B|].
  assert (L := sorted_length (ch "5") (map fst (e :: o)) (ch "1") B).
  rewrite length_map in L.
  assert (F : Forall (fun x => ch "1" <= x <= ch "5") (map fst (e :: o))).
  { apply Forall_map. eapply Forall_impl; [|exact A]. now intros a [Ha _]. }
  specialize (L F). change (ch "5" + 1 - ch "1") with 5 in L. lia.
Qed.

End CountProps.

(** ** Images and related products *)

Module GalleryProps.

Import Float Reviews Replace Gallery ReviewProps.

(** ** Positions *)

Lemma placed_img : placed (fun e index => Some (imageOfImg (own e) index)).
Proof. intros e index i [= <-]. now split. Qed.

Lemma placed_container : placed imageOfContainer.
Proof.
  intros e index i. unfold imageOfContainer.
  destruct (innerImg e); [intros [= <-]; now split|].
  destruct (_ && _); [intros [= <-]; now split|discriminate].
Qed.

Lemma forEachIndexed_positions f (Hf : placed f) elements : forall start,
  let images := forEachIndexed f start elements in
  Forall (fun i => (start <= position i)%nat /\
                   isMain i = Nat.eqb (position i) 0) images /\
  StronglySorted Nat.lt (map position images).
Proof.
  induction elements as [|e l IH]; intros start; cbn [forEachIndexed].
  - split; constructor.
  - destruct (IH (S start)) as [A B].
    assert (A' : Forall (fun i => (start <= position i)%nat /\
                                  isMain i = Nat.eqb (position i) 0)
                        (forEachIndexed f (S start) l)).
    { eapply Forall_impl; [|exact A]. cbn. intros a [H1 H2]. split; [lia|exact H2]. }
    destruct (f e start) as [i|] eqn:E; [|now split].
    destruct (Hf _ _ _ E) as [P M]. split.
    + constructor; [|exact A']. rewrite P. split; [lia|exact M].
    + cbn [map]. constructor; [exact B|].
      apply Forall_map. eapply Forall_impl; [|exact A].
      cbn. intros a [H1 _]. lia.
Qed.

Lemma forEachIndexed_length {A B : Type} (f : A -> nat -> option B) l :
  forall start, (List.length (forEachIndexed f start l) <= List.length l)%nat.
Proof.
  induction l as [|x l IH]; intros start; cbn [forEachIndexed List.length]; [lia|].
  specialize (IH (S start)). destruct (f x start); cbn [List.length]; lia.
Qed.

Lemma slice0_length {A : Type} (stop : Z) (a : list A) :
  (0 <= stop)%Z -> (Z.of_nat (List.length (slice0 stop a)) <= stop)%Z.
Proof.
  intros H. unfold slice0. destruct (Z.ltb_spec stop 0); [lia|].
  rewrite length_firstn. lia.
Qed.

(** X12: the images returned by [extractImages] carry strictly increasing
    positions, and an image is the main one exactly when its position is
    0: there is at most one main image, and none at all when the first
    element the selector finds is a container that yields no image, however
    many images follow.  With a limit that is not negative, no more images
    than the limit are returned. *)
Theorem image_positions imageElements maxImages :
  let images := extractImages imageElements maxImages in
  StronglySorted Nat.lt (map position images) /\
  Forall (fun i => isMain i = Nat.eqb (position i) 0) images /\
  ((0 <= maxImages)%Z -> (Z.of_nat (List.length images) <= maxImages)%Z) /\
  (forall e rest,
      imageElements = Some (e :: rest) -> tagIsImg e = false ->
      imageOfContainer e 0 = None ->
      Forall (fun i => isMain i = false) images).
Proof.
  intros images. subst images. unfold extractImages.
  destruct imageElements as [elements|].
  2:{ repeat split; try constructor; try discriminate. cbn. lia. }
  set (firstIsImg := match elements with e :: _ => tagIsImg e | [] => false end).
  assert (P : forall f, placed f ->
              let images := forEachIndexed f 0 (slice0 maxImages elements) in
              StronglySorted Nat.lt (map position images) /\
              Forall (fun i => isMain i = Nat.eqb (position i) 0) images /\
              ((0 <= maxImages)%Z ->
               (Z.of_nat (List.length images) <= maxImages)%Z)).
  { intros f Hf images.
    destruct (forEachIndexed_positions f Hf (slice0 maxImages elements) 0%nat)
      as [A B].
    split; [exact B|]. split.
    - eapply Forall_impl; [|exact A]. now intros a [_ H].
    - intros Hm. pose proof (slice0_length maxImages elements Hm).
      pose proof (forEachIndexed_length f (slice0 maxImages elements) 0%nat).
      subst images. lia. }
  destruct firstIsImg eqn:F.
  - destruct (P _ placed_img) as (A & B & C). repeat split; auto.
    intros e rest [= ->] He. subst firstIsImg. congruence.
  - destruct (P _ placed_container) as (A & B & C). repeat split; auto.
    intros e rest [= ->] _ Hn.
    unfold slice0. destruct (maxImages <? 0)%Z.
    + destruct (List.length (e :: rest) - Z.to_nat (- maxImages))%nat;
        [constructor|].
      cbn [firstn forEachIndexed]. rewrite Hn.
      destruct (forEachIndexed_positions _ placed_container (firstn n rest) 1%nat)
        as [A' _].
      eapply Forall_impl; [|exact A']. cbn. intros a [H1 H2].
      rewrite H2. apply Nat.eqb_neq. lia.
    + destruct (Z.to_nat maxImages); [constructor|].
      cbn [firstn forEachIndexed]. rewrite Hn.
      destruct (forEachIndexed_positions _ placed_container (firstn n rest) 1%nat)
        as [A' _].
      eapply Forall_impl; [|exact A']. cbn. intros a [H1 H2].
      rewrite H2. apply Nat.eqb_neq. lia.
Qed.


Lemma image_positions_witness :
  Forall (fun i => isMain i = false)
         (extractImages
            (Some [mkElement false (mkImgReadings None None None) None []
                             None None;
                   mkElement false (mkImgReadings None None None)
                             (Some (mkImgReadings (Some (u "a.png")) None None))
                             [] None None])
            10).
Proof.
  refine (proj2 (proj2 (proj2 (image_positions _ 10))) _ _ eq_refl _ _);
    reflexivity.
Defined.

(** ** The address in a background image *)

Lemma star_all p a c :
  forallb p (a ++ [c]) = true ->
  exists tl, star p (a ++ [c]) = (a ++ [c], [], []) :: (a, [], [c]) :: tl.
Proof.
  induction a as [|x a IH]; cbn [app forallb star]; intros H;
    apply andb_true_iff in H; destruct H as [Hx H]; rewrite Hx.
  - now exists [].
  - destruct (IH H) as (tl & ->). cbn [map app]. eexists. reflexivity.
Qed.

Lemma heads_second {A B : Type} (f : A -> list B) x y tl z :
  f x = [] -> heads (f y) z -> heads (flat_map f (x :: y :: tl)) z.
Proof.
  intros Hx (tl' & Hy). cbn [flat_map]. rewrite Hx, Hy. cbn [app].
  eexists. reflexivity.
Qed.

Lemma urlTail_quoted q :
  quoteMark q = true -> run urlTail [q; closing] = [([q; closing], [], [])].
Proof.
  intros Hq. unfold urlTail. rewrite run_Cat, run_Opt, (run_Chr_hit _ _ _ Hq).
  cbn [app flat_map]. rewrite run_Chr_hit by reflexivity.
  assert (quoteMark q && true = true -> (closing =? q) = false) as Hc.
  { intros _. unfold quoteMark in Hq. apply N.eqb_neq. intros <-. discriminate. }
  cbn [run]. rewrite Hc by (now rewrite Hq). reflexivity.
Qed.

Lemma urlTail_bare : run urlTail [closing] = [([closing], [], [])].
Proof. reflexivity. Qed.

Lemma urlTail_end : run urlTail [] = [].
Proof. reflexivity. Qed.

Lemma urlBody_quoted c t q :
  forallb notQuote (c :: t) = true -> quoteMark q = true ->
  heads (run urlBody ((c :: t) ++ [q; closing]))
        ((c :: t) ++ [q; closing], [(1%nat, c :: t)], []).
Proof.
  intros Hu Hq. cbn [forallb] in Hu. apply andb_true_iff in Hu.
  destruct Hu as [Hc Ht]. unfold urlBody. rewrite run_Cat.
  eapply heads_flat_map.
  - rewrite run_Grp. unfold Plus. rewrite run_Cat. cbn [app].
    rewrite (run_Chr_hit _ _ _ Hc). cbn [flat_map]. rewrite app_nil_r, run_Star.
    rewrite map_map.
    apply (heads_map _ _ (t, [], [q; closing])).
    apply star_head; [exact Ht|]. cbn [stops]. unfold notQuote. now rewrite Hq.
  - cbn beta iota. rewrite (urlTail_quoted q Hq). cbn [map app].
    eexists. reflexivity.
Qed.

Lemma urlBody_bare c t :
  forallb notQuote (c :: t) = true ->
  heads (run urlBody ((c :: t) ++ [closing]))
        ((c :: t) ++ [closing], [(1%nat, c :: t)], []).
Proof.
  intros Hu. cbn [forallb] in Hu. apply andb_true_iff in Hu.
  destruct Hu as [Hc Ht]. unfold urlBody. rewrite run_Cat.
  rewrite run_Grp. unfold Plus. rewrite run_Cat. cbn [app].
  rewrite (run_Chr_hit _ _ _ Hc). cbn [flat_map]. rewrite app_nil_r, run_Star.
  destruct (star_all notQuote t closing) as (tl & ->).
  { rewrite forallb_app, Ht. reflexivity. }
  cbn [map]. apply heads_second.
  - rewrite urlTail_end. reflexivity.
  - rewrite urlTail_bare. cbn [map app]. eexists. reflexivity.
Qed.

Lemma urlRe_unfold s :
  run urlRe (u "url(" ++ s)
  = map (fun '(w2, k2, r2) => (u "url(" ++ w2, k2, r2))
        (run (Cat (Opt (Chr quoteMark)) urlBody) s).
Proof.
  unfold urlRe. rewrite run_Cat.
  change (run (lit ci (u "url(")) (u "url(" ++ s)) with [(u "url(", @nil (nat * jsstring), s)].
  cbn [flat_map]. rewrite app_nil_r. reflexivity.
Qed.

Lemma urlRe_whole q a :
  quotes q -> a <> [] -> forallb notQuote a = true ->
  let s := u "url(" ++ q ++ a ++ q ++ [closing] in
  heads (run urlRe s) (s, [(1%nat, a)], []).
Proof.
  intros Hq Ha Hn s. subst s. rewrite urlRe_unfold.
  destruct a as [|c t]; [congruence|].
  destruct Hq as [->|(x & -> & Hx)].
  - cbn [app]. change (c :: t ++ [closing]) with ((c :: t) ++ [closing]).
    apply (heads_map (fun '(w2, k2, r2) => (u "url(" ++ w2, k2, r2)) _
                     ((c :: t) ++ [closing], [(1%nat, c :: t)], [])).
    rewrite run_Cat, run_Opt.
    assert (Hc : quoteMark c = false).
    { cbn [forallb] in Hn. apply andb_true_iff in Hn. destruct Hn as [Hc _].
      now apply negb_true_iff in Hc. }
    cbn [app]. rewrite (run_Chr_miss _ _ _ Hc). cbn [app flat_map].
    rewrite app_nil_r.
    destruct (urlBody_bare c t Hn) as (tl & E). cbn [app] in E. rewrite E.
    cbn [map app]. eexists. reflexivity.
  - replace ([x] ++ (c :: t) ++ [x] ++ [closing])
      with (x :: (c :: t) ++ [x; closing]) by reflexivity.
    apply (heads_map (fun '(w2, k2, r2) => (u "url(" ++ w2, k2, r2)) _
                     (x :: (c :: t) ++ [x; closing], [(1%nat, c :: t)], [])).
    rewrite run_Cat, run_Opt, (run_Chr_hit _ _ _ Hx). cbn [app flat_map].
    destruct (urlBody_quoted c t x Hn Hx) as (tl & E). cbn [app] in E.
    rewrite E. cbn [map app]. eexists. reflexivity.
Qed.

(** X13: a background image that is a single [url(...)] value, with the
    address between two quotation marks of the same kind or bare, gives
    back the address itself, whatever it contains besides quotation
    marks (a closing parenthesis included). *)
Theorem background_address q a :
  quotes q -> a <> [] -> forallb notQuote a = true ->
  backgroundUrl (u "url(" ++ q ++ a ++ q ++ [closing]) = a.
Proof.
  intros Hq Ha Hn. unfold backgroundUrl, replaceAll.
  destruct (urlRe_whole q a Hq Ha Hn) as (tl & E).
  set (s := u "url(" ++ q ++ a ++ q ++ [closing]) in *.
  cbn [replaceLoop].
  assert (F : find urlRe s = Some ([], (s, [(1%nat, a)]), [])).
  { destruct s; cbn [find]; now rewrite E. }
  rewrite F. cbn [fst group lookup Nat.eqb tpl app].
  destruct s as [|x s']; [discriminate|].
  destruct (List.length (x :: s')); cbn [replaceLoop find];
    now rewrite app_nil_r.
Qed.

Lemma background_address_witness :
  backgroundUrl (u "url(" ++ [34] ++ u "http://a/b(1).png" ++ [34] ++ [closing])
  = u "http://a/b(1).png".
Proof.
  apply (background_address [34] (u "http://a/b(1).png")).
  - right. exists 34. split; reflexivity.
  - discriminate.
  - reflexivity.
Defined.


(** ** Related products *)

Lemma orElse_default a b : b <> [] -> orElse a b <> [].
Proof. intros Hb. destruct a as [[|c t]|]; cbn; congruence. Qed.

Lemma relatedOf_title product :
  orElse (option_map trim (Gallery.titleText product))
         (orElse (linkTitle product) (u "Related Product")) <> [].
Proof. apply orElse_default, orElse_default. discriminate. Qed.

Lemma eqs_nil s : eqs s [] = true <-> s = [].
Proof.
  unfold eqs. destruct (list_eq_dec N.eq_dec s []); split; congruence.
Qed.

Lemma relatedOf_cases product :
  match relatedOf product with
  | Some p =>
      relatedTitle p <> [] /\ relatedUrl p = linkOf product /\
      nonEmpty (linkOf product) = true
  | None => nonEmpty (linkOf product) = false
  end.
Proof.
  unfold relatedOf. cbv zeta.
  pose proof (relatedOf_title product) as T.
  destruct (eqs (orElse (option_map trim (Gallery.titleText product))
                        (orElse (linkTitle product) (u "Related Product"))) [])
    eqn:E; [apply eqs_nil in E; congruence|].
  cbn [negb andb]. fold (linkOf product). fold (nonEmpty (linkOf product)).
  destruct (nonEmpty (linkOf product)) eqn:N; [|reflexivity].
  cbn [relatedTitle relatedUrl]. auto.
Qed.

(** X14: every related product returned has a title and an address that
    are not empty, and the addresses returned are, in order, the non-empty
    link addresses of the elements within the limit: an element is left
    out only for want of a link, never for want of a title. *)
Theorem related_products_kept productElements maxProducts :
  let products := extractRelatedProducts productElements maxProducts in
  Forall (fun p => relatedTitle p <> [] /\ relatedUrl p <> []) products /\
  map relatedUrl products
  = filter nonEmpty
           (map linkOf
                (match productElements with
                 | Some elements => slice0 maxProducts elements
                 | None => []
                 end)).
Proof.
  cbv zeta. unfold extractRelatedProducts.
  destruct productElements as [elements|]; [|split; [constructor|reflexivity]].
  generalize (slice0 maxProducts elements) as l. generalize 0%nat as start.
  intros start l. revert start.
  induction l as [|x l IH]; intros start; cbn [forEachIndexed map filter].
  - split; [constructor|reflexivity].
  - destruct (IH (S start)) as [A B].
    pose proof (relatedOf_cases x) as C.
    destruct (relatedOf x) as [p|].
    + destruct C as (C1 & C2 & C3). rewrite C3. cbn [map]. split.
      * constructor; [|exact A]. split; [exact C1|].
        rewrite C2. unfold nonEmpty in C3. apply negb_true_iff in C3.
        intros H. apply eqs_nil in H. congruence.
      * now rewrite C2, B.
    + rewrite C. now split.
Qed.

End GalleryProps.

(** ** Variants *)

Module VariantProps.

Import Variants GalleryProps.

Lemma eqs_true a b : eqs a b = true <-> a = b.
Proof. unfold eqs. destruct (list_eq_dec N.eq_dec a b); split; congruence. Qed.

Lemma eqs_false a b : eqs a b = false <-> a <> b.
Proof. unfold eqs. destruct (list_eq_dec N.eq_dec a b); split; congruence. Qed.

Lemma hasKey_In k g : hasKey k g = true <-> In k (map fst g).
Proof.
  unfold hasKey. rewrite existsb_exists. split.
  - intros (e & He & E). apply eqs_true in E. subst k. now apply in_map.
  - intros H. apply in_map_iff in H. destruct H as (e & <- & He).
    exists e. split; [exact He|]. now apply eqs_true.
Qed.

Lemma pushTo_keys k x g : map fst (pushTo k x g) = map fst g.
Proof.
  induction g as [|[k' xs] g IH]; [reflexivity|]. cbn [pushTo].
  destruct (eqs k k'); cbn [map fst]; [reflexivity|]. now rewrite IH.
Qed.

Lemma pushTo_In k x g k' xs :
  NoDup (map fst g) -> In (k', xs) (pushTo k x g) ->
  (k' = k /\ exists ys, xs = ys ++ [x] /\ In (k, ys) g) \/
  (k' <> k /\ In (k', xs) g).
Proof.
  induction g as [|[k0 ys] g IH]; cbn [pushTo map fst]; intros N H; [destruct H|].
  inversion N as [|? ? Hn N']; subst.
  destruct (eqs k k0) eqn:E.
  - apply eqs_true in E. subst k0. destruct H as [[= <- <-]|H].
    + left. split; [reflexivity|]. exists ys. split; [reflexivity|now left].
    + right. split; [|now right]. intros ->. apply Hn.
      apply in_map_iff. now exists (k, xs).
  - apply eqs_false in E. destruct H as [[= <- <-]|H].
    + right. split; [congruence|now left].
    + destruct (IH N' H) as [(-> & ys' & -> & Hy)|(Hk & Hy)].
      * left. split; [reflexivity|]. exists ys'. split; [reflexivity|now right].
      * right. split; [exact Hk|now right].
Qed.

Lemma pushTo_perm k x g :
  In k (map fst g) ->
  Permutation (flat_map snd (pushTo k x g)) (flat_map snd g ++ [x]).
Proof.
  induction g as [|[k0 ys] g IH]; cbn [pushTo map fst]; intros H; [destruct H|].
  destruct (eqs k k0) eqn:E; cbn [flat_map snd].
  - rewrite <- !app_assoc. apply Permutation_app_head.
    apply Permutation_app_comm.
  - apply eqs_false in E. destruct H as [H|H]; [congruence|].
    rewrite <- app_assoc. apply Permutation_app_head. now apply IH.
Qed.

Lemma addKey_In k v g e : In e (addKey k v g) <-> e = (k, v) \/ In e g.
Proof.
  induction g as [|[k0 ys] g IH]; cbn [addKey In].
  - intuition auto.
  - destruct (enumeratedBefore k k0); cbn [In]; [intuition auto|].
    rewrite IH. intuition auto.
Qed.

Lemma addKey_keys k v g :
  Permutation (map fst (addKey k v g)) (k :: map fst g).
Proof.
  induction g as [|[k0 ys] g IH]; cbn [addKey map fst]; [reflexivity|].
  destruct (enumeratedBefore k k0); cbn [map fst]; [reflexivity|].
  rewrite IH. apply perm_swap.
Qed.

Lemma addKey_perm k g :
  Permutation (flat_map snd (addKey k [] g)) (flat_map snd g).
Proof.
  induction g as [|[k0 ys] g IH]; cbn [addKey flat_map snd app]; [reflexivity|].
  destruct (enumeratedBefore k k0); cbn [flat_map snd app]; [reflexivity|].
  now apply Permutation_app_head.
Qed.

Lemma filter_snoc {A : Type} (p : A -> bool) l x :
  filter p (l ++ [x]) = filter p l ++ (if p x then [x] else []).
Proof. rewrite filter_app. reflexivity. Qed.

Lemma named_own x : named (inputName x) x = true.
Proof. now apply eqs_true. Qed.

Lemma named_other k x : inputName x <> k -> named k x = false.
Proof. intros H. now apply eqs_false. Qed.

Lemma grouped_step done g x g' :
  grouped done g -> groupInput (Some g) x = Some g' ->
  grouped (done ++ [x]) g'.
Proof.
  intros (N & G & C & P & I). cbn [groupInput]. cbv zeta.
  set (k := inputName x).
  destruct (hasKey k g) eqn:K.
  - intros [= <-]. apply hasKey_In in K.
    split; [now rewrite pushTo_keys|]. split; [|split; [|split]].
    + intros k' xs H.
      destruct (pushTo_In _ _ _ _ _ N H) as [(-> & ys & -> & Hy)|(Hk & Hy)].
      * destruct (G _ _ Hy) as [_ ->]. split; [now destruct (filter _ done)|].
        rewrite filter_snoc. subst k. now rewrite named_own.
      * destruct (G _ _ Hy) as [Hn ->]. split; [exact Hn|].
        rewrite filter_snoc, named_other by (subst k; congruence).
        now rewrite app_nil_r.
    + intros y Hy. rewrite pushTo_keys. apply in_app_or in Hy.
      destruct Hy as [Hy|[<-|[]]]; [now apply C|exact K].
    + rewrite (pushTo_perm k x g K). now apply Permutation_app_tail.
    + intros k'. rewrite pushTo_keys. apply I.
  - destruct (existsb (eqs k) inheritedNames) eqn:Hi; [discriminate|].
    intros [= <-].
    assert (Hk : ~ In k (map fst g)).
    { intros H. apply hasKey_In in H. congruence. }
    set (g1 := addKey k [] g).
    assert (N1 : NoDup (map fst g1)).
    { apply (Permutation_NoDup (Permutation_sym (addKey_keys k [] g))).
      now constructor. }
    assert (K1 : In k (map fst g1)).
    { apply (Permutation_in _ (Permutation_sym (addKey_keys k [] g))). now left. }
    assert (E : filter (named k) done = []).
    { destruct (filter (named k) done) as [|y l] eqn:F; [reflexivity|].
      exfalso. assert (Hy : In y (filter (named k) done)) by (rewrite F; now left).
      apply filter_In in Hy. destruct Hy as [Hy1 Hy2].
      apply eqs_true in Hy2. apply Hk. rewrite <- Hy2. now apply C. }
    split; [now rewrite pushTo_keys|]. split; [|split; [|split]].
    + intros k' xs H.
      destruct (pushTo_In _ _ _ _ _ N1 H) as [(-> & ys & -> & Hy)|(Hk' & Hy)].
      * split; [now destruct ys|].
        apply addKey_In in Hy. destruct Hy as [[= ->]|Hy].
        -- rewrite filter_snoc, E. subst k. now rewrite named_own.
        -- exfalso. apply Hk. apply in_map_iff. now exists (k, ys).
      * apply addKey_In in Hy. destruct Hy as [[= -> ->]|Hy]; [congruence|].
        destruct (G _ _ Hy) as [Hn ->]. split; [exact Hn|].
        rewrite filter_snoc, named_other by (subst k; congruence).
        now rewrite app_nil_r.
    + intros y Hy. rewrite pushTo_keys. apply in_app_or in Hy.
      destruct Hy as [Hy|[<-|[]]]; [|exact K1].
      apply (Permutation_in _ (Permutation_sym (addKey_keys k [] g))).
      right. now apply C.
    + rewrite (pushTo_perm k x g1 K1). apply Permutation_app_tail.
      unfold g1. now rewrite addKey_perm.
    + intros k'. rewrite pushTo_keys. intros H.
      apply (Permutation_in _ (addKey_keys k [] g)) in H.
      destruct H as [<-|H]; [exact Hi|now apply I].
Qed.

Lemma groupInput_thrown l : fold_left groupInput l None = None.
Proof. induction l as [|x l IH]; [reflexivity|exact IH]. Qed.

Lemma grouped_fold l : forall done g g',
  grouped done g -> fold_left groupInput l (Some g) = Some g' ->
  grouped (done ++ l) g'.
Proof.
  induction l as [|x l IH]; intros done g g' H; cbn [fold_left].
  - intros [= <-]. now rewrite app_nil_r.
  - destruct (groupInput (Some g) x) as [g1|] eqn:E.
    + intros F. replace (done ++ x :: l) with ((done ++ [x]) ++ l)
        by (now rewrite <- app_assoc).
      apply (IH _ g1); [|exact F]. now apply (grouped_step done g).
    + now rewrite groupInput_thrown.
Qed.

Lemma grouped_start : grouped [] [].
Proof.
  repeat split; try constructor; intros; cbn in *; tauto.
Qed.

Lemma grouped_variants done g :
  grouped done g ->
  flat_map (fun e => map (inputVariant (fst e)) (snd e)) g
  = map ownVariant (flat_map snd g).
Proof.
  intros (_ & G & _). assert (H : forall e, In e g -> In e g) by auto.
  revert H. generalize g at 1 3 4. intros l.
  induction l as [|[k xs] l IH]; intros H; [reflexivity|].
  cbn [flat_map fst snd]. rewrite map_app. f_equal.
  - destruct (G k xs (H _ (or_introl eq_refl))) as [_ E].
    apply map_ext_in. intros a Ha. rewrite E in Ha.
    apply filter_In in Ha. destruct Ha as [_ Ha]. apply eqs_true in Ha.
    unfold ownVariant. now rewrite Ha.
  - apply IH. intros e He. apply H. now right.
Qed.

(** X15: when the evaluation in the page succeeds, the variants are those
    of the selects, then one variant for every radio button and check box,
    then one for every swatch.  The inputs are taken group by group: the
    groups have pairwise distinct names, each group is made of all the
    inputs of its name in document order, and every input belongs to one,
    so that the inputs listed are a permutation of the inputs found. *)
Theorem variants_grouped d variants :
  pageVariants d = Some variants ->
  exists (g : groups) inputVariants,
    variants
    = flat_map selectVariants (selectElements d) ++ inputVariants
      ++ map (swatchVariant (orElse (swatchLabel d) (u "Option")))
             (swatchElements d) /\
    collect (map ownVariant (flat_map snd g)) = Some inputVariants /\
    NoDup (map fst g) /\
    (forall k xs, In (k, xs) g ->
                  xs <> [] /\ xs = filter (named k) (inputElements d)) /\
    Permutation (flat_map snd g) (inputElements d).
Proof.
  unfold pageVariants.
  destruct (fold_left groupInput (inputElements d) (Some [])) as [g|] eqn:F;
    [|discriminate].
  pose proof (grouped_fold _ _ _ _ grouped_start F) as H. cbn [app] in H.
  rewrite (grouped_variants _ _ H).
  destruct (collect (map ownVariant (flat_map snd g))) as [vs|] eqn:C;
    [|discriminate].
  intros [= <-]. exists g, vs. destruct H as (N & G & _ & P & _).
  split; [reflexivity|]. split; [exact C|]. split; [exact N|].
  split; [exact G|exact P].
Qed.


Lemma variants_grouped_witness :
  let input := fun n v => mkInputElement n v false None (Some None) in
  let d := mkVariantReadings
             [] [input (u "size") (u "S"); input (u "2") (u "a");
                 input (u "size") (u "M")] [] None in
  exists (g : groups) inputVariants,
    [mkVariant (u "2") (u "a") None true None;
     mkVariant (u "size") (u "S") None true None;
     mkVariant (u "size") (u "M") None true None]
    = flat_map selectVariants (selectElements d) ++ inputVariants
      ++ map (swatchVariant (orElse (swatchLabel d) (u "Option")))
             (swatchElements d) /\
    collect (map ownVariant (flat_map snd g)) = Some inputVariants /\
    NoDup (map fst g) /\
    (forall k xs, In (k, xs) g ->
                  xs <> [] /\ xs = filter (named k) (inputElements d)) /\
    Permutation (flat_map snd g) (inputElements d).
Proof.
  intros input d. apply (variants_grouped d). reflexivity.
Defined.

Lemma collect_thrown {A : Type} (l : list (option A)) :
  In None l -> collect l = None.
Proof.
  induction l as [|[x|] l IH]; cbn [collect In]; intros H.
  - destruct H.
  - destruct H as [H|H]; [discriminate|]. now rewrite IH.
  - reflexivity.
Qed.

Lemma grouped_inherited x l : forall done g,
  grouped done g -> In x l -> inherited (inputName x) = true ->
  fold_left groupInput l (Some g) = None.
Proof.
  induction l as [|y l IH]; intros done g H Hx Hi; [destruct Hx|].
  cbn [fold_left]. destruct (groupInput (Some g) y) as [g1|] eqn:E;
    [|apply groupInput_thrown].
  destruct Hx as [->|Hx].
  - exfalso. cbn [groupInput] in E. cbv zeta in E.
    destruct (hasKey (inputName x) g) eqn:K.
    + apply hasKey_In in K. destruct H as (_ & _ & _ & _ & I).
      specialize (I _ K). congruence.
    + unfold inherited in Hi. rewrite Hi in E. discriminate.
  - apply (IH (done ++ [y]) g1); auto. now apply (grouped_step done g).
Qed.

(** X16: one radio button or check box is enough to lose every variant:
    when its name is one that every object inherits ([constructor],
    [toString], ...), or when the query for its label throws, the
    evaluation in the page throws and [extractVariants] returns the empty
    list, the variants of the selects and of the swatches included. *)
Theorem variants_all_lost d x :
  In x (inputElements d) ->
  inherited (inputName x) = true \/ label x = None ->
  extractVariants (Some d) = [].
Proof.
  intros Hx H. unfold extractVariants, pageVariants.
  destruct (fold_left groupInput (inputElements d) (Some [])) as [g|] eqn:F;
    [|reflexivity].
  destruct H as [H|H].
  - pose proof (grouped_inherited x _ _ _ grouped_start Hx H) as F'.
    assert (E : Some g = None) by (rewrite <- F; exact F'). discriminate.
  - pose proof (grouped_fold _ _ _ _ grouped_start F) as G. cbn [app] in G.
    rewrite (grouped_variants _ _ G).
    rewrite collect_thrown; [reflexivity|].
    destruct G as (_ & _ & _ & P & _).
    apply in_map_iff. exists x. split.
    + unfold ownVariant, inputVariant. now rewrite H.
    + apply (Permutation_in _ (Permutation_sym P) Hx).
Qed.

Lemma variants_all_lost_witness :
  extractVariants
    (Some (mkVariantReadings
             [mkSelectElement (Some (u "size")) None None
                [mkOptionElement (u "s") false (Some (u "Small")) None None]]
             [mkInputElement (u "constructor") (u "on") false None (Some None)]
             [] None))
  = [].
Proof.
  eapply variants_all_lost.
  - left. reflexivity.
  - left. reflexivity.
Defined.

(** X17: the variants read from a select are all available and carry a
    name and a value that are not empty: an option that is disabled or has
    no value is left out, so the field [available] never tells an
    unavailable option of a select. *)
Theorem select_variants_available select :
  Forall (fun v => available v = true /\ name v <> [] /\ value v <> [])
         (selectVariants select).
Proof.
  unfold selectVariants. cbv zeta. apply Forall_flat_map, Forall_forall.
  intros o _.
  destruct (negb (eqs (optionValue o) []) && negb (optionDisabled o)) eqn:E;
    [|constructor].
  apply andb_true_iff in E. destruct E as [E1 E2].
  constructor; [|constructor]. cbn [available name value].
  split; [exact E2|]. split.
  - repeat apply orElse_default. discriminate.
  - apply orElse_default. apply negb_true_iff, eqs_false in E1. exact E1.
Qed.

End VariantProps.

Module OrderProps.

Import Variants VariantProps.

Lemma enumeratedBefore_other k k' :
  isIndex k = false -> enumeratedBefore k k' = false.
Proof. unfold isIndex, enumeratedBefore. now destruct (arrayIndex k). Qed.

Lemma enumeratedBefore_index k k' :
  isIndex k = true -> isIndex k' = false -> enumeratedBefore k k' = true.
Proof.
  unfold isIndex, enumeratedBefore.
  destruct (arrayIndex k); [|discriminate]. now destruct (arrayIndex k').
Qed.

Lemma enumeratedBefore_lt k k' :
  isIndex k = true -> isIndex k' = true ->
  enumeratedBefore k k' = (indexOf k <? indexOf k').
Proof.
  unfold isIndex, enumeratedBefore, indexOf.
  destruct (arrayIndex k); [|discriminate].
  destruct (arrayIndex k'); [reflexivity|discriminate].
Qed.

Lemma addKey_end k v g :
  isIndex k = false -> addKey k v g = g ++ [(k, v)].
Proof.
  intros H. induction g as [|[k' xs] g IH]; [reflexivity|].
  cbn [addKey app]. rewrite (enumeratedBefore_other k k' H). now rewrite IH.
Qed.

Lemma addKey_index k v g ixs strs :
  isIndex k = true ->
  map fst g = ixs ++ strs ->
  Forall (fun a => isIndex a = true) ixs ->
  Forall (fun a => isIndex a = false) strs ->
  StronglySorted (fun a b => indexOf a <= indexOf b) ixs ->
  exists ixs',
    map fst (addKey k v g) = ixs' ++ strs /\
    Forall (fun a => isIndex a = true) ixs' /\
    StronglySorted (fun a b => indexOf a <= indexOf b) ixs'.
Proof.
  intros Hk. revert ixs. induction g as [|[k' xs] g IH]; intros ixs E Fi Fs S.
  - cbn [map] in E. symmetry in E. apply app_eq_nil in E. destruct E as [-> ->].
    exists [k]. cbn. repeat split; constructor; auto; constructor.
  - cbn [map fst] in E. cbn [addKey]. destruct ixs as [|i ixs].
    + cbn [app] in E. destruct strs as [|s strs]; [discriminate|].
      injection E as E1 E2. subst s. inversion Fs as [|? ? Hs Fs']; subst.
      rewrite (enumeratedBefore_index k k' Hk Hs). exists [k].
      cbn [map fst app].
      repeat split; constructor; auto; constructor.
    + cbn [app] in E. injection E as E1 E. subst i.
      inversion Fi as [|? ? Hi Fi']; subst.
      inversion S as [|? ? S' Hlt]; subst.
      rewrite (enumeratedBefore_lt k k' Hk Hi).
      destruct (N.ltb_spec (indexOf k) (indexOf k')) as [L|L].
      * exists (k :: k' :: ixs). cbn [map fst app]. rewrite E.
        split; [reflexivity|]. split; [now constructor|].
        constructor; [now constructor|].
        constructor; [lia|].
        eapply Forall_impl; [|exact Hlt]. cbn. intros; lia.
      * destruct (IH ixs E Fi' Fs S') as (ixs' & E' & Fi'' & S'').
        exists (k' :: ixs'). cbn [map fst app]. rewrite E'.
        split; [reflexivity|]. split; [now constructor|].
        constructor; [exact S''|].
        (* every key of ixs' is k or a key of ixs *)
        apply Forall_forall. intros a Ha.
        assert (Hin : In a (map fst (addKey k v g))).
        { rewrite E'. apply in_or_app. now left. }
        apply (Permutation_in _ (addKey_keys k v g)) in Hin.
        destruct Hin as [<-|Hin]; [lia|].
        rewrite E in Hin. apply in_app_or in Hin. destruct Hin as [Hin|Hin].
        -- rewrite Forall_forall in Hlt. now apply Hlt.
        -- exfalso. rewrite Forall_forall in Fs, Fi''.
           specialize (Fs _ Hin). specialize (Fi'' _ Ha). congruence.
Qed.


Lemma remember_in seen k : In k seen -> remember seen k = seen.
Proof.
  intros H. unfold remember.
  destruct (existsb (eqs k) seen) eqn:E; [reflexivity|].
  exfalso. assert (T : existsb (eqs k) seen = true).
  { apply existsb_exists. exists k. split; [exact H|now apply eqs_true]. }
  congruence.
Qed.

Lemma remember_new seen k : ~ In k seen -> remember seen k = seen ++ [k].
Proof.
  intros H. unfold remember.
  destruct (existsb (eqs k) seen) eqn:E; [|reflexivity].
  exfalso. apply existsb_exists in E. destruct E as (x & Hx & E).
  apply eqs_true in E. now subst x.
Qed.

Lemma appearance_snoc names k :
  appearance (names ++ [k]) = remember (appearance names) k.
Proof. unfold appearance. now rewrite fold_left_app. Qed.

Lemma otherNames_snoc done x :
  otherNames (done ++ [x])
  = otherNames done
    ++ (if isIndex (inputName x) then [] else [inputName x]).
Proof.
  unfold otherNames. rewrite map_app, filter_app. cbn [map filter].
  now destruct (isIndex (inputName x)).
Qed.

Lemma appearance_other names :
  Forall (fun k => isIndex k = false) names ->
  Forall (fun k => isIndex k = false) (appearance names).
Proof.
  unfold appearance.
  assert (G : forall acc, Forall (fun k => isIndex k = false) acc ->
                          Forall (fun k => isIndex k = false) names ->
                          Forall (fun k => isIndex k = false)
                                 (fold_left remember names acc)).
  { induction names as [|k l IH]; intros acc Ha Hn; [exact Ha|].
    inversion Hn; subst. cbn [fold_left]. apply IH; [|assumption].
    unfold remember. destruct (existsb (eqs k) acc); [exact Ha|].
    apply Forall_app. split; [exact Ha|]. now constructor. }
  intros H. apply G; [constructor|exact H].
Qed.

Lemma otherNames_other done :
  Forall (fun k => isIndex k = false) (otherNames done).
Proof.
  unfold otherNames. apply Forall_forall. intros k Hk.
  apply filter_In in Hk. destruct Hk as [_ Hk]. now apply negb_true_iff.
Qed.

Lemma enumerated_step done g x g' :
  grouped done g -> enumerated done (map fst g) ->
  groupInput (Some g) x = Some g' ->
  enumerated (done ++ [x]) (map fst g').
Proof.
  intros G (ixs & E & Fi & S). cbn [groupInput]. cbv zeta.
  set (k := inputName x).
  pose proof (appearance_other _ (otherNames_other done)) as Fs.
  destruct (hasKey k g) eqn:K.
  - intros [= <-]. rewrite pushTo_keys. apply hasKey_In in K.
    exists ixs. split; [|now split].
    rewrite E. apply f_equal. rewrite otherNames_snoc. fold k.
    destruct (isIndex k) eqn:I; [now rewrite app_nil_r|].
    rewrite appearance_snoc, remember_in; [reflexivity|].
    rewrite E in K. apply in_app_or in K. destruct K as [K|K]; [|exact K].
    rewrite Forall_forall in Fi. specialize (Fi _ K). congruence.
  - destruct (existsb (eqs k) inheritedNames); [discriminate|].
    intros [= <-]. rewrite pushTo_keys.
    assert (Hk : ~ In k (map fst g)).
    { intros H. apply hasKey_In in H. congruence. }
    unfold enumerated. rewrite otherNames_snoc. fold k.
    destruct (isIndex k) eqn:I.
    + rewrite app_nil_r.
      destruct (addKey_index k [] g ixs _ I E Fi Fs S) as (ixs' & E' & Fi' & S').
      exists ixs'. now repeat split.
    + rewrite (addKey_end k [] g I), map_app. cbn [map fst].
      exists ixs. split; [|now split].
      rewrite appearance_snoc, remember_new.
      * now rewrite E, app_assoc.
      * intros H. apply Hk. rewrite E. apply in_or_app. now right.
Qed.

Lemma enumerated_fold l : forall done g g',
  grouped done g -> enumerated done (map fst g) ->
  fold_left groupInput l (Some g) = Some g' ->
  enumerated (done ++ l) (map fst g').
Proof.
  induction l as [|x l IH]; intros done g g' G H; cbn [fold_left].
  - intros [= <-]. now rewrite app_nil_r.
  - destruct (groupInput (Some g) x) as [g1|] eqn:E.
    + intros F. replace (done ++ x :: l) with ((done ++ [x]) ++ l)
        by (now rewrite <- app_assoc).
      apply (IH _ g1); [| |exact F].
      * now apply (grouped_step done g).
      * now apply (enumerated_step done g).
    + now rewrite groupInput_thrown.
Qed.

Lemma enumerated_start : enumerated [] [].
Proof. exists []. repeat split; constructor. Qed.

(** X26: the order in which the groups of radio buttons and check boxes
    are listed is the order in which the object that holds them is
    enumerated, not the order of the document: the groups whose name is an
    array index (a canonical numeral below 2^32 - 1) come first, by
    increasing index, and the other groups follow in the order in which
    their names first appear. *)
Theorem variant_group_order d variants :
  pageVariants d = Some variants ->
  exists (g : groups) inputVariants ixs,
    variants
    = flat_map selectVariants (selectElements d) ++ inputVariants
      ++ map (swatchVariant (orElse (swatchLabel d) (u "Option")))
             (swatchElements d) /\
    collect (map ownVariant (flat_map snd g)) = Some inputVariants /\
    (forall k xs, In (k, xs) g -> xs = filter (named k) (inputElements d)) /\
    map fst g = ixs ++ appearance (otherNames (inputElements d)) /\
    Forall (fun k => isIndex k = true) ixs /\
    StronglySorted (fun a b => indexOf a <= indexOf b) ixs.
Proof.
  unfold pageVariants.
  destruct (fold_left groupInput (inputElements d) (Some [])) as [g|] eqn:F;
    [|discriminate].
  pose proof (grouped_fold _ _ _ _ grouped_start F) as H. cbn [app] in H.
  pose proof (enumerated_fold _ _ _ _ grouped_start enumerated_start F) as O.
  cbn [app] in O. rewrite (grouped_variants _ _ H).
  destruct (collect (map ownVariant (flat_map snd g))) as [vs|] eqn:C;
    [|discriminate].
  intros [= <-]. destruct O as (ixs & E & Fi & S).
  exists g, vs, ixs. destruct H as (_ & G & _).
  split; [reflexivity|]. split; [exact C|]. split; [|now repeat split].
  intros k xs Hin. now apply G.
Qed.

Lemma variant_group_order_witness :
  let input := fun n v => mkInputElement n v false None (Some None) in
  let d := mkVariantReadings
             [] [input (u "size") (u "S"); input (u "10") (u "a");
                 input (u "2") (u "b"); input (u "size") (u "M")] [] None in
  exists (g : groups) inputVariants ixs,
    [mkVariant (u "2") (u "b") None true None;
     mkVariant (u "10") (u "a") None true None;
     mkVariant (u "size") (u "S") None true None;
     mkVariant (u "size") (u "M") None true None]
    = flat_map selectVariants (selectElements d) ++ inputVariants
      ++ map (swatchVariant (orElse (swatchLabel d) (u "Option")))
             (swatchElements d) /\
    collect (map ownVariant (flat_map snd g)) = Some inputVariants /\
    (forall k xs, In (k, xs) g -> xs = filter (named k) (inputElements d)) /\
    map fst g = ixs ++ appearance (otherNames (inputElements d)) /\
    Forall (fun k => isIndex k = true) ixs /\
    StronglySorted (fun a b => indexOf a <= indexOf b) ixs.
Proof.
  intros input d. apply (variant_group_order d). reflexivity.
Defined.

End OrderProps.

(** ** Exports *)

Module ExportProps.

Import Float Exports Readers.

(** ** The product export *)








(** ** The items export *)












(** A line feed in a field cuts the record in two lines of the file. *)
Example items_csv_line_feed :
  lines (csvContent [mkItem (u "t") (u "https://example.com/")
                            [ch "a"; 10; ch "b"] [] [] [] [] []])
  = [u "Title,URL,Description"; u "t,https://example.com/,a"; u "b"].
Proof. reflexivity. Qed.

(** A comma in the address is written as it is, and read as a separator. *)
Example items_csv_address_comma :
  readEscaped []
    (itemLine (mkItem (u "t") (u "https://example.com/?q=1,2") (u "d")
                      [] [] [] [] []))
  = [u "t"; u "https://example.com/?q=1"; u "2"; u "d"].
Proof. reflexivity. Qed.

End ExportProps.

(** ** Scrape methods and run *)

Module ExampleProps.

Import Float Reviews Exports Example GalleryProps.

Section Scrape.

Variable resolve : jsstring -> jsstring -> option jsstring.
Variable clock : nat -> jsstring.

Lemma linkItems_shape target links : forall tick,
  let items := linkItems clock tick target links in
  map url items = map linkUrl links /\
  Forall (fun i => title i <> []) items.
Proof.
  induction links as [|l links IH]; intros tick; cbn [linkItems map].
  - split; [reflexivity|constructor].
  - destruct (IH (S (S tick))) as [A B]. split.
    + cbn [url]. now rewrite A.
    + constructor; [|exact B]. cbn [title].
      apply orElse_default. discriminate.
Qed.

Lemma extractLinks_thrown base e h elements :
  In e elements -> kept e = Some h ->
  startsWith h (u "http") = false -> resolve h base = None ->
  extractLinks resolve base elements = None.
Proof.
  intros Hin Hk Hs Hr. induction elements as [|x l IH]; [destruct Hin|].
  cbn [extractLinks]. destruct Hin as [->|Hin].
  - unfold kept in Hk. destruct (href e) as [[|c t]|]; try discriminate.
    destruct (startsWith (c :: t) (u "#")); [discriminate|].
    injection Hk as <-. now rewrite Hs, Hr.
  - rewrite (IH Hin). destruct (href x) as [[|c t]|]; try reflexivity.
    destruct (startsWith (c :: t) (u "#")); [reflexivity|].
    now destruct (if startsWith (c :: t) (u "http") then _ else _).
Qed.

(** X20: one link that cannot be resolved loses every item.  When the
    address of a kept link is relative and the URL constructor throws on
    it, both scrape methods count one error and give the empty list,
    wherever the link stands in the page: the main item is lost too, and
    so are the links within the limit when the failing one lies beyond
    it.  On the browser path the empty list is returned unless closing the
    browser throws, which replaces it by that exception. *)
Theorem unresolved_link_loses_all config response page closeThrows stats e h :
  kept e = Some h -> startsWith h (u "http") = false ->
  (In e (responseLinks response) ->
   resolve h (targetUrl config) = None ->
   scrapeWithCheerio resolve clock config (Fetched response) stats
   = ([], failed (visited (dataLength response) stats))) /\
  (In e (linkElements page) ->
   resolve h (origin page) = None ->
   scrapeWithPuppeteer resolve clock config (Loaded page) closeThrows stats
   = (if closeThrows then None else Some [],
      failed (visited (size page) stats))).
Proof.
  intros Hk Hs. split; intros Hin Hr.
  - unfold scrapeWithCheerio. cbv zeta.
    now rewrite (extractLinks_thrown _ e h _ Hin Hk Hs Hr).
  - unfold scrapeWithPuppeteer, scrapePage. cbv zeta.
    rewrite (extractLinks_thrown _ e h _ Hin Hk Hs Hr).
    cbn [launched andb]. now destruct closeThrows.
Qed.



(** X22: the items returned by a scrape that succeeds: the main item
    first, carrying the target address, then one item for each of the
    resolved links within the limit, in order and with its address; no
    item has an empty title, and the statistics count the items
    returned. *)
Theorem cheerio_items config response stats links :
  extractLinks resolve (targetUrl config) (responseLinks response)
  = Some links ->
  let r := scrapeWithCheerio resolve clock config (Fetched response) stats in
  map url (fst r)
  = targetUrl config :: map linkUrl (slice0 (linkLimit config) links) /\
  Forall (fun i => title i <> []) (fst r) /\
  items_scraped (snd r) = (items_scraped stats + List.length (fst r))%nat /\
  errors (snd r) = errors stats.
Proof.
  intros E r. subst r. unfold scrapeWithCheerio. cbv zeta. rewrite E.
  cbn [fst snd map]. 
  destruct (linkItems_shape (targetUrl config)
              (slice0 (linkLimit config) links) 2) as [A B].
  repeat split.
  - cbn [url mainItem]. now rewrite A.
  - constructor; [|exact B]. cbn [title mainItem].
    apply orElse_default. discriminate.
Qed.

(** X23: [run] reports success whether or not anything was scraped: its
    result has [success] true exactly when nothing throws out of the
    constructor, out of the writing of the report or, on the browser path
    once a browser is launched, out of the closing of the browser.  In
    particular a page that cannot be loaded gives a successful result with
    no item and one error in the statistics. *)
Theorem run_success config world :
  let r := run resolve clock config world in
  success r
  = negb (constructorThrows world) && negb (reportThrows world)
    && negb (usePuppeteer config && launched (session world)
             && closeThrows world) /\
  (constructorThrows world = false -> reportThrows world = false ->
   closeThrows world = false ->
   session world = LoadFails -> fetch world = RequestFails ->
   success r = true /\ resultItems r = 0%nat /\ errors (resultStats r) = 1%nat).
Proof.
  intros r. subst r. unfold run.
  destruct (constructorThrows world) eqn:C; [split; [reflexivity|discriminate]|].
  destruct (usePuppeteer config) eqn:U.
  - unfold scrapeWithPuppeteer.
    destruct (scrapePage resolve clock config (session world) initialStats)
      as [items stats] eqn:S.
    destruct (launched (session world)) eqn:La, (closeThrows world) eqn:Cl;
      cbn [andb negb];
      try (split; [cbn; now rewrite andb_false_r|discriminate]);
      (destruct (saveData items (writeThrows world) stats) as [csv stats'] eqn:W;
       unfold generateReport;
       destruct (reportThrows world) eqn:R; [split; [reflexivity|discriminate]|];
       split; [reflexivity|]; intros _ _ _ L _; rewrite L in S, La;
       try discriminate).
      cbn [scrapePage] in S. injection S as <- <-.
      cbn [saveData] in W. injection W as _ <-. now repeat split.
  - destruct (scrapeWithCheerio resolve clock config (fetch world) initialStats)
      as [items stats] eqn:S.
    destruct (saveData items (writeThrows world) stats) as [csv stats'] eqn:W.
    unfold generateReport.
    destruct (reportThrows world) eqn:R; [split; [reflexivity|discriminate]|].
    split; [reflexivity|]. intros _ _ _ _ L. rewrite L in S.
    cbn [scrapeWithCheerio] in S. injection S as <- <-.
    cbn [saveData] in W. injection W as _ <-. now repeat split.
Qed.

End Scrape.


Lemma unresolved_link_loses_all_witness :
  let response :=
    mkResponse 10 (u "T") []
               [mkLinkElement (Some (u "https://a.example/")) (u "a");
                mkLinkElement (Some (u "//[")) (u "b")] in
  scrapeWithCheerio (fun _ _ => None) (fun _ => [])
                    (mkConfig None (Some (mkOptions (Some 1%Z) None)))
                    (Fetched response) initialStats
  = ([], mkStats 1 0 1 10).
Proof.
  intros response.
  refine (proj1 (unresolved_link_loses_all
                   (fun _ _ => None) (fun _ => [])
                   (mkConfig None (Some (mkOptions (Some 1%Z) None)))
                   response (mkPage 0 None None [] []) false initialStats
                   (mkLinkElement (Some (u "//[")) (u "b")) (u "//[")
                   eq_refl eq_refl) _ eq_refl).
  right. left. reflexivity.
Defined.


Lemma cheerio_items_witness :
  let response :=
    mkResponse 10 [] []
               [mkLinkElement (Some (u "#top")) (u "Top");
                mkLinkElement (Some (u "http://a.example/")) []] in
  map url (fst (scrapeWithCheerio (fun _ _ => None) (fun _ => [])
                                  (mkConfig None None) (Fetched response)
                                  initialStats))
  = [u "https://example.com"; u "http://a.example/"].
Proof.
  intros response.
  apply (cheerio_items (fun _ _ => None) (fun _ => []) (mkConfig None None)
                       response initialStats
                       [mkLink (u "http://a.example/") []] eq_refl).
Defined.

Lemma run_success_witness :
  let r := run (fun _ _ => None) (fun _ => []) (mkConfig None None)
               (mkWorld false LoadFails false RequestFails false false) in
  success r = true /\ resultItems r = 0%nat /\ errors (resultStats r) = 1%nat.
Proof.
  intros r.
  apply (proj2 (run_success (fun _ _ => None) (fun _ => [])
                            (mkConfig None None)
                            (mkWorld false LoadFails false RequestFails
                                     false false)));
    reflexivity.
Defined.

End ExampleProps.

Module ProductProps.

Import Float Reviews Gallery Variants Product ReviewProps GalleryProps.

Section Scrape.

Variable toLowerCase : jsstring -> jsstring.
Variable today : jsstring.
Variable now : jsstring.

(** X25: the result of [run] has [success] true exactly when the
    constructor does not throw, the scrape reaches the end of its [try]
    block, the browser closes without error and the report is written; it
    then counts one page visited, one item and one product scraped.  A
    write of the product that throws adds an error to the statistics and
    leaves the result a success; an exception of the closing of the
    browser loses a product that was scraped. *)
Theorem product_run_success config world :
  let r := run toLowerCase today now config world in
  (success r = true <->
   constructorThrows world = false /\
   (exists p, session world = Loaded p) /\
   closeThrows world = false /\ reportThrows world = false) /\
  (success r = true ->
   items_scraped r = 1%nat /\ products_scraped (resultStats r) = 1%nat /\
   pages_visited (resultStats r) = 1%nat /\
   errors (resultStats r) = if writeThrows world then 1%nat else 0%nat) /\
  (closeThrows world = true -> launched (session world) = true ->
   r = runFailure).
Proof.
  intros r. subst r. unfold run.
  destruct (constructorThrows world) eqn:C.
  { split; [split; [discriminate|intros (? & _); discriminate]|].
    split; [discriminate|reflexivity]. }
  unfold scrapeWithPuppeteer.
  destruct (session world) as [| | |n|p] eqn:L;
    cbn [scrapePage launched andb];
    destruct (closeThrows world) eqn:K; cbv zeta; cbv iota beta;
    cbn [saveData]; unfold generateReport;
    destruct (reportThrows world) eqn:R;
    (split;
     [split; [try discriminate|
              try (intros (_ & (q & Q) & _); discriminate);
              try (intros (_ & _ & Q & _); discriminate);
              try (intros (_ & _ & _ & Q); discriminate)]
     |split; [try discriminate|try discriminate; try reflexivity]]).
  - intros _. repeat split; eauto.
  - reflexivity.
  - intros _. destruct (writeThrows world); now repeat split.
Qed.

End Scrape.

Lemma product_run_success_witness :
  let world :=
    mkWorld false
            (Loaded (mkPage 0 None None None None None None None None None
                            None))
            false true false in
  let r := run (fun s => s) [] [] (mkConfig None None) world in
  items_scraped r = 1%nat /\ products_scraped (resultStats r) = 1%nat /\
  pages_visited (resultStats r) = 1%nat /\
  errors (resultStats r) = 1%nat.
Proof.
  intros world r.
  apply (proj1 (proj2 (product_run_success (fun s => s) [] []
                                           (mkConfig None None) world))).
  reflexivity.
Defined.

End ProductProps.
